(** * Ski routing graph: a shallow embedding of [app/js/graph.js], with
      the parts of [app/js/ui.js] and [app/js/app.js] that call it

    The development follows the source top to bottom: the binary
    min-heap [MinPriorityQueue], the [SkiGraph] constructor, the travel-time
    model [calculateWeight], the search [findRoute] with its path
    reconstruction and summary, [_buildElevationProfile] and
    [getSelectableLocations]; then, of the page, [populateDropdowns],
    [getExcludedColors], the three panel switches, the loading of the
    graph in [init] and the controller [handleFindRoute].

    Conventions of the embedding.
    - A JavaScript number is an exact rational ([Q]); the only non-finite
      value the code produces is [Infinity] (type [num]).  Floating-point
      rounding is not modelled.
    - A JavaScript object used as a dictionary ([nodes], [edgesById],
      [adjacency], [dist], [prev], [prevEdge], the [speeds] tables) is a
      finite map over string keys; names inherited from [Object.prototype]
      and the order in which an object enumerates its keys are not
      modelled.  A missing key reads as [undefined], here [None].
    - A [while] loop whose termination is not evident from its shape takes
      a fuel argument and returns [None] when the fuel is used up, so that
      "the call returns [r]" is "some fuel gives [Some r]".
    - A [TypeError] raised by a property access on [undefined] is the
      outcome [Throw].
    - The DOM is the record of the properties the code reads and writes;
      the elements the code looks up by id are taken to exist.  Rendering
      a route and drawing the chart are not embedded. *)

From Stdlib Require Import QArith Qround Qabs Lqa ZifyNat.
From Stdlib Require OrderedTypeEx.
From stdpp Require Import gmap strings list fin_maps sorting.

Local Open Scope string_scope.
Local Open Scope list_scope.

(** ** JavaScript values used by the module *)

(** A number that is finite or [Infinity]. *)
Inductive num : Type :=
  | Fin (q : Q)
  | Inf.

(** [a + b] on such numbers. *)
Definition num_add (a b : num) : num :=
  match a, b with
  | Fin x, Fin y => Fin (x + y)
  | _, _ => Inf
  end.

(** [Math.round]: the nearest integer, ties towards +Infinity. *)
Definition Math_round (x : Q) : Q := inject_Z (Qfloor (x + (1 # 2))).

Definition num_round (a : num) : num :=
  match a with
  | Fin x => Fin (Math_round x)
  | Inf => Inf
  end.

(** [Math.round(w * 10) / 10]. *)
Definition round1 (w : num) : num :=
  match w with
  | Fin x => Fin (Math_round (x * 10) / 10)
  | Inf => Inf
  end.

(** [Math.abs]. *)
Definition Math_abs (x : Q) : Q := Qabs x.

(** Strict comparison [x < y] of rationals as a boolean. *)
Definition Qltb (x y : Q) : bool := negb (Qle_bool y x).

(** Truthiness of a value that is a string or [undefined]: the empty
    string and [undefined] are falsy. *)
Definition truthy (s : option string) : bool :=
  match s with
  | Some s => negb (s =? "")
  | None => false
  end.

(** [s || null] for such a value. *)
Definition or_null (s : option string) : option string :=
  if truthy s then s else None.

(** The property key a value is coerced to when it indexes an object:
    [obj[undefined]] reads the property named "undefined". *)
Definition js_key (k : option string) : string :=
  match k with
  | Some s => s
  | None => "undefined"
  end.

(** Outcome of code that may raise a [TypeError]. *)
Inductive result (A : Type) : Type :=
  | Ok (a : A)
  | Throw.
Arguments Ok {A} a.
Arguments Throw {A}.

Definition bind {A B} (r : result A) (k : A -> result B) : result B :=
  match r with
  | Ok a => k a
  | Throw => Throw
  end.

Notation "x <- r ;; k" := (bind r (fun x => k))
  (at level 100, r at next level, right associativity).

(** A [for ... of] loop threading a state, aborted by the first throw. *)
Fixpoint for_of {A S} (body : S -> A -> result S) (l : list A) (s : S) : result S :=
  match l with
  | [] => Ok s
  | x :: l' => s' <- body s x ;; for_of body l' s'
  end.

(** [Array.prototype.map] with a callback that may throw. *)
Fixpoint map_throw {A B} (f : A -> result B) (l : list A) : result (list B) :=
  match l with
  | [] => Ok []
  | x :: l' => y <- f x ;; ys <- map_throw f l' ;; Ok (y :: ys)
  end.

(** ** Data model *)

Record Node : Type := {
  ele : Q;
  station : option string;
}.

Record Edge : Type := {
  e_id : string;
  e_source : string;
  e_target : string;
  e_type : string;
  e_difficulty : option string;
  e_liftType : option string;
  e_distance : Q;
  e_elevationDelta : Q;
  e_name : option string;
  e_geometry : option (list (Q * Q));
}.

(** The parsed JSON handed to the constructor ([metadata] is stored but
    never read by the routing code). *)
Record GraphData : Type := {
  gd_nodes : gmap string Node;
  gd_edges : list Edge;
}.

(** ** MinPriorityQueue *)

Record HeapEntry : Type := {
  key : string;
  priority : Q;
}.

(** [[heap[a], heap[b]] = [heap[b], heap[a]]]. *)
Definition swap (heap : list HeapEntry) (a b : nat) : list HeapEntry :=
  match heap !! a, heap !! b with
  | Some x, Some y => <[b := x]> (<[a := y]> heap)
  | _, _ => heap
  end.

(** [_bubbleUp(i)].  The index is at least halved by every iteration, so
    [i] iterations are enough. *)
Fixpoint bubbleUp_loop (fuel : nat) (heap : list HeapEntry) (i : nat) : list HeapEntry :=
  match fuel with
  | O => heap
  | S fuel' =>
      if bool_decide (0 < i) then
        let parent := (i - 1) / 2 in
        match heap !! parent, heap !! i with
        | Some hp, Some hi =>
            if Qle_bool (priority hp) (priority hi) then heap
            else bubbleUp_loop fuel' (swap heap parent i) parent
        | _, _ => heap
        end
      else heap
  end.

Definition _bubbleUp (heap : list HeapEntry) (i : nat) : list HeapEntry :=
  bubbleUp_loop i heap i.

(** [insert(key, priority)]. *)
Definition insert_pq (heap : list HeapEntry) (k : string) (p : Q) : list HeapEntry :=
  let heap' := heap ++ [{| key := k; priority := p |}] in
  _bubbleUp heap' (length heap' - 1).

(** Is [heap[j]] present with a priority strictly below [heap[i]]'s? *)
Definition below (heap : list HeapEntry) (j i : nat) : bool :=
  match heap !! j, heap !! i with
  | Some x, Some y => Qltb (priority x) (priority y)
  | _, _ => false
  end.

(** [_sinkDown(i)].  The index strictly grows, so [length heap]
    iterations are enough. *)
Fixpoint sinkDown_loop (fuel : nat) (heap : list HeapEntry) (i : nat) : list HeapEntry :=
  match fuel with
  | O => heap
  | S fuel' =>
      let n := length heap in
      let left := 2 * i + 1 in
      let right := 2 * i + 2 in
      let smallest := i in
      let smallest := if bool_decide (left < n) && below heap left smallest
                      then left else smallest in
      let smallest := if bool_decide (right < n) && below heap right smallest
                      then right else smallest in
      if bool_decide (smallest = i) then heap
      else sinkDown_loop fuel' (swap heap smallest i) smallest
  end.

Definition _sinkDown (heap : list HeapEntry) (i : nat) : list HeapEntry :=
  sinkDown_loop (length heap) heap i.

(** [extractMin()]: the key returned ([None] is [null]) and the heap left
    behind. *)
Definition extractMin (heap : list HeapEntry) : option string * list HeapEntry :=
  match heap with
  | [] => (None, [])
  | min :: _ =>
      let last := List.last heap min in
      let heap' := removelast heap in
      let heap' := if bool_decide (0 < length heap')
                   then _sinkDown (<[0 := last]> heap') 0 else heap' in
      (Some (key min), heap')
  end.

Definition isEmpty (heap : list HeapEntry) : bool :=
  bool_decide (length heap = 0).

(** ** SkiGraph *)

Record Neighbor : Type := {
  nb_target : string;
  nb_edgeId : string;
}.

Record SkiGraph : Type := {
  nodes : gmap string Node;
  edges : list Edge;
  edgesById : gmap string Edge;
  adjacency : gmap string (list Neighbor);
}.

(** One iteration of the adjacency loop: an edge whose source has no
    adjacency entry is passed over. *)
Definition add_neighbor (adj : gmap string (list Neighbor)) (edge : Edge)
    : gmap string (list Neighbor) :=
  match adj !! e_source edge with
  | Some l =>
      <[e_source edge := l ++ [{| nb_target := e_target edge; nb_edgeId := e_id edge |}]]> adj
  | None => adj
  end.

(** [new SkiGraph(graphData)]. *)
Definition new_SkiGraph (graphData : GraphData) : SkiGraph :=
  let edgesById :=
    foldl (fun m edge => <[e_id edge := edge]> m) ∅ (gd_edges graphData) in
  let adjacency0 : gmap string (list Neighbor) := (fun _ => []) <$> gd_nodes graphData in
  let adjacency := foldl add_neighbor adjacency0 (gd_edges graphData) in
  {| nodes := gd_nodes graphData;
     edges := gd_edges graphData;
     edgesById := edgesById;
     adjacency := adjacency |}.

(** *** Weight model *)

(** The two [speeds] tables. *)
Definition slope_speeds (difficulty : string) : option Q :=
  if difficulty =? "green" then Some 200%Q
  else if difficulty =? "blue" then Some 250%Q
  else if difficulty =? "red" then Some 300%Q
  else if difficulty =? "black" then Some 200%Q
  else None.

Definition lift_speeds (liftType : string) : option Q :=
  if liftType =? "drag_lift" then Some 100%Q
  else if liftType =? "chair_lift" then Some 150%Q
  else if liftType =? "gondola" then Some 200%Q
  else if liftType =? "cable_car" then Some 250%Q
  else if liftType =? "magic_carpet" then Some 50%Q
  else None.

(** [excludedColors.has(d)] for a [Set] of strings. *)
Definition has (excludedColors : gset string) (d : option string) : bool :=
  match d with
  | Some c => bool_decide (c ∈ excludedColors)
  | None => false
  end.

(** [calculateWeight(edge, excludedColors)]. *)
Definition calculateWeight (edge : Edge) (excludedColors : gset string) : num :=
  if (e_type edge =? "slope") && has excludedColors (e_difficulty edge) then Inf
  else if e_type edge =? "slope" then
    let speed := default 200%Q (slope_speeds (js_key (e_difficulty edge))) in
    Fin (e_distance edge / speed)
  else if e_type edge =? "lift" then
    let speed := default 150%Q (lift_speeds (js_key (e_liftType edge))) in
    let travelTime := (e_distance edge / speed)%Q in
    let queueTime := 3%Q in
    Fin (travelTime + queueTime)
  else Fin (e_distance edge / 150).

(** *** findRoute *)

(** The local tables of one call: [dist], [prev], [prevEdge], [visited]
    and the queue [pq]. *)
Record Search : Type := {
  dist : gmap string num;
  prev : gmap string string;
  prevEdge : gmap string string;
  visited : gset string;
  pq : list HeapEntry;
}.

(** [alt < d] where [d] was read from [dist] and may be [undefined]
    (the comparison is then false). *)
Definition num_lt (alt : num) (d : option num) : bool :=
  match alt, d with
  | Fin a, Some (Fin b) => Qltb a b
  | Fin _, Some Inf => true
  | _, _ => false
  end.

(** Body of the loop over [this.adjacency[u]]. *)
Definition relax (g : SkiGraph) (excludedColors : gset string) (u : string)
    (st : Search) (neighbor : Neighbor) : result Search :=
  match edgesById g !! nb_edgeId neighbor with
  | None => Throw
  | Some edge =>
      match calculateWeight edge excludedColors with
      | Inf => Ok st
      | Fin w =>
          match dist st !! u with
          | Some (Fin du) =>
              let alt := (du + w)%Q in
              if num_lt (Fin alt) (dist st !! nb_target neighbor) then
                Ok {| dist := <[nb_target neighbor := Fin alt]> (dist st);
                      prev := <[nb_target neighbor := u]> (prev st);
                      prevEdge := <[nb_target neighbor := nb_edgeId neighbor]> (prevEdge st);
                      visited := visited st;
                      pq := insert_pq (pq st) (nb_target neighbor) alt |}
              else Ok st
          | _ => Ok st
          end
      end
  end.

(** Dijkstra's main loop.  [None]: the fuel ran out before the loop was
    left. *)
Fixpoint main_loop (fuel : nat) (g : SkiGraph) (excludedColors : gset string)
    (endNodeId : string) (st : Search) : option (result Search) :=
  match fuel with
  | O => None
  | S fuel' =>
      if isEmpty (pq st) then Some (Ok st)
      else
        match extractMin (pq st) with
        | (None, _) => Some (Ok st)
        | (Some u, pq') =>
            let st := {| dist := dist st; prev := prev st; prevEdge := prevEdge st;
                         visited := visited st; pq := pq' |} in
            if bool_decide (u = endNodeId) then Some (Ok st)
            else if bool_decide (u ∈ visited st) then
              main_loop fuel' g excludedColors endNodeId st
            else
              let st := {| dist := dist st; prev := prev st; prevEdge := prevEdge st;
                           visited := {[u]} ∪ visited st; pq := pq st |} in
              match for_of (relax g excludedColors u)
                           (default [] (adjacency g !! u)) st with
              | Throw => Some Throw
              | Ok st' => main_loop fuel' g excludedColors endNodeId st'
              end
        end
  end.

(** The tables before the main loop. *)
Definition init_search (g : SkiGraph) (startNodeId : string) : Search :=
  {| dist := <[startNodeId := Fin 0]> ((fun _ => Inf) <$> nodes g);
     prev := ∅;
     prevEdge := ∅;
     visited := ∅;
     pq := insert_pq [] startNodeId 0 |}.

(** The path reconstruction loop; [current] may become [undefined]. *)
Fixpoint reconstruct (fuel : nat) (prev prevEdge : gmap string string)
    (startNodeId : string) (current : option string)
    (path edgePath : list (option string))
    : option (list (option string) * list (option string)) :=
  match fuel with
  | O => None
  | S fuel' =>
      if bool_decide (current ≠ Some startNodeId) then
        reconstruct fuel' prev prevEdge startNodeId (prev !! js_key current)
          (current :: path) (prevEdge !! js_key current :: edgePath)
      else Some (Some startNodeId :: path, edgePath)
  end.

Record Step : Type := {
  s_edgeId : string;
  s_name : string;
  s_type : string;
  s_difficulty : option string;
  s_liftType : option string;
  s_distance : Q;
  s_elevationDelta : Q;
  s_estimatedMinutes : num;
  s_geometry : option (list (Q * Q));
  s_sourceNode : string;
  s_targetNode : string;
}.

(** The callback of [edgePath.map]. *)
Definition make_step (g : SkiGraph) (excludedColors : gset string)
    (edgeId : option string) : result Step :=
  match edgesById g !! js_key edgeId with
  | None => Throw
  | Some edge =>
      let weight := calculateWeight edge excludedColors in
      Ok {| s_edgeId := e_id edge;
            s_name := if truthy (e_name edge) then js_key (e_name edge) else "Unnamed";
            s_type := e_type edge;
            s_difficulty := or_null (e_difficulty edge);
            s_liftType := or_null (e_liftType edge);
            s_distance := e_distance edge;
            s_elevationDelta := e_elevationDelta edge;
            s_estimatedMinutes := round1 weight;
            s_geometry := e_geometry edge;
            s_sourceNode := e_source edge;
            s_targetNode := e_target edge |}
  end.

(** The four running totals. *)
Record Totals : Type := {
  t_distance : Q;
  t_time : num;
  t_up : Q;
  t_down : Q;
}.

Definition add_step (t : Totals) (step : Step) : Totals :=
  {| t_distance := t_distance t + s_distance step;
     t_time := num_add (t_time t) (s_estimatedMinutes step);
     t_up := if Qltb 0 (s_elevationDelta step)
             then t_up t + s_elevationDelta step else t_up t;
     t_down := if Qltb 0 (s_elevationDelta step)
               then t_down t else t_down t + Math_abs (s_elevationDelta step) |}.

Definition totals (steps : list Step) : Totals :=
  foldl add_step {| t_distance := 0; t_time := Fin 0; t_up := 0; t_down := 0 |} steps.

Record ProfilePoint : Type := {
  p_distance : Q;
  p_elevation : Q;
  p_nodeId : option string;
  p_isNode : bool;
  p_type : option string;
  p_difficulty : option string;
}.

(** The points pushed by the loop over [g = 1 .. geomLen - 2]. *)
Definition interior_points (cumulativeDistance : Q) (step : Step)
    (sourceEle targetEle : Q) (geomLen : nat) : list ProfilePoint :=
  map (fun g : nat =>
         let frac := (inject_Z (Z.of_nat g) / inject_Z (Z.of_nat (geomLen - 1)))%Q in
         let segDist := (s_distance step * frac)%Q in
         let interpEle := (sourceEle + (targetEle - sourceEle) * frac)%Q in
         {| p_distance := cumulativeDistance + segDist;
            p_elevation := Math_round interpEle;
            p_nodeId := None;
            p_isNode := false;
            p_type := Some (s_type step);
            p_difficulty := s_difficulty step |})
      (seq 1 (geomLen - 2)).

(** One iteration of the loop over [steps]. *)
Definition profile_step (g : SkiGraph) (acc : list ProfilePoint * Q) (step : Step)
    : result (list ProfilePoint * Q) :=
  let '(points, cumulativeDistance) := acc in
  let targetNode := nodes g !! s_targetNode step in
  interior <-
    match s_geometry step with
    | Some geometry =>
        if bool_decide (2 < length geometry) then
          match nodes g !! s_sourceNode step, targetNode with
          | Some sourceNode, Some targetNode =>
              Ok (interior_points cumulativeDistance step
                    (ele sourceNode) (ele targetNode) (length geometry))
          | _, _ => Throw
          end
        else Ok []
    | None => Ok []
    end ;;
  let cumulativeDistance := (cumulativeDistance + s_distance step)%Q in
  match targetNode with
  | None => Throw
  | Some targetNode =>
      Ok (points ++ interior ++
            [{| p_distance := cumulativeDistance;
                p_elevation := ele targetNode;
                p_nodeId := Some (s_targetNode step);
                p_isNode := true;
                p_type := Some (s_type step);
                p_difficulty := s_difficulty step |}],
          cumulativeDistance)
  end.

(** [_buildElevationProfile(path, steps)]. *)
Definition _buildElevationProfile (g : SkiGraph) (path : list (option string))
    (steps : list Step) : result (list ProfilePoint) :=
  let path0 := mjoin (head path) in
  match nodes g !! js_key path0 with
  | None => Throw
  | Some firstNode =>
      let points := [{| p_distance := 0;
                        p_elevation := ele firstNode;
                        p_nodeId := path0;
                        p_isNode := true;
                        p_type := None;
                        p_difficulty := None |}] in
      acc <- for_of (profile_step g) steps (points, 0%Q) ;;
      Ok acc.1
  end.

Record Summary : Type := {
  totalDistance : Q;
  totalTime : num;
  totalUp : Q;
  totalDown : Q;
  stepCount : nat;
}.

Record Route : Type := {
  path : list (option string);
  steps : list Step;
  elevationProfile : list ProfilePoint;
  summary : Summary;
}.

Inductive RouteError : Type := same_location | no_route.

(** What a call of [findRoute] ends with: the object it returns or an
    exception. *)
Inductive Outcome : Type :=
  | Error (error : RouteError)
  | Found (route : Route)
  | Threw.

(** Everything after the path reconstruction. *)
Definition build_route (g : SkiGraph) (excludedColors : gset string)
    (path edgePath : list (option string)) : Outcome :=
  match map_throw (make_step g excludedColors) edgePath with
  | Throw => Threw
  | Ok steps =>
      let t := totals steps in
      match _buildElevationProfile g path steps with
      | Throw => Threw
      | Ok elevationProfile =>
          Found {| path := path;
                   steps := steps;
                   elevationProfile := elevationProfile;
                   summary := {| totalDistance := Math_round (t_distance t);
                                 totalTime := num_round (t_time t);
                                 totalUp := Math_round (t_up t);
                                 totalDown := Math_round (t_down t);
                                 stepCount := length steps |} |}
      end
  end.

(** [findRoute(startNodeId, endNodeId, excludedColors)] run for at most
    [fuel] iterations of each of its two [while] loops. *)
Definition findRoute (fuel : nat) (g : SkiGraph) (startNodeId endNodeId : string)
    (excludedColors : gset string) : option Outcome :=
  if bool_decide (startNodeId = endNodeId) then Some (Error same_location)
  else
    match main_loop fuel g excludedColors endNodeId (init_search g startNodeId) with
    | None => None
    | Some Throw => Some Threw
    | Some (Ok st) =>
        match dist st !! endNodeId with
        | Some Inf => Some (Error no_route)
        | _ =>
            match reconstruct fuel (prev st) (prevEdge st) startNodeId
                              (Some endNodeId) [] [] with
            | None => None
            | Some (path, edgePath) =>
                Some (build_route g excludedColors path edgePath)
            end
        end
    end.

(** The call returns [o]. *)
Definition returns (g : SkiGraph) (startNodeId endNodeId : string)
    (excludedColors : gset string) (o : Outcome) : Prop :=
  exists fuel, findRoute fuel g startNodeId endNodeId excludedColors = Some o.

(** The call never comes back. *)
Definition diverges (g : SkiGraph) (startNodeId endNodeId : string)
    (excludedColors : gset string) : Prop :=
  forall fuel, findRoute fuel g startNodeId endNodeId excludedColors = None.

(** *** getSelectableLocations *)

(** The template a label is rendered from: [`${name} (${ele}m)`],
    [`${name} - top (${ele}m)`] or [`${name} - bottom (${ele}m)`]. *)
Inductive Label : Type :=
  | StationLabel (name : string) (ele : Q)
  | TopLabel (name : string) (ele : Q)
  | BottomLabel (name : string) (ele : Q).

Record Location : Type := {
  l_nodeId : string;
  l_label : Label;
  l_name : string;
  l_ele : Q;
}.

Record Locations : Type := {
  stations : list Location;
  slopeTops : list Location;
  slopeBottoms : list Location;
  liftTops : list Location;
  liftBottoms : list Location;
}.

(** One of the four guarded pushes of the loop over the edges: the key is
    recorded and an entry appended unless the key was seen before or the
    edge has no name; reading [.ele] of a missing node throws. *)
Definition push_once (seen : gset string) (out : list Location) (nodeKey : string)
    (edge : Edge) (node : option Node) (label : string -> Q -> Label)
    : result (gset string * list Location) :=
  if negb (bool_decide (nodeKey ∈ seen)) && truthy (e_name edge) then
    match node with
    | None => Throw
    | Some n =>
        Ok ({[nodeKey]} ∪ seen,
            out ++ [{| l_nodeId := nodeKey;
                       l_label := label (js_key (e_name edge)) (ele n);
                       l_name := js_key (e_name edge);
                       l_ele := ele n |}])
    end
  else Ok (seen, out).

(** The four [seen] sets and the four lists under construction. *)
Record Seen : Type := {
  seenSlopeTops : gset string;
  seenSlopeBottoms : gset string;
  seenLiftTops : gset string;
  seenLiftBottoms : gset string;
  outSlopeTops : list Location;
  outSlopeBottoms : list Location;
  outLiftTops : list Location;
  outLiftBottoms : list Location;
}.

(** Body of the loop over [this.edges]. *)
Definition visit_edge (g : SkiGraph) (s : Seen) (edge : Edge) : result Seen :=
  let sourceNode := nodes g !! e_source edge in
  let targetNode := nodes g !! e_target edge in
  s <-
    (if e_type edge =? "slope" then
       let topKey := e_source edge in
       let bottomKey := e_target edge in
       tops <- push_once (seenSlopeTops s) (outSlopeTops s) topKey edge sourceNode TopLabel ;;
       bottoms <- push_once (seenSlopeBottoms s) (outSlopeBottoms s) bottomKey edge
                    targetNode BottomLabel ;;
       Ok {| seenSlopeTops := tops.1; seenSlopeBottoms := bottoms.1;
             seenLiftTops := seenLiftTops s; seenLiftBottoms := seenLiftBottoms s;
             outSlopeTops := tops.2; outSlopeBottoms := bottoms.2;
             outLiftTops := outLiftTops s; outLiftBottoms := outLiftBottoms s |}
     else Ok s) ;;
  if e_type edge =? "lift" then
    let bottomKey := e_source edge in
    let topKey := e_target edge in
    bottoms <- push_once (seenLiftBottoms s) (outLiftBottoms s) bottomKey edge
                 sourceNode BottomLabel ;;
    tops <- push_once (seenLiftTops s) (outLiftTops s) topKey edge targetNode TopLabel ;;
    Ok {| seenSlopeTops := seenSlopeTops s; seenSlopeBottoms := seenSlopeBottoms s;
          seenLiftTops := tops.1; seenLiftBottoms := bottoms.1;
          outSlopeTops := outSlopeTops s; outSlopeBottoms := outSlopeBottoms s;
          outLiftTops := tops.2; outLiftBottoms := bottoms.2 |}
  else Ok s.

Section Locations.

(** [String.prototype.localeCompare] depends on the host's collation; it
    is a parameter of the model.  [Array.prototype.sort] is stable; for a
    comparison that is a total preorder its result is the one of the
    stable insertion sort below. *)
Variable localeCompare : string -> string -> Z.

(** The comparison function [byName]. *)
Definition byName (a b : Location) : Z :=
  localeCompare (l_name a) (l_name b).

Fixpoint insert_byName (x : Location) (l : list Location) : list Location :=
  match l with
  | [] => [x]
  | y :: l' => if (byName x y <=? 0)%Z then x :: y :: l' else y :: insert_byName x l'
  end.

Definition sort_byName (l : list Location) : list Location :=
  foldr insert_byName [] l.

(** The station entries in the enumeration order of [this.nodes]. *)
Definition station_entries (g : SkiGraph) : list Location :=
  omap (fun '(nodeId, node) =>
          if truthy (station node) then
            Some {| l_nodeId := nodeId;
                    l_label := StationLabel (js_key (station node)) (ele node);
                    l_name := js_key (station node);
                    l_ele := ele node |}
          else None)
       (map_to_list (nodes g)).

Definition getSelectableLocations (g : SkiGraph) : result Locations :=
  let stations := sort_byName (station_entries g) in
  s <- for_of (visit_edge g) (edges g)
         {| seenSlopeTops := ∅; seenSlopeBottoms := ∅;
            seenLiftTops := ∅; seenLiftBottoms := ∅;
            outSlopeTops := []; outSlopeBottoms := [];
            outLiftTops := []; outLiftBottoms := [] |} ;;
  Ok {| stations := stations;
        slopeTops := sort_byName (outSlopeTops s);
        slopeBottoms := sort_byName (outSlopeBottoms s);
        liftTops := sort_byName (outLiftTops s);
        liftBottoms := sort_byName (outLiftBottoms s) |}.

End Locations.

(** ** The user interface ([app/js/ui.js] and [app/js/app.js])

    The page is the state the code reads and writes through the DOM: the
    two dropdowns with their options, the two buttons, the class lists of
    the three panels, the text of the error panel and the four filter
    checkboxes.  An element's [classList] is a set of class names. *)

(** The text of an [option]: a literal, or a label of the location
    index. *)
Inductive OptionText : Type :=
  | Literal (s : string)
  | Rendered (l : Label).

Record OptionElement : Type := {
  o_value : string;
  o_textContent : OptionText;
  o_disabled : bool;
  o_selected : bool;
}.

Record OptGroupElement : Type := {
  og_label : string;
  og_children : list OptionElement;
}.

Inductive SelectChild : Type :=
  | ChildOption (o : OptionElement)
  | ChildOptGroup (og : OptGroupElement).

Record SelectElement : Type := {
  sel_children : list SelectChild;
  sel_disabled : bool;
}.

(** The options of a [select], in tree order. *)
Definition sel_options (select : SelectElement) : list OptionElement :=
  c ← sel_children select;
  match c with
  | ChildOption o => [o]
  | ChildOptGroup og => og_children og
  end.

(** [select.value]: the value of the first selected option, or the empty
    string. *)
Definition sel_value (select : SelectElement) : string :=
  match filter (fun o => o_selected o = true) (sel_options select) with
  | o :: _ => o_value o
  | [] => ""
  end.

Record SkiUI : Type := {
  startSelect : SelectElement;
  endSelect : SelectElement;
  swapBtn_disabled : bool;
  findRouteBtn_disabled : bool;
  loading : gset string;
  errorMessage : gset string;
  errorMessage_textContent : string;
  routeResults : gset string;
  filterGreen : bool;
  filterBlue : bool;
  filterRed : bool;
  filterBlack : bool;
}.

(** [document.createElement('option')] with [value] and [textContent]
    set. *)
Definition option_of (item : Location) : OptionElement :=
  {| o_value := l_nodeId item;
     o_textContent := Rendered (l_label item);
     o_disabled := false;
     o_selected := false |}.

Definition placeholder : OptionElement :=
  {| o_value := "";
     o_textContent := Literal "Select location...";
     o_disabled := true;
     o_selected := true |}.

(** The array [groups] of [populateDropdowns]. *)
Definition groups (locations : Locations) : list (string * list Location) :=
  [("Stations", stations locations);
   ("Lift Bottoms", liftBottoms locations);
   ("Lift Tops", liftTops locations);
   ("Slope Tops", slopeTops locations);
   ("Slope Bottoms", slopeBottoms locations)].

(** The body of the loop over the two dropdowns: the dropdown is emptied,
    given the placeholder and one [optgroup] for every group that has
    items, and enabled. *)
Definition populate (groups : list (string * list Location)) (select : SelectElement)
    : SelectElement :=
  let children := [ChildOption placeholder] in
  let children :=
    foldl (fun children group =>
             if bool_decide (length group.2 = 0) then children
             else children ++
                    [ChildOptGroup {| og_label := group.1;
                                      og_children := option_of <$> group.2 |}])
          children groups in
  {| sel_children := children; sel_disabled := false |}.

(** [populateDropdowns(locations)]. *)
Definition populateDropdowns (ui : SkiUI) (locations : Locations) : SkiUI :=
  let groups := groups locations in
  {| startSelect := populate groups (startSelect ui);
     endSelect := populate groups (endSelect ui);
     swapBtn_disabled := false;
     findRouteBtn_disabled := false;
     loading := loading ui;
     errorMessage := errorMessage ui;
     errorMessage_textContent := errorMessage_textContent ui;
     routeResults := routeResults ui;
     filterGreen := filterGreen ui;
     filterBlue := filterBlue ui;
     filterRed := filterRed ui;
     filterBlack := filterBlack ui |}.

(** [getExcludedColors()]: the colours whose checkbox is not checked. *)
Definition getExcludedColors (ui : SkiUI) : gset string :=
  let excluded : gset string := ∅ in
  let excluded := if negb (filterGreen ui) then {["green"]} ∪ excluded else excluded in
  let excluded := if negb (filterBlue ui) then {["blue"]} ∪ excluded else excluded in
  let excluded := if negb (filterRed ui) then {["red"]} ∪ excluded else excluded in
  let excluded := if negb (filterBlack ui) then {["black"]} ∪ excluded else excluded in
  excluded.

(** [getLiftTypeName(liftType)]; the lift type of a step is a string or
    [null]. *)
Definition getLiftTypeName (liftType : option string) : string :=
  match liftType with
  | Some t =>
      if t =? "gondola" then "gondola"
      else if t =? "cable_car" then "cable car"
      else if t =? "chair_lift" then "chairlift"
      else if t =? "drag_lift" then "drag lift"
      else if t =? "magic_carpet" then "carpet"
      else "lift"
  | None => "lift"
  end.

(** The page with other class lists for the three panels and another
    text in the error panel. *)
Definition with_panels (ui : SkiUI) (loading' errorMessage' : gset string)
    (text : string) (routeResults' : gset string) : SkiUI :=
  {| startSelect := startSelect ui;
     endSelect := endSelect ui;
     swapBtn_disabled := swapBtn_disabled ui;
     findRouteBtn_disabled := findRouteBtn_disabled ui;
     loading := loading';
     errorMessage := errorMessage';
     errorMessage_textContent := text;
     routeResults := routeResults';
     filterGreen := filterGreen ui;
     filterBlue := filterBlue ui;
     filterRed := filterRed ui;
     filterBlack := filterBlack ui |}.

(** [showLoading()]. *)
Definition showLoading (ui : SkiUI) : SkiUI :=
  with_panels ui (loading ui ∖ {["hidden"]}) ({["hidden"]} ∪ errorMessage ui)
    (errorMessage_textContent ui) ({["hidden"]} ∪ routeResults ui).

(** [hideLoading()]. *)
Definition hideLoading (ui : SkiUI) : SkiUI :=
  with_panels ui ({["hidden"]} ∪ loading ui) (errorMessage ui)
    (errorMessage_textContent ui) (routeResults ui).

(** [showError(message)]. *)
Definition showError (ui : SkiUI) (message : string) : SkiUI :=
  let ui := hideLoading ui in
  with_panels ui (loading ui) (errorMessage ui ∖ {["hidden"]}) message
    ({["hidden"]} ∪ routeResults ui).

Section App.

Variable localeCompare : string -> string -> Z.

(** [renderRoute] fills the result panel and draws the chart through the
    DOM and the canvas; the controller depends on it only through the page
    it leaves behind and on whether it returned ([true]) or threw. *)
Variable renderRoute : SkiUI -> Route -> SkiGraph -> SkiUI * bool.

(** The [try] block of [init], for the graph data the request produced
    ([None]: the request failed, the status was not ok, or the body could
    not be parsed).  It yields the value of the variable [graph] and the
    page.  The graph is assigned before the dropdowns are filled, so it
    stays assigned when [getSelectableLocations] throws. *)
Definition init (response : option GraphData) (ui : SkiUI) : option SkiGraph * SkiUI :=
  match response with
  | None => (None, showError ui "Failed to load ski area data. Please refresh the page.")
  | Some graphData =>
      let graph := new_SkiGraph graphData in
      match getSelectableLocations localeCompare graph with
      | Ok locations => (Some graph, populateDropdowns ui locations)
      | Throw =>
          (Some graph, showError ui "Failed to load ski area data. Please refresh the page.")
      end
  end.

(** What [handleFindRoute] has done when it returns: it is finished, or
    it has set the timer for a search. *)
Inductive Handled : Type :=
  | Finished (ui : SkiUI)
  | Scheduled (ui : SkiUI) (graph : SkiGraph) (startId endId : string)
      (excludedColors : gset string).

(** [handleFindRoute()] up to the call of [setTimeout]. *)
Definition handleFindRoute (graph : option SkiGraph) (ui : SkiUI) : Handled :=
  match graph with
  | None => Finished ui
  | Some graph =>
      let startId := sel_value (startSelect ui) in
      let endId := sel_value (endSelect ui) in
      if startId =? "" then Finished (showError ui "Please select a starting point.")
      else if endId =? "" then Finished (showError ui "Please select a destination.")
      else
        let excludedColors := getExcludedColors ui in
        Scheduled (showLoading ui) graph startId endId excludedColors
  end.

(** The timer callback, once [graph.findRoute] has ended with [o].
    ([findRoute] returns no falsy value, so the branch for [!route] is
    never taken.) *)
Definition on_timeout (graph : SkiGraph) (o : Outcome) (ui : SkiUI) : SkiUI :=
  match o with
  | Threw => showError ui "Failed to calculate route. Please try different points."
  | Error same_location =>
      showError ui "Start and end are the same location. Please select different points."
  | Error no_route =>
      showError ui
        "No route found with current slope filters. Try enabling more slope colors."
  | Found route =>
      let '(ui', returned) := renderRoute ui route graph in
      if returned then ui'
      else showError ui' "Failed to calculate route. Please try different points."
  end.

End App.

(** ** Notions the properties are stated with *)

(** Equality of numbers up to the representation of a rational. *)
Definition num_eq (a b : num) : Prop :=
  match a, b with
  | Fin x, Fin y => (x == y)%Q
  | Inf, Inf => True
  | _, _ => False
  end.

(** The data-model invariant on edge identifiers. *)
Definition unique_edge_ids (graphData : GraphData) : Prop :=
  NoDup (e_id <$> gd_edges graphData).

(** Every edge joins two keys of the node map (data-model invariant). *)
Definition edges_in_nodes (graphData : GraphData) : Prop :=
  Forall (fun edge => is_Some (gd_nodes graphData !! e_source edge) /\
                      is_Some (gd_nodes graphData !! e_target edge))
         (gd_edges graphData).

(** The data-model invariant on distances. *)
Definition nonneg_distances (graphData : GraphData) : Prop :=
  Forall (fun edge => (0 <= e_distance edge)%Q) (gd_edges graphData).

(** A graph in the sense of the data model: edges have unique
    identifiers, their source and target ids exist in the node map, and
    their distances are not negative. *)
Definition valid_graph (graphData : GraphData) : Prop :=
  unique_edge_ids graphData /\ edges_in_nodes graphData /\ nonneg_distances graphData.

(** Input the data model rules out: an edge with an end point that is no
    key of the node map, or with a negative distance. *)
Definition malformed (graphData : GraphData) : Prop :=
  exists edge, edge ∈ gd_edges graphData /\
    (gd_nodes graphData !! e_source edge = None \/
     gd_nodes graphData !! e_target edge = None \/
     (e_distance edge < 0)%Q).

(** What a caller of the constructor gets.  The constructor contains no
    [throw] and no access that could raise, so the second case is never
    produced; it is there to state what the specification promises. *)
Inductive BuildOutcome : Type :=
  | Built (g : SkiGraph)
  | MalformedDataError.

Definition buildGraph (graphData : GraphData) : BuildOutcome :=
  Built (new_SkiGraph graphData).

(** The adjacency entries of the edges leaving [k], in input order. *)
Definition out_neighbors (es : list Edge) (k : string) : list Neighbor :=
  (fun edge => {| nb_target := e_target edge; nb_edgeId := e_id edge |})
    <$> filter (fun edge => e_source edge = k) es.

(** The step distances added up the way the loops do it. *)
Definition sum_distances (steps : list Step) : Q :=
  foldl (fun acc step => (acc + s_distance step)%Q) 0%Q steps.

(** The distance values of a profile. *)
Definition distances (profile : list ProfilePoint) : list Q :=
  p_distance <$> profile.

(** The node ids of a list of locations. *)
Definition nodeIds (l : list Location) : list string := l_nodeId <$> l.

(** The cost of an edge under the exclusions is finite and equal to [w]. *)
Definition finite_cost (excludedColors : gset string) (edge : Edge) (w : Q) : Prop :=
  calculateWeight edge excludedColors = Fin w.

(** A directed path in the input: [es] is a sequence of edges of the graph,
    each of finite cost, leading from [a] to [b]. *)
Inductive edge_path (graphData : GraphData) (excludedColors : gset string)
    : string -> string -> list Edge -> Prop :=
  | edge_path_nil a : edge_path graphData excludedColors a a []
  | edge_path_cons a b edge w es :
      edge ∈ gd_edges graphData ->
      e_source edge = a ->
      finite_cost excludedColors edge w ->
      edge_path graphData excludedColors (e_target edge) b es ->
      edge_path graphData excludedColors a b (edge :: es).

(** The cost of an edge as a rational (0 for an impassable one). *)
Definition cost_of (excludedColors : gset string) (edge : Edge) : Q :=
  match calculateWeight edge excludedColors with
  | Fin w => w
  | Inf => 0
  end.

(** The sum of the weight-model costs of a sequence of edges. *)
Definition path_cost (excludedColors : gset string) (es : list Edge) : Q :=
  foldr (fun edge acc => (cost_of excludedColors edge + acc)%Q) 0%Q es.

(** The edges a route traverses: those its steps name. *)
Definition traversed (g : SkiGraph) (route : Route) : list Edge :=
  omap (fun step => edgesById g !! s_edgeId step) (steps route).

(** Every step joins the node before it to the node after it in the path,
    along an edge of the graph with these end points and this id, whose
    cost under the exclusions is finite. *)
Definition connects (graphData : GraphData) (excludedColors : gset string)
    (path0 : list (option string)) (steps0 : list Step) : Prop :=
  length path0 = S (length steps0) /\
  forall i step, steps0 !! i = Some step ->
    path0 !! i = Some (Some (s_sourceNode step)) /\
    path0 !! S i = Some (Some (s_targetNode step)) /\
    exists edge w,
      edge ∈ gd_edges graphData /\
      e_id edge = s_edgeId step /\
      e_source edge = s_sourceNode step /\
      e_target edge = s_targetNode step /\
      calculateWeight edge excludedColors = Fin w.

(** *** Notions for the location index *)

(** What ties a [seen] set to the list it guards: the list holds no node
    id twice, and every node id it holds was recorded. *)
Definition guarded (seen : gset string) (out : list Location) : Prop :=
  NoDup (nodeIds out) /\ forall k, k ∈ nodeIds out -> k ∈ seen.

Definition Seen_guarded (s : Seen) : Prop :=
  guarded (seenSlopeTops s) (outSlopeTops s) /\
  guarded (seenSlopeBottoms s) (outSlopeBottoms s) /\
  guarded (seenLiftTops s) (outLiftTops s) /\
  guarded (seenLiftBottoms s) (outLiftBottoms s).

(** *** Notions for the heap *)

(** The transposition of two indices. *)
Definition transpose (a b j : nat) : nat :=
  if decide (j = a) then b else if decide (j = b) then a else j.

(** [heap[a].priority <= heap[b].priority], when both entries exist. *)
Definition heap_le (heap : list HeapEntry) (a b : nat) : Prop :=
  forall x y, heap !! a = Some x -> heap !! b = Some y ->
    (priority x <= priority y)%Q.

(** The heap order: no entry is below its parent. *)
Definition heap_ok (heap : list HeapEntry) : Prop :=
  forall j, 0 < j -> heap_le heap ((j - 1) / 2) j.

(** The heap order with a hole at [i], as [_bubbleUp(i)] meets it: the
    entry at [i] may be below its parent, and the children of [i] are not
    below the parent of [i]. *)
Definition up_inv (heap : list HeapEntry) (i : nat) : Prop :=
  (forall j, 0 < j -> j <> i -> heap_le heap ((j - 1) / 2) j) /\
  (forall c, 0 < c -> 0 < i -> (c - 1) / 2 = i -> heap_le heap ((i - 1) / 2) c).

(** The heap order with a hole at [i], as [_sinkDown(i)] meets it: the
    children of [i] may be below it, but not below the parent of [i]. *)
Definition down_inv (heap : list HeapEntry) (i : nat) : Prop :=
  (forall j, 0 < j -> (j - 1) / 2 <> i -> heap_le heap ((j - 1) / 2) j) /\
  (forall c, 0 < c -> 0 < i -> (c - 1) / 2 = i -> heap_le heap ((i - 1) / 2) c).

(** The index [_sinkDown] picks among [i] and its two children. *)
Definition smallest_of (heap : list HeapEntry) (i : nat) : nat :=
  let n := length heap in
  let left := 2 * i + 1 in
  let right := 2 * i + 2 in
  let smallest := i in
  let smallest := if bool_decide (left < n) && below heap left smallest
                  then left else smallest in
  if bool_decide (right < n) && below heap right smallest then right else smallest.

(** *** Notions for the search *)

(** The nodes [dist] has an entry for: the keys of the node map and the
    start. *)
Definition known (g : SkiGraph) (s v : string) : Prop :=
  v = s \/ is_Some (nodes g !! v).

(** An arc as the main loop sees it: an entry [nb] of [adjacency[u]] whose
    edge, looked up by id, has the finite weight [w], and whose target has
    a [dist] entry. *)
Definition arc (g : SkiGraph) (excludedColors : gset string) (s u : string)
    (nb : Neighbor) (w : Q) : Prop :=
  exists l edge,
    adjacency g !! u = Some l /\ nb ∈ l /\
    edgesById g !! nb_edgeId nb = Some edge /\
    calculateWeight edge excludedColors = Fin w /\
    known g s (nb_target nb).

(** A sequence of arcs from the start [s], with its accumulated cost. *)
Inductive walk (g : SkiGraph) (excludedColors : gset string) (s : string)
    : string -> Q -> Prop :=
  | walk_start : walk g excludedColors s s 0
  | walk_arc u nb w c :
      walk g excludedColors s u c ->
      arc g excludedColors s u nb w ->
      walk g excludedColors s (nb_target nb) (c + w).

(** The predecessor links of [st] lead from [v] back to the start through
    visited nodes: [p] lists the nodes from the start to [v], [ep] the edge
    ids between them, and [c] is the accumulated cost. *)
Inductive chain (g : SkiGraph) (excludedColors : gset string) (s : string)
    (st : Search) : string -> list string -> list string -> Q -> Prop :=
  | chain_start : chain g excludedColors s st s [s] [] 0
  | chain_step v u nb w p ep c :
      v <> s ->
      prev st !! v = Some u ->
      prevEdge st !! v = Some (nb_edgeId nb) ->
      nb_target nb = v ->
      arc g excludedColors s u nb w ->
      u ∈ visited st ->
      dist st !! u = Some (Fin c) ->
      chain g excludedColors s st u p ep c ->
      chain g excludedColors s st v (p ++ [v]) (ep ++ [nb_edgeId nb]) (c + w).

(** The invariant of the main loop.  [cur] is the node being expanded and
    [pending] the entries of its adjacency list not yet relaxed; between
    two iterations [pending] is empty. *)
Record Inv (g : SkiGraph) (excludedColors : gset string) (s t : string)
    (st : Search) (cur : string) (pending : list Neighbor) : Prop := {
  inv_dom : forall v, is_Some (dist st !! v) <-> known g s v;
  inv_chain : forall v d, dist st !! v = Some (Fin d) ->
    exists p ep, chain g excludedColors s st v p ep d;
  inv_optimal : forall u, u ∈ visited st ->
    exists du, dist st !! u = Some (Fin du) /\
      forall c, walk g excludedColors s u c -> (du <= c)%Q;
  inv_relaxed : forall x nb w, x ∈ visited st -> arc g excludedColors s x nb w ->
    (x = cur /\ nb ∈ pending) \/
    exists dx dv, dist st !! x = Some (Fin dx) /\
      dist st !! nb_target nb = Some (Fin dv) /\ (dv <= dx + w)%Q;
  inv_heap_ok : heap_ok (pq st);
  inv_cover : forall v d, dist st !! v = Some (Fin d) -> v ∉ visited st ->
    exists x, x ∈ pq st /\ key x = v /\ priority x = d;
  inv_sound : forall x, x ∈ pq st ->
    exists d, dist st !! key x = Some (Fin d) /\ (d <= priority x)%Q;
  inv_first : s ∈ visited st \/
    (visited st = ∅ /\ forall v d, dist st !! v = Some (Fin d) -> v = s /\ d = 0%Q);
  inv_end : t ∉ visited st;
  inv_start : exists d, dist st !! s = Some (Fin d);
}.

(** What the main loop leaves behind. *)
Record Post (g : SkiGraph) (excludedColors : gset string) (s t : string)
    (st : Search) : Prop := {
  post_dom : forall v, is_Some (dist st !! v) <-> known g s v;
  post_chain : forall v d, dist st !! v = Some (Fin d) ->
    exists p ep, chain g excludedColors s st v p ep d;
  post_optimal : forall d, dist st !! t = Some (Fin d) ->
    forall c, walk g excludedColors s t c -> (d <= c)%Q;
  post_complete : forall c, walk g excludedColors s t c ->
    exists d, dist st !! t = Some (Fin d);
}.

(** The number of iterations the main loop can still make is bounded by
    the entries waiting in the queue plus the edges leaving nodes that
    were not expanded yet. *)
Definition potential (g : SkiGraph) (st : Search) : nat :=
  length (pq st) + length (filter (fun edge => e_source edge ∉ visited st) (edges g)).

(** A search state with another queue, and with one more visited node. *)
Definition with_pq (st : Search) (pq' : list HeapEntry) : Search :=
  {| dist := dist st; prev := prev st; prevEdge := prevEdge st;
     visited := visited st; pq := pq' |}.

Definition with_visited (st : Search) (u : string) : Search :=
  {| dist := dist st; prev := prev st; prevEdge := prevEdge st;
     visited := {[u]} ∪ visited st; pq := pq st |}.

(** The predecessor links lead from [v] back to the start: [p] lists the
    nodes from the start to [v] and [ep] the edge ids between them.
    Unlike [chain] this says nothing on costs or visited nodes, and it
    holds whatever the weights are. *)
Inductive links (g : SkiGraph) (excludedColors : gset string) (s : string)
    (prev0 prevEdge0 : gmap string string)
    : string -> list string -> list string -> Prop :=
  | links_start : links g excludedColors s prev0 prevEdge0 s [s] []
  | links_step v u nb w p ep :
      v <> s ->
      prev0 !! v = Some u ->
      prevEdge0 !! v = Some (nb_edgeId nb) ->
      nb_target nb = v ->
      arc g excludedColors s u nb w ->
      links g excludedColors s prev0 prevEdge0 u p ep ->
      links g excludedColors s prev0 prevEdge0 v (p ++ [v]) (ep ++ [nb_edgeId nb]).

(** What the tables of the search satisfy whatever the weights are: a
    predecessor is recorded together with the arc that was relaxed and has
    a finite distance itself, and every node at a finite distance is the
    start or has a predecessor. *)
Record Linked (g : SkiGraph) (excludedColors : gset string) (s : string)
    (st : Search) : Prop := {
  linked_dom : forall v, is_Some (dist st !! v) <-> known g s v;
  linked_prev : forall v u, prev st !! v = Some u ->
    exists nb w, prevEdge st !! v = Some (nb_edgeId nb) /\ nb_target nb = v /\
      arc g excludedColors s u nb w /\ exists du, dist st !! u = Some (Fin du);
  linked_dist : forall v d, dist st !! v = Some (Fin d) ->
    v = s \/ is_Some (prev st !! v);
}.

(** *** Notions for the summary *)

(** The climb of a list of steps: the sum of the elevation changes that
    are positive. *)
Definition climb (steps : list Step) : Q :=
  foldr (fun step acc =>
           if Qlt_le_dec 0 (s_elevationDelta step)
           then (s_elevationDelta step + acc)%Q else acc)
        0%Q steps.

(** Their descent: the sum of the other elevation changes, each counted
    as a positive amount. *)
Definition descent (steps : list Step) : Q :=
  foldr (fun step acc =>
           if Qlt_le_dec 0 (s_elevationDelta step)
           then acc else (- s_elevationDelta step + acc)%Q)
        0%Q steps.

(** *** Notions for the samples of the elevation profile *)

(** The number of points the profile takes inside a step: the points of
    its geometry other than the first and the last, when it has more than
    two. *)
Definition interior_count (step : Step) : nat :=
  match s_geometry step with
  | Some geometry => if bool_decide (2 < length geometry) then length geometry - 2 else 0
  | None => 0
  end.

(** The samples of a profile taken at nodes. *)
Definition node_samples (profile : list ProfilePoint) : list ProfilePoint :=
  filter (fun p => p_isNode p = true) profile.

(** A sample taken inside [step]: it is tagged with the type and the
    difficulty of the step, and its elevation lies between the rounded
    elevations of the end points of the step. *)
Definition inside_step (g : SkiGraph) (step : Step) (p : ProfilePoint) : Prop :=
  p_nodeId p = None /\
  p_type p = Some (s_type step) /\
  p_difficulty p = s_difficulty step /\
  exists sourceNode targetNode,
    nodes g !! s_sourceNode step = Some sourceNode /\
    nodes g !! s_targetNode step = Some targetNode /\
    ((ele sourceNode <= ele targetNode ->
        Math_round (ele sourceNode) <= p_elevation p <= Math_round (ele targetNode)) /\
     (ele targetNode <= ele sourceNode ->
        Math_round (ele targetNode) <= p_elevation p <= Math_round (ele sourceNode)))%Q.

(** *** Notions for the content of the location index *)

(** [edge] gives the node [k] a place in the list fed by the edges of type
    [type] through their end point [nodeKey]: it has that type, a name, and
    [k] as that end point. *)
Definition lists (type : string) (nodeKey : Edge -> string) (k : string) (edge : Edge)
    : Prop :=
  e_type edge = type /\ truthy (e_name edge) = true /\ nodeKey edge = k.

(** [loc] is the entry made for its node by the first edge of [es] that
    lists the node: it carries the name of that edge, the elevation of the
    node, and the label rendered from the two. *)
Definition entry_of (g : SkiGraph) (type : string) (nodeKey : Edge -> string)
    (label : string -> Q -> Label) (es : list Edge) (loc : Location) : Prop :=
  exists i edge n,
    es !! i = Some edge /\ lists type nodeKey (l_nodeId loc) edge /\
    (forall j e', j < i -> es !! j = Some e' -> ~ lists type nodeKey (l_nodeId loc) e') /\
    nodes g !! l_nodeId loc = Some n /\
    l_name loc = js_key (e_name edge) /\
    l_ele loc = ele n /\
    l_label loc = label (js_key (e_name edge)) (ele n).

(** One list of the index after the edges [es] were visited. *)
Definition Idx (g : SkiGraph) (type : string) (nodeKey : Edge -> string)
    (label : string -> Q -> Label) (es : list Edge)
    (seen : gset string) (out : list Location) : Prop :=
  (forall k, k ∈ seen <-> k ∈ nodeIds out) /\
  (forall k, k ∈ nodeIds out <-> exists edge, edge ∈ es /\ lists type nodeKey k edge) /\
  Forall (entry_of g type nodeKey label es) out.

(** The four lists after the edges [es] were visited. *)
Definition Seen_Idx (g : SkiGraph) (es : list Edge) (s : Seen) : Prop :=
  Idx g "slope" e_source TopLabel es (seenSlopeTops s) (outSlopeTops s) /\
  Idx g "slope" e_target BottomLabel es (seenSlopeBottoms s) (outSlopeBottoms s) /\
  Idx g "lift" e_target TopLabel es (seenLiftTops s) (outLiftTops s) /\
  Idx g "lift" e_source BottomLabel es (seenLiftBottoms s) (outLiftBottoms s).

(** A named slope or lift with an end point that is no key of the node
    map. *)
Definition dangling (g : SkiGraph) (edge : Edge) : Prop :=
  truthy (e_name edge) = true /\
  (e_type edge = "slope" \/ e_type edge = "lift") /\
  (nodes g !! e_source edge = None \/ nodes g !! e_target edge = None).

(** A list of locations in the order of their names under a collation. *)
Definition sorted_byName (localeCompare : string -> string -> Z) (l : list Location)
    : Prop :=
  StronglySorted (fun a b => (byName localeCompare a b <= 0)%Z) l.

(** *** Notions for the page *)

(** Only the error panel is visible, and it shows [message]. *)
Definition error_shown (ui : SkiUI) (message : string) : Prop :=
  "hidden" ∈ loading ui /\
  ("hidden" ∉ errorMessage ui) /\
  errorMessage_textContent ui = message /\
  "hidden" ∈ routeResults ui.

(** The values a dropdown offers. *)
Definition option_values (select : SelectElement) : list string :=
  o_value <$> sel_options select.

(** Every box checked in [ui] is checked in [ui']. *)
Definition more_checked (ui ui' : SkiUI) : Prop :=
  (filterGreen ui = true -> filterGreen ui' = true) /\
  (filterBlue ui = true -> filterBlue ui' = true) /\
  (filterRed ui = true -> filterRed ui' = true) /\
  (filterBlack ui = true -> filterBlack ui' = true).

(** ** Scenario graphs *)

Definition mk_node (e : Q) (s : string) : Node := {| ele := e; station := Some s |}.

Definition mk_slope (i s t d : string) (dist delta : Q) : Edge :=
  {| e_id := i; e_source := s; e_target := t; e_type := "slope";
     e_difficulty := Some d; e_liftType := None; e_distance := dist;
     e_elevationDelta := delta; e_name := Some i; e_geometry := None |}.

(** A slope edge into an unknown node (scenario for the constructor). *)
Definition dangling_data : GraphData :=
  {| gd_nodes := <["A" := mk_node 1000 "Top"]> ∅;
     gd_edges := [mk_slope "e1" "A" "B" "blue" (-1000) (-500)] |}.

(** A slope edge with a difficulty outside the speed table. *)
Definition purple_slope : Edge := mk_slope "e1" "A" "B" "purple" 1000 (-500).

(** The two-edge chain with everything the scenario leaves open as a
    parameter. *)
Definition two_edge_chain (nA nB nC : Node) (n1 n2 : option string) (d1 d2 : Q) : GraphData :=
  {| gd_nodes := <["A" := nA]> (<["B" := nB]> (<["C" := nC]> ∅));
     gd_edges :=
       [{| e_id := "e1"; e_source := "A"; e_target := "B"; e_type := "lift";
           e_difficulty := None; e_liftType := Some "gondola"; e_distance := 1000;
           e_elevationDelta := d1; e_name := n1; e_geometry := None |};
        {| e_id := "e2"; e_source := "B"; e_target := "C"; e_type := "slope";
           e_difficulty := Some "green"; e_liftType := None; e_distance := 600;
           e_elevationDelta := d2; e_name := n2; e_geometry := None |}] |}.

(** One blue slope of 1250.4 m. *)
Definition fraction_data : GraphData :=
  {| gd_nodes := <["A" := mk_node 1000 "Top"]> (<["B" := mk_node 500 "Bottom"]> ∅);
     gd_edges := [mk_slope "e1" "A" "B" "blue" (12504 # 10) (-500)] |}.

(** Two ways down from A to D: over B on blue slopes (2 + 2 minutes) and
    over C on red slopes (1 + 1 minutes). *)
Definition diamond_data : GraphData :=
  {| gd_nodes := <["A" := mk_node 2000 "Summit"]> (<["B" := mk_node 1500 "Left"]>
                   (<["C" := mk_node 1500 "Right"]> (<["D" := mk_node 1000 "Valley"]> ∅)));
     gd_edges := [mk_slope "ab" "A" "B" "blue" 500 (-500);
                  mk_slope "bd" "B" "D" "blue" 500 (-500);
                  mk_slope "ac" "A" "C" "red" 300 (-500);
                  mk_slope "cd" "C" "D" "red" 300 (-500)] |}.

(** Five green slopes of 10 m in a row from A to B (0.05 minutes each)
    beside one blue slope of 75 m (0.3 minutes). *)
Definition rounding_data : GraphData :=
  {| gd_nodes := <["A" := mk_node 1000 "Top"]> (<["N1" := mk_node 990 "N1"]>
                   (<["N2" := mk_node 980 "N2"]> (<["N3" := mk_node 970 "N3"]>
                   (<["N4" := mk_node 960 "N4"]> (<["B" := mk_node 950 "Bottom"]> ∅)))));
     gd_edges := [mk_slope "g1" "A" "N1" "green" 10 (-10);
                  mk_slope "g2" "N1" "N2" "green" 10 (-10);
                  mk_slope "g3" "N2" "N3" "green" 10 (-10);
                  mk_slope "g4" "N3" "N4" "green" 10 (-10);
                  mk_slope "g5" "N4" "B" "green" 10 (-10);
                  mk_slope "b1" "A" "B" "blue" 75 (-50)] |}.

(** A graph whose edges all join keys of the node map, with one slope of
    negative distance from B back to A. *)
Definition negative_data : GraphData :=
  {| gd_nodes := <["S" := mk_node 2000 "Summit"]> (<["A" := mk_node 1500 "A"]>
                   (<["B" := mk_node 1400 "B"]> (<["C" := mk_node 1000 "Valley"]> ∅)));
     gd_edges := [mk_slope "sa" "S" "A" "blue" 250 (-500);
                  mk_slope "ab" "A" "B" "blue" 250 (-100);
                  mk_slope "ba" "B" "A" "blue" (-1250) 100;
                  mk_slope "bc" "B" "C" "blue" 250 (-400)] |}.

(** A gondola of 1000 m. *)
Definition gondola_lift : Edge :=
  {| e_id := "e1"; e_source := "A"; e_target := "B"; e_type := "lift";
     e_difficulty := None; e_liftType := Some "gondola"; e_distance := 1000;
     e_elevationDelta := 500; e_name := Some "Gondola"; e_geometry := None |}.

(** A slope from a node that is no key of the node map. *)
Definition unknown_source_data : GraphData :=
  {| gd_nodes := <["B" := mk_node 500 "Bottom"]> ∅;
     gd_edges := [mk_slope "e1" "Z" "B" "blue" 1000 (-500)] |}.

(** Two slopes filed under the same id, the second one into a node that
    is no key of the node map. *)
Definition duplicate_id_data : GraphData :=
  {| gd_nodes := <["A" := mk_node 1000 "Top"]> (<["B" := mk_node 500 "Bottom"]>
                   (<["C" := mk_node 800 "Side"]> ∅));
     gd_edges := [mk_slope "e1" "A" "B" "blue" 1000 (-500);
                  mk_slope "e1" "C" "X" "blue" 1000 (-500)] |}.

(** A slope of 900 m drawn with four geometry points. *)
Definition geometry_data : GraphData :=
  {| gd_nodes := <["A" := mk_node 1000 "Top"]> (<["B" := mk_node 700 "Bottom"]> ∅);
     gd_edges :=
       [{| e_id := "e1"; e_source := "A"; e_target := "B"; e_type := "slope";
           e_difficulty := Some "red"; e_liftType := None; e_distance := 900;
           e_elevationDelta := -300; e_name := Some "Piste";
           e_geometry := Some [(0, 0); (1, 1); (2, 2); (3, 3)]%Q |}] |}.

(** A collation to run the index with: strings compared by code units. *)
Definition compare_code_units (a b : string) : Z :=
  match String.compare a b with
  | Lt => -1
  | Eq => 0
  | Gt => 1
  end.

(** A page with one selected option in either dropdown, nothing hidden
    and the given state of the four checkboxes. *)
Definition page (startId endId : string) (green blue red black : bool) : SkiUI :=
  let select v :=
    {| sel_children := [ChildOption {| o_value := v; o_textContent := Literal v;
                                       o_disabled := false; o_selected := true |}];
       sel_disabled := false |} in
  {| startSelect := select startId;
     endSelect := select endId;
     swapBtn_disabled := false;
     findRouteBtn_disabled := false;
     loading := ∅;
     errorMessage := ∅;
     errorMessage_textContent := "";
     routeResults := ∅;
     filterGreen := green;
     filterBlue := blue;
     filterRed := red;
     filterBlack := black |}.

(** A [renderRoute] that only switches the panels, as the first three
    statements of the one of the page do, and returns. *)
Definition show_results (ui : SkiUI) (route : Route) (graph : SkiGraph) : SkiUI * bool :=
  (with_panels ui ({["hidden"]} ∪ loading ui) ({["hidden"]} ∪ errorMessage ui)
     (errorMessage_textContent ui) (routeResults ui ∖ {["hidden"]}),
   true).

(** * Properties *)

(** ** Loops that may throw *)

Lemma for_of_cons_Ok {A S} (body : S -> A -> result S) x l s s' :
  for_of body (x :: l) s = Ok s' ->
  exists s1, body s x = Ok s1 /\ for_of body l s1 = Ok s'.
Proof.
  simpl. destruct (body s x) as [s1|]; [|discriminate]. simpl. eauto.
Qed.

Lemma map_throw_cons {A B} (f : A -> result B) x l :
  map_throw f (x :: l) = (y <- f x ;; ys <- map_throw f l ;; Ok (y :: ys)).
Proof. reflexivity. Qed.

Lemma map_throw_Forall2 {A B} (f : A -> result B) l ys :
  map_throw f l = Ok ys -> Forall2 (fun x y => f x = Ok y) l ys.
Proof.
  revert ys. induction l as [|x l IH]; intros ys H; simpl in H.
  - injection H as <-. constructor.
  - destruct (f x) as [y|] eqn:E; [|discriminate]. simpl in H.
    destruct (map_throw f l) as [ys'|]; [|discriminate]. simpl in H.
    injection H as <-. constructor; auto.
Qed.

(** ** The priority queue *)

#[local] Arguments Nat.div : simpl never.
#[local] Arguments Nat.mul : simpl never.

Ltac lia_div := zify; Z.to_euclidean_division_equations; lia.

Ltac case_Qle H :=
  match goal with
  | |- context [Qle_bool ?a ?b] => destruct (Qle_bool a b) eqn:H
  end.

Lemma Qltb_lt x y : Qltb x y = true <-> (x < y)%Q.
Proof.
  unfold Qltb. rewrite negb_true_iff, <- not_true_iff_false, Qle_bool_iff.
  split; [apply Qnot_le_lt|apply Qlt_not_le].
Qed.

Lemma Qltb_ge x y : Qltb x y = false <-> (y <= x)%Q.
Proof. unfold Qltb. by rewrite negb_false_iff, Qle_bool_iff. Qed.

Lemma length_swap heap a b : length (swap heap a b) = length heap.
Proof.
  unfold swap. destruct (heap !! a), (heap !! b); try done.
  by rewrite !length_insert.
Qed.

Lemma lookup_swap heap a b j :
  a < length heap -> b < length heap ->
  swap heap a b !! j = heap !! transpose a b j.
Proof.
  intros Ha Hb. unfold swap, transpose.
  destruct (lookup_lt_is_Some_2 heap a Ha) as [x Hx].
  destruct (lookup_lt_is_Some_2 heap b Hb) as [y Hy].
  rewrite Hx, Hy, !list_lookup_insert, !length_insert.
  repeat case_decide; try done; try lia; destruct_and?; subst; try done; try lia.
Qed.

Lemma elem_of_swap heap a b x : x ∈ swap heap a b <-> x ∈ heap.
Proof.
  destruct (decide (a < length heap /\ b < length heap)) as [[Ha Hb]|Hn].
  - rewrite !list_elem_of_lookup. split; intros [j Hj].
    + rewrite lookup_swap in Hj by done. eauto.
    + exists (transpose a b j). rewrite lookup_swap by done.
      rewrite <- Hj. f_equal. unfold transpose. repeat case_decide; congruence.
  - unfold swap. destruct (heap !! a) eqn:Ea; [|done].
    destruct (heap !! b) eqn:Eb; [|done].
    apply lookup_lt_Some in Ea, Eb. lia.
Qed.

Lemma heap_le_swap heap a b j1 j2 :
  a < length heap -> b < length heap ->
  heap_le (swap heap a b) j1 j2 <-> heap_le heap (transpose a b j1) (transpose a b j2).
Proof. intros Ha Hb. unfold heap_le. by rewrite !lookup_swap. Qed.

Lemma heap_le_trans heap a b c :
  b < length heap -> heap_le heap a b -> heap_le heap b c -> heap_le heap a c.
Proof.
  intros Hb H1 H2 x z Hx Hz.
  destruct (lookup_lt_is_Some_2 heap b Hb) as [y Hy].
  eapply Qle_trans; eauto.
Qed.

(** The root of an ordered heap is a minimum. *)
Lemma heap_ok_root heap j : heap_ok heap -> heap_le heap 0 j.
Proof.
  intros Hok. induction (lt_wf j) as [j _ IH].
  destruct (decide (j = 0)) as [->|Hj].
  - intros x y Hx Hy. rewrite Hx in Hy. injection Hy as ->. apply Qle_refl.
  - destruct (decide (j < length heap)) as [Hlt|Hge].
    + apply heap_le_trans with ((j - 1) / 2); [lia_div|apply IH; lia_div|apply Hok; lia].
    + intros x y _ Hy. apply lookup_lt_Some in Hy. lia.
Qed.

(** *** _bubbleUp *)

Lemma length_bubbleUp_loop fuel heap i :
  length (bubbleUp_loop fuel heap i) = length heap.
Proof.
  revert heap i. induction fuel as [|fuel IH]; intros heap i; simpl; [done|].
  case_bool_decide; [|done].
  destruct (heap !! ((i - 1) / 2)), (heap !! i); try done.
  case_Qle Hle; [done|]. by rewrite IH, length_swap.
Qed.

Lemma elem_of_bubbleUp_loop fuel heap i x :
  x ∈ bubbleUp_loop fuel heap i <-> x ∈ heap.
Proof.
  revert heap i. induction fuel as [|fuel IH]; intros heap i; simpl; [done|].
  case_bool_decide; [|done].
  destruct (heap !! ((i - 1) / 2)), (heap !! i); try done.
  case_Qle Hle; [done|]. by rewrite IH, elem_of_swap.
Qed.

Lemma transpose_l a b : transpose a b a = b.
Proof. unfold transpose. by rewrite decide_True. Qed.

Lemma transpose_r a b : transpose a b b = a.
Proof. unfold transpose. repeat case_decide; congruence. Qed.

Lemma transpose_ne a b j : j <> a -> j <> b -> transpose a b j = j.
Proof. intros. unfold transpose. by rewrite !decide_False. Qed.

Lemma up_inv_swap heap i hp hi :
  0 < i -> heap !! ((i - 1) / 2) = Some hp -> heap !! i = Some hi ->
  Qle_bool (priority hp) (priority hi) = false ->
  up_inv heap i -> up_inv (swap heap ((i - 1) / 2) i) ((i - 1) / 2).
Proof.
  intros Hi Hp Hhi Hlt [H1 H2].
  pose proof (lookup_lt_Some _ _ _ Hp) as Lp.
  pose proof (lookup_lt_Some _ _ _ Hhi) as Li.
  assert (heap_le heap i ((i - 1) / 2)) as Hswap.
  { intros x y Hx Hy. rewrite Hhi in Hx. rewrite Hp in Hy.
    injection Hx as <-. injection Hy as <-.
    apply Qlt_le_weak, Qltb_lt. unfold Qltb. by rewrite Hlt. }
  set (p := (i - 1) / 2) in *.
  assert (p < i) as Hpi by (unfold p; lia_div).
  split.
  - intros j Hj Hne. rewrite heap_le_swap by done.
    destruct (decide (j = i)) as [->|Hji].
    + fold p. by rewrite transpose_l, transpose_r.
    + rewrite (transpose_ne _ _ j) by done.
      destruct (decide ((j - 1) / 2 = i)) as [Ei|Ni].
      * rewrite Ei, transpose_r. by apply H2.
      * destruct (decide ((j - 1) / 2 = p)) as [Ep|Np].
        -- rewrite Ep, transpose_l. apply heap_le_trans with p; [done|done|].
           rewrite <- Ep. by apply H1.
        -- rewrite transpose_ne by done. by apply H1.
  - intros c Hc Hpos Hpc. rewrite heap_le_swap by done.
    assert ((p - 1) / 2 < p) as Hpp by lia_div.
    rewrite (transpose_ne _ _ ((p - 1) / 2)) by lia.
    destruct (decide (c = i)) as [->|Hci].
    + rewrite transpose_r. apply H1; lia.
    + rewrite transpose_ne by lia_div.
      apply heap_le_trans with p; [done|apply H1; lia|].
      rewrite <- Hpc. by apply H1.
Qed.

Lemma bubbleUp_loop_ok fuel heap i :
  i <= fuel -> i < length heap -> up_inv heap i ->
  heap_ok (bubbleUp_loop fuel heap i).
Proof.
  revert heap i. induction fuel as [|fuel IH]; intros heap i Hf Hi Hinv; simpl.
  - intros j Hj. apply Hinv; lia.
  - case_bool_decide as Hpos; [|intros j Hj; apply Hinv; lia].
    destruct (lookup_lt_is_Some_2 heap ((i - 1) / 2)) as [hp Hp]; [lia_div|].
    destruct (lookup_lt_is_Some_2 heap i Hi) as [hi Hhi].
    rewrite Hp, Hhi. case_Qle Hle.
    + intros j Hj. destruct (decide (j = i)) as [->|Hne]; [|by apply Hinv].
      intros x y Hx Hy. rewrite Hp in Hx. rewrite Hhi in Hy.
      injection Hx as <-. injection Hy as <-. by apply Qle_bool_iff.
    + apply IH; [lia_div|rewrite length_swap; lia_div|].
      by eapply up_inv_swap.
Qed.

(** [insert] keeps the heap order and adds exactly the new entry. *)
Lemma insert_pq_ok heap k p : heap_ok heap -> heap_ok (insert_pq heap k p).
Proof.
  intros Hok. unfold insert_pq, _bubbleUp. rewrite length_app. simpl.
  apply bubbleUp_loop_ok; [lia|rewrite length_app; simpl; lia|].
  split.
  - intros j Hj Hne x y Hx Hy.
    assert (j < length heap) as Hlt.
    { apply lookup_lt_Some in Hy. rewrite length_app in Hy. simpl in Hy. lia. }
    rewrite lookup_app_l in Hx by lia_div. rewrite lookup_app_l in Hy by done.
    by eapply Hok.
  - intros c Hc Hpos Hpc x y Hx Hy.
    apply lookup_lt_Some in Hy. rewrite length_app in Hy. simpl in Hy. lia_div.
Qed.

Lemma length_insert_pq heap k p : length (insert_pq heap k p) = S (length heap).
Proof.
  unfold insert_pq, _bubbleUp. rewrite length_bubbleUp_loop, length_app. simpl. lia.
Qed.

Lemma elem_of_insert_pq heap k p x :
  x ∈ insert_pq heap k p <-> x = {| key := k; priority := p |} \/ x ∈ heap.
Proof.
  unfold insert_pq, _bubbleUp.
  rewrite elem_of_bubbleUp_loop, elem_of_app, list_elem_of_singleton. tauto.
Qed.

(** *** _sinkDown *)

Lemma below_true heap j i :
  below heap j i = true -> j < length heap /\ heap_le heap j i.
Proof.
  unfold below. intros H.
  destruct (heap !! j) as [x|] eqn:Ex; [|discriminate].
  destruct (heap !! i) as [y|] eqn:Ey; [|discriminate].
  split; [by eapply lookup_lt_Some|].
  intros x' y' Hx Hy. rewrite Ex in Hx. rewrite Ey in Hy.
  injection Hx as <-. injection Hy as <-.
  by apply Qlt_le_weak, Qltb_lt.
Qed.

Lemma below_false heap j i : below heap j i = false -> heap_le heap i j.
Proof.
  unfold below. intros H y x Hy Hx. rewrite Hx, Hy in H. by apply Qltb_ge.
Qed.

Lemma heap_le_beyond heap a b : length heap <= b -> heap_le heap a b.
Proof. intros Hb x y _ Hy. apply lookup_lt_Some in Hy. lia. Qed.

Lemma heap_le_refl heap a : heap_le heap a a.
Proof.
  intros x y Hx Hy. rewrite Hx in Hy. injection Hy as ->. apply Qle_refl.
Qed.

Lemma smallest_of_spec heap i :
  i < length heap ->
  let s := smallest_of heap i in
  (s = i \/ s = 2 * i + 1 \/ s = 2 * i + 2) /\ s < length heap /\
  heap_le heap s i /\ heap_le heap s (2 * i + 1) /\ heap_le heap s (2 * i + 2).
Proof.
  intros Hi. unfold smallest_of.
  assert (forall j, (bool_decide (j < length heap) && below heap j i) = false ->
            heap_le heap i j) as Hno.
  { intros j [Hj|Hj]%andb_false_iff.
    - apply bool_decide_eq_false in Hj. apply heap_le_beyond. lia.
    - by apply below_false. }
  destruct (bool_decide (2 * i + 1 < length heap) && below heap (2 * i + 1) i) eqn:El.
  - apply andb_true_iff in El as [Ll El]. apply bool_decide_eq_true in Ll.
    apply below_true in El as [_ El].
    destruct (bool_decide (2 * i + 2 < length heap) && below heap (2 * i + 2) (2 * i + 1))
      eqn:Er.
    + apply andb_true_iff in Er as [Lr Er]. apply bool_decide_eq_true in Lr.
      apply below_true in Er as [_ Er].
      repeat split; [tauto|done| |done|apply heap_le_refl].
      by apply heap_le_trans with (2 * i + 1).
    + repeat split; [tauto|done|done|apply heap_le_refl|].
      apply andb_false_iff in Er as [Er|Er].
      * apply bool_decide_eq_false in Er. apply heap_le_beyond. lia.
      * by apply below_false.
  - apply Hno in El.
    destruct (bool_decide (2 * i + 2 < length heap) && below heap (2 * i + 2) i) eqn:Er.
    + apply andb_true_iff in Er as [Lr Er]. apply bool_decide_eq_true in Lr.
      apply below_true in Er as [_ Er].
      repeat split; [tauto|done|done| |apply heap_le_refl].
      by apply heap_le_trans with i.
    + apply Hno in Er. repeat split; [tauto|done|apply heap_le_refl|done|done].
Qed.

Lemma sinkDown_loop_S fuel heap i :
  sinkDown_loop (S fuel) heap i =
  if bool_decide (smallest_of heap i = i) then heap
  else sinkDown_loop fuel (swap heap (smallest_of heap i) i) (smallest_of heap i).
Proof. reflexivity. Qed.

Lemma length_sinkDown_loop fuel heap i :
  length (sinkDown_loop fuel heap i) = length heap.
Proof.
  revert heap i. induction fuel as [|fuel IH]; intros heap i; [done|].
  rewrite sinkDown_loop_S. case_bool_decide; [done|]. by rewrite IH, length_swap.
Qed.

Lemma elem_of_sinkDown_loop fuel heap i x :
  x ∈ sinkDown_loop fuel heap i <-> x ∈ heap.
Proof.
  revert heap i. induction fuel as [|fuel IH]; intros heap i; [done|].
  rewrite sinkDown_loop_S. case_bool_decide; [done|]. by rewrite IH, elem_of_swap.
Qed.

Lemma down_inv_swap heap i :
  i < length heap -> smallest_of heap i <> i ->
  down_inv heap i -> down_inv (swap heap (smallest_of heap i) i) (smallest_of heap i).
Proof.
  intros Hi Hne [H1 H2].
  destruct (smallest_of_spec heap i Hi) as (Hs & Ls & Hsi & Hsl & Hsr).
  set (s := smallest_of heap i) in *.
  assert ((s - 1) / 2 = i /\ i < s) as [Hps His] by lia_div.
  split.
  - intros j Hj Hpj. rewrite heap_le_swap by done.
    destruct (decide ((j - 1) / 2 = i)) as [Ei|Ni].
    + rewrite Ei, transpose_r.
      destruct (decide (j = s)) as [->|Hjs].
      * by rewrite transpose_l.
      * rewrite transpose_ne by lia_div.
        assert (j = 2 * i + 1 \/ j = 2 * i + 2) as [->| ->] by lia_div; done.
    + rewrite (transpose_ne _ _ ((j - 1) / 2)) by done.
      destruct (decide (j = i)) as [->|Hji].
      * rewrite transpose_r. apply H2; [lia|done|done].
      * rewrite transpose_ne by lia_div. by apply H1.
  - intros c Hc Hpos Hpc. rewrite heap_le_swap by done.
    rewrite Hps, transpose_r, transpose_ne by lia_div.
    rewrite <- Hpc. apply H1; [done|lia].
Qed.

Lemma sinkDown_loop_ok fuel heap i :
  length heap <= fuel + i -> i < length heap -> down_inv heap i ->
  heap_ok (sinkDown_loop fuel heap i).
Proof.
  revert heap i. induction fuel as [|fuel IH]; intros heap i Hf Hi Hinv; [simpl in *; lia|].
  rewrite sinkDown_loop_S.
  destruct (smallest_of_spec heap i Hi) as (Hs & Ls & Hsi & Hsl & Hsr).
  case_bool_decide as Hsm.
  - rewrite Hsm in *. destruct Hinv as [H1 _]. intros j Hj.
    destruct (decide ((j - 1) / 2 = i)) as [Ei|Ni]; [|by apply H1].
    rewrite Ei. assert (j = 2 * i + 1 \/ j = 2 * i + 2) as [->| ->] by lia_div; done.
  - apply IH; [rewrite length_swap; lia|by rewrite length_swap|].
    by apply down_inv_swap.
Qed.

(** *** The fuel of the two heap loops is enough *)

(** [_bubbleUp]: any fuel of at least [i] gives the same heap, so the
    loop is not cut short by the [i] iterations it is given. *)
Lemma bubbleUp_loop_fuel fuel1 fuel2 heap i :
  i <= fuel1 -> i <= fuel2 ->
  bubbleUp_loop fuel1 heap i = bubbleUp_loop fuel2 heap i.
Proof.
  revert fuel2 heap i.
  induction fuel1 as [|fuel1 IH]; intros [|fuel2] heap i H1 H2; simpl; try done.
  - by rewrite bool_decide_eq_false_2 by lia.
  - by rewrite bool_decide_eq_false_2 by lia.
  - case_bool_decide as Hi; [|done].
    destruct (heap !! ((i - 1) / 2)) as [hp|]; [|done].
    destruct (heap !! i) as [hi|]; [|done].
    case_Qle Hle; [done|]. apply IH; lia_div.
Qed.

Lemma smallest_of_cases heap i :
  smallest_of heap i = i \/
  (i < smallest_of heap i /\ smallest_of heap i < length heap).
Proof.
  unfold smallest_of.
  destruct (bool_decide (2 * i + 1 < length heap) && below heap (2 * i + 1) i) eqn:El.
  - apply andb_true_iff in El as [Ll%bool_decide_eq_true _].
    destruct (bool_decide (2 * i + 2 < length heap) && _) eqn:Er.
    + apply andb_true_iff in Er as [Lr%bool_decide_eq_true _]. right. lia.
    + right. lia.
  - destruct (bool_decide (2 * i + 2 < length heap) && _) eqn:Er.
    + apply andb_true_iff in Er as [Lr%bool_decide_eq_true _]. right. lia.
    + by left.
Qed.

(** [_sinkDown]: any fuel of at least [length heap - i] gives the same
    heap. *)
Lemma sinkDown_loop_fuel fuel1 fuel2 heap i :
  length heap <= fuel1 + i -> length heap <= fuel2 + i ->
  sinkDown_loop fuel1 heap i = sinkDown_loop fuel2 heap i.
Proof.
  revert fuel2 heap i.
  induction fuel1 as [|fuel1 IH]; intros [|fuel2] heap i H1 H2;
    rewrite ?sinkDown_loop_S; try done.
  - destruct (smallest_of_cases heap i) as [->|]; [|lia].
    by rewrite bool_decide_eq_true_2.
  - destruct (smallest_of_cases heap i) as [->|]; [|lia].
    by rewrite bool_decide_eq_true_2.
  - case_bool_decide as Hs; [done|].
    destruct (smallest_of_cases heap i) as [|[Hlt _]]; [done|].
    apply IH; rewrite length_swap; lia.
Qed.

(** *** extractMin *)

Lemma extractMin_None heap h' : extractMin heap = (None, h') -> heap = [].
Proof. by destruct heap. Qed.

Lemma extractMin_cons min rest :
  extractMin (min :: rest) =
  (Some (key min),
   if bool_decide (0 < length (removelast (min :: rest)))
   then _sinkDown (<[0 := List.last (min :: rest) min]> (removelast (min :: rest))) 0
   else removelast (min :: rest)).
Proof. reflexivity. Qed.

(** [extractMin] on a non-empty heap: the entry taken out is the root;
    the rest stays, one entry shorter and in heap order; on an ordered
    heap the root has the least priority. *)
Lemma extractMin_Some heap u h' :
  extractMin heap = (Some u, h') ->
  exists min, key min = u /\ min ∈ heap /\
    S (length h') = length heap /\
    (forall x, x ∈ heap <-> x = min \/ x ∈ h') /\
    (heap_ok heap -> heap_ok h' /\
       forall x, x ∈ heap -> (priority min <= priority x)%Q).
Proof.
  destruct heap as [|min rest]; [discriminate|].
  rewrite extractMin_cons.
  assert (min :: rest = removelast (min :: rest) ++ [List.last (min :: rest) min]) as Heq.
  { by apply app_removelast_last. }
  set (lst := List.last (min :: rest) min) in *.
  set (front := removelast (min :: rest)) in *.
  clearbody lst front.
  intros [= <- <-]. exists min.
  split; [done|]. split; [apply list_elem_of_here|].
  assert (S (length front) = length (min :: rest)) as Hlen.
  { rewrite Heq, length_app. simpl. lia. }
  assert (heap_ok (min :: rest) ->
          forall x, x ∈ min :: rest -> (priority min <= priority x)%Q) as Hmin.
  { intros Hok x [j Hj]%list_elem_of_lookup.
    by eapply (heap_ok_root _ j Hok). }
  case_bool_decide as Hpos.
  - unfold _sinkDown. rewrite length_sinkDown_loop, length_insert.
    split; [done|]. split.
    + intros x. rewrite elem_of_sinkDown_loop.
      destruct front as [|m front']; [simpl in Hpos; lia|].
      injection Heq as <- Hrest. simpl. rewrite Hrest.
      rewrite !elem_of_cons, elem_of_app, list_elem_of_singleton. tauto.
    + intros Hok. split; [|by apply Hmin].
      apply sinkDown_loop_ok; rewrite ?length_insert; [lia|done|].
      split; [|intros; lia].
      intros j Hj Hpj x y Hx Hy.
      assert (j < length front) as Hjf.
      { apply lookup_lt_Some in Hy. by rewrite length_insert in Hy. }
      rewrite list_lookup_insert_ne in Hx, Hy by lia.
      apply (Hok j Hj x y); rewrite Heq, lookup_app_l; (done || lia_div).
  - assert (front = []) as Hf by (destruct front; [done|simpl in Hpos; lia]).
    rewrite Hf in *. simpl in Heq. injection Heq as Hlst Hrest.
    split; [done|]. split.
    + intros x. rewrite Hrest, list_elem_of_singleton, elem_of_nil. tauto.
    + intros Hok. split; [|by apply Hmin]. intros j Hj x y Hx. by destruct j.
Qed.

(** ** The constructor *)

Lemma add_neighbor_lookup adj edge k :
  add_neighbor adj edge !! k =
    (fun l => l ++ out_neighbors [edge] k) <$> adj !! k.
Proof.
  unfold add_neighbor, out_neighbors.
  destruct (decide (e_source edge = k)) as [Heq|Hne].
  - rewrite filter_cons_True by done. rewrite filter_nil. simpl.
    rewrite Heq. destruct (adj !! k) as [l|] eqn:E.
    + by rewrite lookup_insert_eq.
    + by rewrite E.
  - rewrite filter_cons_False by done. rewrite filter_nil. simpl.
    destruct (adj !! e_source edge) as [l|] eqn:E.
    + rewrite lookup_insert_ne by done.
      destruct (adj !! k); simpl; by rewrite ?app_nil_r.
    + destruct (adj !! k); simpl; by rewrite ?app_nil_r.
Qed.

Lemma foldl_add_neighbor_lookup es adj k :
  foldl add_neighbor adj es !! k =
    (fun l => l ++ out_neighbors es k) <$> adj !! k.
Proof.
  revert adj. induction es as [|edge es IH]; intros adj; simpl.
  - destruct (adj !! k); simpl; by rewrite ?app_nil_r.
  - rewrite IH, add_neighbor_lookup.
    destruct (adj !! k) as [l|]; simpl; [|done].
    f_equal. rewrite <- app_assoc. f_equal.
    unfold out_neighbors. rewrite <- fmap_app. f_equal.
    by rewrite <- filter_app.
Qed.

(** The adjacency index: a key of the node map is given the edges that
    leave it, in input order; nothing else has an entry. *)
Lemma adjacency_new_SkiGraph graphData k :
  adjacency (new_SkiGraph graphData) !! k =
    (fun _ => out_neighbors (gd_edges graphData) k) <$> gd_nodes graphData !! k.
Proof.
  simpl. rewrite foldl_add_neighbor_lookup, lookup_fmap.
  by destruct (gd_nodes graphData !! k).
Qed.

(** C3 (as stated, refuted): the constructor given an edge into a node
    that does not exist, with a negative distance, still returns a
    graph. *)
Lemma buildGraph_accepts_malformed :
  malformed dangling_data /\
  buildGraph dangling_data = Built (new_SkiGraph dangling_data) /\
  buildGraph dangling_data <> MalformedDataError.
Proof.
  split; [|split; [reflexivity|discriminate]].
  exists (mk_slope "e1" "A" "B" "blue" (-1000) (-500)). split.
  - apply list_elem_of_here.
  - right. left. reflexivity.
Qed.

(** C3 (amended): construction never fails.  Whatever the input, the
    constructor returns a graph that holds the node map and the edge list
    unchanged; a key of the node map is indexed with the edges leaving it
    in input order, whatever their targets and distances, and an edge
    whose source is no key of the node map appears in no adjacency
    list. *)
Theorem buildGraph_total graphData :
  exists g, buildGraph graphData = Built g /\
    nodes g = gd_nodes graphData /\
    edges g = gd_edges graphData /\
    forall k, adjacency g !! k =
      (fun _ => out_neighbors (gd_edges graphData) k) <$> gd_nodes graphData !! k.
Proof.
  exists (new_SkiGraph graphData). split; [reflexivity|].
  split; [reflexivity|]. split; [reflexivity|].
  intros k. apply adjacency_new_SkiGraph.
Qed.

(** ** Facts on the tables of a constructed graph *)

Lemma edgesById_foldl es (m : gmap string Edge) i edge :
  foldl (fun m edge => <[e_id edge := edge]> m) m es !! i = Some edge ->
  (edge ∈ es /\ e_id edge = i) \/ m !! i = Some edge.
Proof.
  revert m. induction es as [|e es IH]; intros m H; simpl in H; [by right|].
  apply IH in H as [[H1 H2]|H].
  - left. split; [by apply elem_of_cons; right|done].
  - destruct (decide (e_id e = i)) as [Heq|Hne].
    + rewrite Heq, lookup_insert_eq in H. injection H as <-.
      left. split; [apply list_elem_of_here|done].
    + rewrite lookup_insert_ne in H by done. by right.
Qed.

(** An entry of [edgesById] is an edge of the input filed under its id. *)
Lemma edgesById_elem graphData i edge :
  edgesById (new_SkiGraph graphData) !! i = Some edge ->
  edge ∈ gd_edges graphData /\ e_id edge = i.
Proof.
  intros H. apply edgesById_foldl in H as [H|H]; [done|].
  by rewrite lookup_empty in H.
Qed.

(** ** The weight model *)

(** C4 (as stated, refuted): a slope of 1000 m with the unknown difficulty
    "purple" costs 1000/200 = 5 minutes, not 1000/250 = 4. *)
Lemma calculateWeight_unknown_not_blue :
  e_type purple_slope = "slope" /\
  calculateWeight purple_slope ∅ = Fin (1000 / 200) /\
  ~ num_eq (calculateWeight purple_slope ∅) (Fin (e_distance purple_slope / 250)).
Proof.
  split; [reflexivity|]. split; [reflexivity|].
  vm_compute. discriminate.
Qed.

(** C4 (amended): for a slope edge whose difficulty is not excluded the
    cost is the distance divided by the speed of the table
    green 200, blue 250, red 300, black 200; for a difficulty that is
    none of the four tags (or is missing) it is the distance divided
    by 200. *)
Theorem calculateWeight_slope edge excludedColors :
  e_type edge = "slope" ->
  has excludedColors (e_difficulty edge) = false ->
  (e_difficulty edge = Some "green" ->
     calculateWeight edge excludedColors = Fin (e_distance edge / 200)) /\
  (e_difficulty edge = Some "blue" ->
     calculateWeight edge excludedColors = Fin (e_distance edge / 250)) /\
  (e_difficulty edge = Some "red" ->
     calculateWeight edge excludedColors = Fin (e_distance edge / 300)) /\
  (e_difficulty edge = Some "black" ->
     calculateWeight edge excludedColors = Fin (e_distance edge / 200)) /\
  (e_difficulty edge ∉ [Some "green"; Some "blue"; Some "red"; Some "black"] ->
     calculateWeight edge excludedColors = Fin (e_distance edge / 200)).
Proof.
  intros Ht Hx. unfold calculateWeight. rewrite Ht, Hx. simpl.
  repeat split; try (intros ->; reflexivity).
  intros Hd. destruct (e_difficulty edge) as [d|]; [|reflexivity].
  simpl. unfold slope_speeds.
  repeat match goal with
  | |- context [String.eqb d ?s] =>
      destruct (String.eqb_spec d s) as [->|_];
      [exfalso; apply Hd; rewrite !elem_of_cons; tauto|]
  end.
  reflexivity.
Qed.

Lemma calculateWeight_slope_witness :
  calculateWeight purple_slope {["red"]} = Fin (1000 / 200).
Proof.
  apply (calculateWeight_slope purple_slope {["red"]}); [reflexivity|reflexivity|].
  rewrite !not_elem_of_cons. repeat split; try discriminate. apply not_elem_of_nil.
Defined.

(** ** findRoute: equal end points *)

(** C7: when the start and the end are the same node the call returns
    [same_location] before any table is set up: it does so with no fuel at
    all, whatever the graph and the exclusions, and it returns nothing
    else. *)
Theorem findRoute_same_location g a excludedColors :
  findRoute 0 g a a excludedColors = Some (Error same_location) /\
  forall o, returns g a a excludedColors o <-> o = Error same_location.
Proof.
  assert (forall fuel, findRoute fuel g a a excludedColors = Some (Error same_location)) as H.
  { intros fuel. unfold findRoute. by rewrite bool_decide_eq_true_2. }
  split; [apply H|]. intros o. split.
  - intros [fuel Hf]. rewrite H in Hf. congruence.
  - intros ->. exists 0. apply H.
Qed.

(** ** findRoute: the two-edge chain *)

(** C8: on the chain [A --gondola, 1000 m--> B --green slope, 600 m--> C]
    the call from A to C with nothing excluded returns a route whose
    summary has [totalTime] 11, for any elevations and names. *)
Theorem findRoute_chain_totalTime nA nB nC n1 n2 d1 d2 :
  exists route,
    returns (new_SkiGraph (two_edge_chain nA nB nC n1 n2 d1 d2)) "A" "C" ∅ (Found route) /\
    path route = [Some "A"; Some "B"; Some "C"] /\
    s_estimatedMinutes <$> steps route = [Fin (80 / 10); Fin (30 / 10)] /\
    totalTime (summary route) = Fin 11.
Proof.
  eexists. split; [exists 3; vm_compute; reflexivity|].
  repeat split; reflexivity.
Qed.

(** ** The search *)

Section Search.

Variables (g : SkiGraph) (excludedColors : gset string) (s t : string).

(** What the proofs use of the graph: the adjacency lists are those the
    constructor builds, every adjacency entry names an edge filed in
    [edgesById], and no finite weight is negative. *)
Hypothesis Hst : s <> t.
Hypothesis Hadj : forall u l,
  adjacency g !! u = Some l -> l = out_neighbors (edges g) u.
Hypothesis HbyId : forall u l nb,
  adjacency g !! u = Some l -> nb ∈ l -> is_Some (edgesById g !! nb_edgeId nb).
Hypothesis Hnonneg : forall i edge w,
  edgesById g !! i = Some edge -> calculateWeight edge excludedColors = Fin w ->
  (0 <= w)%Q.

#[local] Abbreviation arc := (arc g excludedColors s).
#[local] Abbreviation walk := (walk g excludedColors s).
#[local] Abbreviation chain := (chain g excludedColors s).
#[local] Abbreviation Inv := (Inv g excludedColors s t).
#[local] Abbreviation Post := (Post g excludedColors s t).

Lemma arc_nonneg u nb w : arc u nb w -> (0 <= w)%Q.
Proof. intros (l & edge & _ & _ & He & Hw & _). eauto. Qed.

Lemma walk_nonneg v c : walk v c -> (0 <= c)%Q.
Proof.
  induction 1 as [|u nb w c _ IH Ha]; [apply Qle_refl|].
  apply arc_nonneg in Ha. lra.
Qed.

Lemma chain_walk st v p ep c : chain st v p ep c -> walk v c.
Proof.
  induction 1 as [|v u nb w p ep c _ _ _ Ht Ha _ _ _ IH]; [constructor|].
  rewrite <- Ht. by econstructor.
Qed.

(** A chain mentions the links of its end node and of visited nodes only,
    so it survives any change that leaves those alone. *)
Lemma chain_preserved st st' v p ep c :
  chain st v p ep c ->
  visited st ⊆ visited st' ->
  (forall x, x ∈ visited st -> dist st' !! x = dist st !! x) ->
  (forall x, x ∈ visited st \/ x = v ->
     prev st' !! x = prev st !! x /\ prevEdge st' !! x = prevEdge st !! x) ->
  chain st' v p ep c.
Proof.
  intros Hc Hv Hd. induction Hc as [|v u nb w p ep c Hne Hp Hpe Ht Ha Hu Hdu _ IH];
    intros Hl; [constructor|].
  destruct (Hl v) as [Hl1 Hl2]; [by right|].
  econstructor; try done.
  - by rewrite Hl1.
  - by rewrite Hl2.
  - by apply Hv.
  - by rewrite Hd.
  - apply IH. intros x [Hx| ->]; apply Hl; by left.
Qed.

(** A walk that starts inside a set of nodes and ends outside leaves it
    along some arc, and costs at least what it cost up to there. *)
Lemma first_exit (V : gset string) v c :
  walk v c -> s ∈ V -> v ∉ V ->
  exists x nb w c0,
    x ∈ V /\ arc x nb w /\ (nb_target nb ∉ V) /\ walk x c0 /\ (c0 + w <= c)%Q.
Proof.
  induction 1 as [|u nb w c Hw IH Ha]; intros Hs Hv; [done|].
  destruct (decide (u ∈ V)) as [Hu|Hu].
  - exists u, nb, w, c. repeat split; try done. apply Qle_refl.
  - destruct (IH Hs Hu) as (x & nb' & w' & c0 & Hx & Ha' & Hn & Hw' & Hle).
    exists x, nb', w', c0. repeat split; try done.
    apply arc_nonneg in Ha. lra.
Qed.

(** Between two iterations, once the start has been expanded, a walk to
    a node that is not visited costs at least the priority of some queue
    entry. *)
Lemma walk_lower_bound st cur v c :
  Inv st cur [] -> s ∈ visited st -> v ∉ visited st -> walk v c ->
  exists x, x ∈ pq st /\ (priority x <= c)%Q.
Proof.
  intros HI Hs Hv Hw.
  destruct (first_exit _ _ _ Hw Hs Hv) as (x & nb & w & c0 & Hx & Ha & Hn & Hw0 & Hle).
  destruct (inv_optimal _ _ _ _ _ _ _ HI x Hx) as (dx & Hdx & Hopt).
  destruct (inv_relaxed _ _ _ _ _ _ _ HI x nb w Hx Ha)
    as [[_ Hin]|(dx' & dv & Hdx' & Hdv & Hle')].
  { by apply elem_of_nil in Hin. }
  rewrite Hdx in Hdx'. injection Hdx' as <-.
  destruct (inv_cover _ _ _ _ _ _ _ HI _ _ Hdv Hn) as (y & Hy & _ & Hp).
  exists y. split; [done|]. rewrite Hp. specialize (Hopt _ Hw0). lra.
Qed.

Lemma arc_weight_unique u nb w w' : arc u nb w -> arc u nb w' -> w = w'.
Proof.
  intros (l & e & _ & _ & He & Hw & _) (l' & e' & _ & _ & He' & Hw' & _).
  rewrite He in He'. injection He' as <-. rewrite Hw in Hw'. by injection Hw'.
Qed.

Lemma num_lt_true alt d :
  num_lt (Fin alt) d = true ->
  d = Some Inf \/ exists dv, d = Some (Fin dv) /\ (alt < dv)%Q.
Proof.
  destruct d as [[dv|]|]; simpl; [|by left|done].
  intros H%Qltb_lt. right. eauto.
Qed.

Lemma num_lt_false alt d :
  num_lt (Fin alt) d = false ->
  d = None \/ exists dv, d = Some (Fin dv) /\ (dv <= alt)%Q.
Proof.
  destruct d as [[dv|]|]; simpl; [|done|by left].
  intros H%Qltb_ge. right. eauto.
Qed.

(** One relaxation keeps the invariant and takes its entry off the
    pending list. *)
Lemma relax_Inv st u nb pending l st' :
  Inv st u (nb :: pending) -> u ∈ visited st ->
  adjacency g !! u = Some l -> nb ∈ l ->
  relax g excludedColors u st nb = Ok st' ->
  Inv st' u pending /\ visited st' = visited st /\
  length (pq st') <= S (length (pq st)).
Proof.
  intros [Hdom Hchain Hopt Hrel Hok Hcov Hsnd Hfirst Hend Hstart] Hu Hl Hnb.
  assert (s ∈ visited st) as Hs.
  { destruct Hfirst as [?|[He _]]; [done|]. rewrite He in Hu.
    by apply not_elem_of_empty in Hu. }
  destruct (Hopt u Hu) as (du & Hdu & Hu_opt).
  destruct (Hchain u du Hdu) as (pu & epu & Hcu).
  unfold relax.
  destruct (edgesById g !! nb_edgeId nb) as [edge|] eqn:He; [|discriminate].
  destruct (calculateWeight edge excludedColors) as [w|] eqn:Hw.
  2:{ (* impassable: continue *)
    intros [= <-]. split; [|split; [done|lia]].
    split; try done.
    intros x nb' w' Hx Ha. destruct (Hrel x nb' w' Hx Ha) as [[-> Hin]|Hr]; [|by right].
    apply elem_of_cons in Hin as [->|Hin]; [|by left].
    destruct Ha as (? & e' & _ & _ & He' & Hw' & _). congruence. }
  rewrite Hdu.
  destruct (num_lt (Fin (du + w)) (dist st !! nb_target nb)) eqn:Hlt.
  2:{ (* no improvement *)
    intros [= <-]. split; [|split; [done|lia]].
    split; try done.
    intros x nb' w' Hx Ha. destruct (Hrel x nb' w' Hx Ha) as [[-> Hin]|Hr]; [|by right].
    apply elem_of_cons in Hin as [->|Hin]; [|by left].
    right. pose proof Ha as (? & e' & _ & _ & He' & Hw' & Hk).
    assert (w' = w) as -> by congruence.
    apply num_lt_false in Hlt as [Hn|(dv & Hdv & Hle)].
    - apply Hdom in Hk. rewrite Hn in Hk. by destruct Hk.
    - exists du, dv. by repeat split. }
  (* the entry of the target is lowered *)
  set (v := nb_target nb) in *.
  assert (known g s v) as Hkv.
  { apply Hdom. apply num_lt_true in Hlt as [->|(dv & -> & _)]; eauto. }
  assert (arc u nb w) as Harc by (exists l, edge; done).
  assert (v ∉ visited st) as Hv.
  { intros Hv. destruct (Hopt v Hv) as (dv & Hdv & Hv_opt).
    assert (walk v (du + w)) as Hwalk.
    { unfold v. econstructor; [by eapply chain_walk|done]. }
    apply Hv_opt in Hwalk.
    apply num_lt_true in Hlt as [Hi|(dv' & Hdv' & Hlt)]; [congruence|].
    rewrite Hdv in Hdv'. injection Hdv' as <-. lra. }
  assert (v <> s) as Hvs by (intros ->; done).
  assert (u <> v) as Huv by (intros ->; done).
  intros [= <-]. simpl. split; [|split; [done|by rewrite length_insert_pq]].
  assert (forall x p ep d, chain st x p ep d -> x <> v ->
    chain {| dist := <[v:=Fin (du + w)]> (dist st); prev := <[v:=u]> (prev st);
             prevEdge := <[v:=nb_edgeId nb]> (prevEdge st); visited := visited st;
             pq := insert_pq (pq st) v (du + w) |} x p ep d) as Hkeep.
  { intros x p ep d Hc Hx. eapply chain_preserved; [exact Hc|done| |]; simpl.
    - intros y Hy. rewrite lookup_insert_ne; [done|]. by intros <-.
    - intros y Hy. rewrite !lookup_insert_ne; [done| |]; intros <-; by destruct Hy. }
  split; simpl.
  - intros x. rewrite <- Hdom. destruct (decide (x = v)) as [->|Hx].
    + rewrite lookup_insert_eq. split; [|by eauto]. intros _. by apply Hdom.
    + by rewrite lookup_insert_ne.
  - intros x d. destruct (decide (x = v)) as [->|Hx].
    + rewrite lookup_insert_eq. intros [= <-].
      exists (pu ++ [v]), (epu ++ [nb_edgeId nb]).
      eapply (chain_step _ _ _ _ v u nb w); simpl; try done.
      * by rewrite lookup_insert_eq.
      * by rewrite lookup_insert_eq.
      * by rewrite lookup_insert_ne.
      * by apply Hkeep.
    + rewrite lookup_insert_ne by done. intros Hd.
      destruct (Hchain x d Hd) as (p & ep & Hc). exists p, ep. by apply Hkeep.
  - intros x Hx. destruct (Hopt x Hx) as (dx & Hdx & Hx_opt).
    exists dx. split; [|done]. rewrite lookup_insert_ne; [done|]. by intros <-.
  - intros x nb' w' Hx Ha.
    assert (x <> v) as Hxv by (by intros ->).
    rewrite (lookup_insert_ne _ v x) by done.
    destruct (Hrel x nb' w' Hx Ha) as [[-> Hin]|(dx & dv & Hdx & Hdv & Hle)].
    + apply elem_of_cons in Hin as [->|Hin]; [|by left].
      right. assert (w' = w) as -> by (by eapply arc_weight_unique).
      exists du, (du + w)%Q. fold v. rewrite lookup_insert_eq.
      repeat split; [done|apply Qle_refl].
    + right. destruct (decide (nb_target nb' = v)) as [Et|Nt].
      * rewrite Et, lookup_insert_eq. exists dx, (du + w)%Q. split; [done|]. split; [done|].
        apply num_lt_true in Hlt as [Hi|(dv' & Hdv' & Hlt)]; rewrite Et in Hdv; [congruence|].
        rewrite Hdv in Hdv'. injection Hdv' as <-. lra.
      * rewrite lookup_insert_ne by done. by exists dx, dv.
  - by apply insert_pq_ok.
  - intros x d Hd Hx. destruct (decide (x = v)) as [->|Hxv].
    + rewrite lookup_insert_eq in Hd. injection Hd as <-.
      eexists. split; [apply elem_of_insert_pq; by left|done].
    + rewrite lookup_insert_ne in Hd by done.
      destruct (Hcov x d Hd Hx) as (y & Hy & Hk & Hp).
      exists y. split; [apply elem_of_insert_pq; by right|done].
  - intros x [->|Hx]%elem_of_insert_pq; simpl.
    + rewrite lookup_insert_eq. eexists. split; [done|apply Qle_refl].
    + destruct (Hsnd x Hx) as (d & Hd & Hle).
      destruct (decide (key x = v)) as [Ek|Nk].
      * rewrite Ek, lookup_insert_eq. eexists. split; [done|].
        apply num_lt_true in Hlt as [Hi|(dv' & Hdv' & Hlt)]; rewrite Ek in Hd; [congruence|].
        rewrite Hd in Hdv'. injection Hdv' as <-. lra.
      * rewrite lookup_insert_ne by done. eauto.
  - by left.
  - done.
  - by rewrite lookup_insert_ne.
Qed.

Lemma relax_Ok st u nb :
  is_Some (edgesById g !! nb_edgeId nb) ->
  exists st', relax g excludedColors u st nb = Ok st'.
Proof.
  intros [edge He]. unfold relax. rewrite He.
  destruct (calculateWeight edge excludedColors); [|eauto].
  destruct (dist st !! u) as [[du|]|]; [|eauto..].
  destruct (num_lt _ _); eauto.
Qed.

(** The loop over the adjacency list of [u]. *)
Lemma relax_loop_Inv pending st u l :
  Inv st u pending -> u ∈ visited st ->
  adjacency g !! u = Some l -> (forall nb, nb ∈ pending -> nb ∈ l) ->
  exists st', for_of (relax g excludedColors u) pending st = Ok st' /\
    Inv st' u [] /\ visited st' = visited st /\
    length (pq st') <= length (pq st) + length pending.
Proof.
  revert st. induction pending as [|nb pending IH]; intros st HI Hu Hl Hsub.
  - exists st. simpl. split_and!; [done..|lia].
  - destruct (relax_Ok st u nb) as [st1 H1].
    { eapply HbyId; [exact Hl|]. apply Hsub, list_elem_of_here. }
    destruct (relax_Inv st u nb pending l st1) as (HI1 & Hv1 & Hlen1); try done.
    { apply Hsub, list_elem_of_here. }
    destruct (IH st1) as (st' & Hfor & HI' & Hv' & Hlen'); try done.
    { by rewrite Hv1. }
    { intros nb' Hnb'. apply Hsub. by apply elem_of_cons; right. }
    exists st'. simpl. rewrite H1. simpl. split_and!; [done|done| |lia].
    by rewrite Hv', Hv1.
Qed.

Lemma chain_with st st' v p ep c :
  chain st v p ep c ->
  dist st' = dist st -> prev st' = prev st -> prevEdge st' = prevEdge st ->
  visited st ⊆ visited st' ->
  chain st' v p ep c.
Proof.
  intros Hc Hd Hp Hpe Hv. eapply chain_preserved; [exact Hc|done| |].
  - intros. by rewrite Hd.
  - intros. by rewrite Hp, Hpe.
Qed.

(** Taking a stale entry off the queue. *)
Lemma skip_Inv st cur u pq' :
  Inv st cur [] -> extractMin (pq st) = (Some u, pq') -> u ∈ visited st ->
  Inv (with_pq st pq') cur [] /\ S (length pq') = length (pq st).
Proof.
  intros [Hdom Hchain Hopt Hrel Hok Hcov Hsnd Hfirst Hend Hstart] Hex Hu.
  apply extractMin_Some in Hex as (min & Hk & Hmin & Hlen & Hmem & Hheap).
  split; [|done]. split; simpl; try done.
  - intros v d Hd. destruct (Hchain v d Hd) as (p & ep & Hc).
    exists p, ep. by eapply chain_with.
  - by apply Hheap.
  - intros v d Hd Hv. destruct (Hcov v d Hd Hv) as (y & Hy & Hky & Hp).
    apply Hmem in Hy as [->|Hy]; [congruence|]. eauto.
  - intros x Hx. apply Hsnd, Hmem. by right.
Qed.

(** Taking a fresh node off the queue and marking it visited: its
    adjacency list is now pending. *)
Lemma visit_Inv st cur u pq' :
  Inv st cur [] -> extractMin (pq st) = (Some u, pq') ->
  u ∉ visited st -> u <> t ->
  Inv (with_visited (with_pq st pq') u) u (default [] (adjacency g !! u)) /\
  S (length pq') = length (pq st).
Proof.
  intros HI Hex Hu Hut. pose proof HI as HI0.
  destruct HI as [Hdom Hchain Hopt Hrel Hok Hcov Hsnd Hfirst Hend Hstart].
  apply extractMin_Some in Hex as (min & Hk & Hmin & Hlen & Hmem & Hheap).
  destruct (Hheap Hok) as [Hok' Hleast].
  destruct (Hsnd min Hmin) as (du & Hdu & Hle). rewrite Hk in Hdu.
  assert (s ∈ visited st \/ u = s) as Hsu.
  { destruct Hfirst as [Hs|[He Honly]]; [by left|].
    destruct (Honly u du Hdu) as [-> _]. by right. }
  split; [|done]. split; simpl; try done.
  - intros v d Hd. destruct (Hchain v d Hd) as (p & ep & Hc).
    exists p, ep. eapply chain_with; [exact Hc|done..|]. simpl.
    apply union_subseteq_r.
  - intros x [Hxu%elem_of_singleton|Hx]%elem_of_union; [subst x|by apply Hopt].
    exists du. split; [done|]. intros c Hw.
    destruct Hfirst as [Hs|[He Honly]].
    + destruct (walk_lower_bound st cur u c HI0 Hs Hu Hw) as (y & Hy & Hyc).
      specialize (Hleast y Hy). lra.
    + destruct (Honly u du Hdu) as [-> ->]. by eapply walk_nonneg.
  - intros x nb w [Hxu%elem_of_singleton|Hx]%elem_of_union Ha.
    + subst x. left. split; [done|]. by destruct Ha as (l & e & -> & Hin & _).
    + destruct (Hrel x nb w Hx Ha) as [[_ Hin]|Hr]; [|by right].
      by apply elem_of_nil in Hin.
  - intros v d Hd Hv. apply not_elem_of_union in Hv as [Hvu Hv].
    destruct (Hcov v d Hd Hv) as (y & Hy & Hky & Hp).
    apply Hmem in Hy as [->|Hy]; [|eauto].
    rewrite Hk in Hky. subst v. exfalso. apply Hvu. by apply elem_of_singleton.
  - intros x Hx. apply Hsnd, Hmem. by right.
  - left. apply elem_of_union. destruct Hsu as [Hs| ->]; [by right|].
    left. by apply elem_of_singleton.
  - intros [Htu%elem_of_singleton|Ht]%elem_of_union; [by subst|done].
Qed.

Lemma main_loop_S fuel st :
  main_loop (S fuel) g excludedColors t st =
  if isEmpty (pq st) then Some (Ok st)
  else
    match extractMin (pq st) with
    | (None, _) => Some (Ok st)
    | (Some u, pq') =>
        if bool_decide (u = t) then Some (Ok (with_pq st pq'))
        else if bool_decide (u ∈ visited st) then
          main_loop fuel g excludedColors t (with_pq st pq')
        else
          match for_of (relax g excludedColors u) (default [] (adjacency g !! u))
                       (with_visited (with_pq st pq') u) with
          | Throw => Some Throw
          | Ok st' => main_loop fuel g excludedColors t st'
          end
    end.
Proof. reflexivity. Qed.

(** Expanding [u] takes its outgoing edges out of the potential. *)
Lemma potential_visit (V : gset string) u (es : list Edge) :
  u ∉ V ->
  length (filter (fun edge => e_source edge ∉ {[u]} ∪ V) es) +
    length (out_neighbors es u) =
  length (filter (fun edge => e_source edge ∉ V) es).
Proof.
  intros Hu. unfold out_neighbors. rewrite length_fmap.
  induction es as [|edge es IH]; [done|].
  rewrite !filter_cons. destruct (decide (e_source edge = u)) as [Heq|Hne].
  - rewrite decide_False, decide_True; [|by rewrite Heq|].
    + simpl. lia.
    + rewrite Heq. intros Hn. apply Hn, elem_of_union. left. by apply elem_of_singleton.
  - destruct (decide (e_source edge ∉ V)) as [Hv|Hv].
    + rewrite decide_True; [simpl; lia|].
      intros [Hx%elem_of_singleton|Hx]%elem_of_union; done.
    + rewrite decide_False; [done|].
      intros Hn. apply Hv. intros Hx. apply Hn, elem_of_union. by right.
Qed.

(** The main loop, started in a state that satisfies the invariant, comes
    to an end within [potential + 1] iterations, without throwing, in a
    state that satisfies the postcondition. *)
Lemma main_loop_Post fuel st cur :
  Inv st cur [] -> potential g st < fuel ->
  exists st', main_loop fuel g excludedColors t st = Some (Ok st') /\ Post st'.
Proof.
  revert st cur. induction fuel as [|fuel IH]; intros st cur HI Hfuel; [lia|].
  rewrite main_loop_S. unfold isEmpty. case_bool_decide as Hempty.
  { (* the queue is exhausted *)
    exists st. split; [done|].
    apply nil_length_inv in Hempty.
    pose proof HI as [Hdom Hchain Hopt Hrel Hok Hcov Hsnd Hfirst Hend Hstart].
    assert (forall v d, dist st !! v = Some (Fin d) -> v ∈ visited st) as Hall.
    { intros v d Hd. destruct (decide (v ∈ visited st)) as [|Hv]; [done|].
      destruct (Hcov v d Hd Hv) as (y & Hy & _). rewrite Hempty in Hy.
      by apply elem_of_nil in Hy. }
    split; try done.
    - intros d Hd. by apply Hall in Hd.
    - intros c Hw. exfalso. destruct Hstart as [d0 Hd0].
      destruct (walk_lower_bound st cur t c HI (Hall _ _ Hd0) Hend Hw) as (y & Hy & _).
      rewrite Hempty in Hy. by apply elem_of_nil in Hy. }
  destruct (extractMin (pq st)) as [[u|] pq'] eqn:Hex.
  2:{ apply extractMin_None in Hex. by rewrite Hex in Hempty. }
  case_bool_decide as Hut.
  { (* the end node is taken off the queue *)
    exists (with_pq st pq'). split; [done|].
    pose proof HI as [Hdom Hchain Hopt Hrel Hok Hcov Hsnd Hfirst Hend Hstart].
    apply extractMin_Some in Hex as (min & Hk & Hmin & Hlen & Hmem & Hheap).
    destruct (Hheap Hok) as [Hok' Hleast].
    destruct (Hsnd min Hmin) as (du & Hdu & Hle). rewrite Hk, Hut in Hdu.
    split; simpl; try done.
    - intros v d Hd. destruct (Hchain v d Hd) as (p & ep & Hc).
      exists p, ep. by eapply chain_with.
    - intros d Hd c Hw. rewrite Hdu in Hd. injection Hd as <-.
      destruct Hfirst as [Hs|[He Honly]].
      + destruct (walk_lower_bound st cur t c HI Hs Hend Hw) as (y & Hy & Hyc).
        specialize (Hleast y Hy). lra.
      + destruct (Honly t du Hdu) as [Hts _]. by subst.
    - intros c _. eauto. }
  case_bool_decide as Huv.
  { (* a stale entry *)
    destruct (skip_Inv st cur u pq' HI Hex Huv) as [HI' Hlen].
    apply (IH _ cur HI'). unfold potential in *. simpl. lia. }
  (* a fresh node is expanded *)
  destruct (visit_Inv st cur u pq' HI Hex Huv Hut) as [HI1 Hlen].
  pose proof (potential_visit (visited st) u (edges g) Huv) as Hpot.
  destruct (adjacency g !! u) as [l|] eqn:Hl; simpl in *.
  - destruct (relax_loop_Inv l (with_visited (with_pq st pq') u) u l)
      as (st2 & Hfor & HI2 & Hv2 & Hlen2); try done.
    { simpl. apply elem_of_union. left. by apply elem_of_singleton. }
    rewrite Hfor. apply (IH _ u HI2).
    unfold potential in *. rewrite Hv2. simpl in *.
    rewrite (Hadj u l Hl) in Hlen2. lia.
  - apply (IH _ u HI1). unfold potential in *. simpl. lia.
Qed.

(** The tables set up before the loop satisfy the invariant. *)
Lemma init_Inv cur : Inv (init_search g s) cur [].
Proof.
  assert (forall v d, dist (init_search g s) !! v = Some (Fin d) -> v = s /\ d = 0%Q) as Honly.
  { simpl. intros v d. destruct (decide (v = s)) as [->|Hv].
    - rewrite lookup_insert_eq. by intros [= <-].
    - rewrite lookup_insert_ne, lookup_fmap by done.
      by destruct (nodes g !! v). }
  split.
  - simpl. intros v. unfold known. destruct (decide (v = s)) as [->|Hv].
    + rewrite lookup_insert_eq. split; eauto.
    + rewrite lookup_insert_ne, lookup_fmap by done.
      rewrite fmap_is_Some. split; [by right|]. by intros [|].
  - intros v d Hd. destruct (Honly v d Hd) as [-> ->]. eexists _, _. constructor.
  - intros u Hu. by apply not_elem_of_empty in Hu.
  - intros x nb w Hx. by apply not_elem_of_empty in Hx.
  - simpl. apply insert_pq_ok. intros j Hj x y Hx. by destruct j.
  - intros v d Hd _. destruct (Honly v d Hd) as [-> ->].
    eexists. split; [apply elem_of_insert_pq; by left|done].
  - simpl. intros x [->|Hx]%elem_of_insert_pq; [|by apply elem_of_nil in Hx].
    simpl. rewrite lookup_insert_eq. eexists. split; [done|apply Qle_refl].
  - by right.
  - simpl. apply not_elem_of_empty.
  - simpl. rewrite lookup_insert_eq. eauto.
Qed.

Lemma potential_init : potential g (init_search g s) <= S (length (edges g)).
Proof.
  unfold potential. change (pq (init_search g s)) with (insert_pq [] s 0).
  rewrite length_insert_pq. simpl. apply le_n_S, length_filter.
Qed.

(** The main loop of a call comes to an end. *)
Lemma main_loop_init :
  exists st', main_loop (S (S (length (edges g)))) g excludedColors t (init_search g s)
                = Some (Ok st') /\ Post st'.
Proof.
  apply (main_loop_Post _ _ s); [apply init_Inv|]. pose proof potential_init. lia.
Qed.

(** The reconstruction loop follows a chain to its start. *)
Lemma reconstruct_chain st v p ep c fuel accp acce :
  chain st v p ep c -> length p <= fuel ->
  reconstruct fuel (prev st) (prevEdge st) s (Some v) accp acce =
    Some ((Some <$> p) ++ accp, (Some <$> ep) ++ acce).
Proof.
  intros Hc. revert fuel accp acce.
  induction Hc as [|v u nb w p ep c Hne Hp Hpe Ht Ha Hu Hdu _ IH];
    intros fuel accp acce Hfuel.
  - destruct fuel as [|fuel]; [simpl in Hfuel; lia|]. simpl.
    by rewrite bool_decide_eq_false_2 by (by intros H; apply H).
  - rewrite length_app in Hfuel. simpl in Hfuel.
    destruct fuel as [|fuel]; [lia|]. simpl.
    rewrite bool_decide_eq_true_2 by congruence.
    rewrite Hp, Hpe, IH by lia.
    by rewrite !fmap_app, <- !app_assoc.
Qed.

End Search.

(** ** More fuel changes nothing *)

Lemma main_loop_fuel_mono n m g excludedColors t st r :
  main_loop n g excludedColors t st = Some r -> n <= m ->
  main_loop m g excludedColors t st = Some r.
Proof.
  revert m st. induction n as [|n IH]; intros m st H Hnm; [discriminate|].
  destruct m as [|m]; [lia|]. simpl in *.
  destruct (isEmpty (pq st)); [done|].
  destruct (extractMin (pq st)) as [[u|] pq']; [|done].
  destruct (bool_decide (u = t)); [done|].
  destruct (bool_decide (u ∈ visited st)); [apply IH; [done|lia]|].
  destruct (for_of _ _ _); [apply IH; [done|lia]|done].
Qed.

Lemma reconstruct_fuel_mono n m prev0 prevEdge0 s current path0 edgePath r :
  reconstruct n prev0 prevEdge0 s current path0 edgePath = Some r -> n <= m ->
  reconstruct m prev0 prevEdge0 s current path0 edgePath = Some r.
Proof.
  revert m current path0 edgePath.
  induction n as [|n IH]; intros m current path0 edgePath H Hnm; [discriminate|].
  destruct m as [|m]; [lia|]. simpl in *.
  destruct (bool_decide (current <> Some s)); [apply IH; [done|lia]|done].
Qed.

Lemma findRoute_fuel_mono n m g s t excludedColors o :
  findRoute n g s t excludedColors = Some o -> n <= m ->
  findRoute m g s t excludedColors = Some o.
Proof.
  unfold findRoute. intros H Hnm. destruct (bool_decide (s = t)); [done|].
  destruct (main_loop n _ _ _ _) as [r|] eqn:Hm; [|discriminate].
  rewrite (main_loop_fuel_mono n m _ _ _ _ r Hm Hnm).
  destruct r as [st|]; [|done].
  destruct (dist st !! t) as [[d|]|]; [|done|].
  - destruct (reconstruct n _ _ _ _ _ _) as [[p ep]|] eqn:Hr; [|discriminate].
    by rewrite (reconstruct_fuel_mono n m _ _ _ _ _ _ _ Hr Hnm).
  - destruct (reconstruct n _ _ _ _ _ _) as [[p ep]|] eqn:Hr; [|discriminate].
    by rewrite (reconstruct_fuel_mono n m _ _ _ _ _ _ _ Hr Hnm).
Qed.

(** A call has one outcome at most. *)
Lemma returns_unique g s t excludedColors o1 o2 :
  returns g s t excludedColors o1 -> returns g s t excludedColors o2 -> o1 = o2.
Proof.
  intros [n1 H1] [n2 H2].
  apply (findRoute_fuel_mono _ (n1 `max` n2)) in H1; [|lia].
  apply (findRoute_fuel_mono _ (n1 `max` n2)) in H2; [|lia].
  congruence.
Qed.

(** ** Constructed graphs meet the assumptions of the search *)

#[local] Arguments new_SkiGraph : simpl never.

Lemma new_SkiGraph_adjacency graphData u l :
  adjacency (new_SkiGraph graphData) !! u = Some l ->
  l = out_neighbors (edges (new_SkiGraph graphData)) u.
Proof.
  rewrite adjacency_new_SkiGraph. simpl.
  destruct (gd_nodes graphData !! u); simpl; congruence.
Qed.

Lemma edgesById_foldl_is_Some es (m : gmap string Edge) i :
  is_Some (m !! i) \/ i ∈ e_id <$> es ->
  is_Some (foldl (fun m edge => <[e_id edge := edge]> m) m es !! i).
Proof.
  revert m. induction es as [|e es IH]; intros m H; simpl.
  - destruct H as [H|H]; [done|]. by apply elem_of_nil in H.
  - apply IH. destruct (decide (e_id e = i)) as [<-|Hne].
    + left. rewrite lookup_insert_eq. eauto.
    + rewrite lookup_insert_ne by done.
      destruct H as [H|H]; [by left|]. right.
      simpl in H. apply elem_of_cons in H as [H|H]; [congruence|done].
Qed.

Lemma edgesById_is_Some graphData edge :
  edge ∈ gd_edges graphData ->
  is_Some (edgesById (new_SkiGraph graphData) !! e_id edge).
Proof.
  intros H. apply edgesById_foldl_is_Some. right. by apply list_elem_of_fmap_2.
Qed.

(** With unique identifiers an edge is filed under its id. *)
Lemma edgesById_unique graphData edge :
  unique_edge_ids graphData -> edge ∈ gd_edges graphData ->
  edgesById (new_SkiGraph graphData) !! e_id edge = Some edge.
Proof.
  intros Hu He. destruct (edgesById_is_Some graphData edge He) as [e' He'].
  rewrite He'. f_equal. apply edgesById_elem in He' as [Hin Hid].
  unfold unique_edge_ids in Hu.
  apply list_elem_of_lookup in Hin as [i Hi]. apply list_elem_of_lookup in He as [j Hj].
  assert (i = j) as ->; [|congruence].
  eapply NoDup_lookup; [exact Hu| |]; rewrite list_lookup_fmap.
  - by rewrite Hi.
  - rewrite Hj. simpl. by rewrite Hid.
Qed.

Lemma out_neighbors_elem es u nb :
  nb ∈ out_neighbors es u <->
  exists edge, edge ∈ es /\ e_source edge = u /\
    nb = {| nb_target := e_target edge; nb_edgeId := e_id edge |}.
Proof.
  unfold out_neighbors. rewrite list_elem_of_fmap. split.
  - intros (edge & -> & [Hs Hin]%list_elem_of_filter). eauto.
  - intros (edge & Hin & Hs & ->). exists edge. split; [done|].
    by apply list_elem_of_filter.
Qed.

Lemma new_SkiGraph_byId graphData u l nb :
  adjacency (new_SkiGraph graphData) !! u = Some l -> nb ∈ l ->
  is_Some (edgesById (new_SkiGraph graphData) !! nb_edgeId nb).
Proof.
  intros Hl Hnb. apply new_SkiGraph_adjacency in Hl as ->.
  apply out_neighbors_elem in Hnb as (edge & Hin & _ & ->). simpl.
  by apply edgesById_is_Some.
Qed.

Lemma slope_speeds_pos d v : slope_speeds d = Some v -> (0 < v)%Q.
Proof.
  unfold slope_speeds. repeat case_match; intros [= <-]; reflexivity.
Qed.

Lemma lift_speeds_pos d v : lift_speeds d = Some v -> (0 < v)%Q.
Proof.
  unfold lift_speeds. repeat case_match; intros [= <-]; reflexivity.
Qed.

Lemma Qdiv_nonneg x v : (0 <= x)%Q -> (0 < v)%Q -> (0 <= x / v)%Q.
Proof. intros Hx Hv. apply Qle_shift_div_l; [done|]. lra. Qed.

(** A finite cost of an edge of non-negative length is not negative. *)
Lemma calculateWeight_nonneg edge excludedColors w :
  (0 <= e_distance edge)%Q -> calculateWeight edge excludedColors = Fin w -> (0 <= w)%Q.
Proof.
  intros Hd. unfold calculateWeight.
  destruct ((e_type edge =? "slope") && has excludedColors (e_difficulty edge)); [done|].
  destruct (e_type edge =? "slope").
  { intros [= <-]. apply Qdiv_nonneg; [done|].
    destruct (slope_speeds _) as [v|] eqn:E; simpl; [by eapply slope_speeds_pos|reflexivity]. }
  destruct (e_type edge =? "lift").
  { intros [= <-].
    assert (0 <= e_distance edge / default 150 (lift_speeds (js_key (e_liftType edge))))%Q.
    { apply Qdiv_nonneg; [done|].
      destruct (lift_speeds _) as [v|] eqn:E; simpl; [by eapply lift_speeds_pos|reflexivity]. }
    lra. }
  intros [= <-]. apply Qdiv_nonneg; [done|reflexivity].
Qed.

Lemma new_SkiGraph_nonneg graphData excludedColors i edge w :
  nonneg_distances graphData ->
  edgesById (new_SkiGraph graphData) !! i = Some edge ->
  calculateWeight edge excludedColors = Fin w -> (0 <= w)%Q.
Proof.
  intros Hnn He. apply calculateWeight_nonneg.
  apply edgesById_elem in He as [Hin _].
  unfold nonneg_distances in Hnn. rewrite Forall_forall in Hnn. by apply Hnn.
Qed.

(** ** Taking a returned route apart *)

Lemma build_route_Found g excludedColors path0 edgePath route :
  build_route g excludedColors path0 edgePath = Found route ->
  exists steps0 profile,
    map_throw (make_step g excludedColors) edgePath = Ok steps0 /\
    _buildElevationProfile g path0 steps0 = Ok profile /\
    path route = path0 /\ steps route = steps0 /\
    elevationProfile route = profile /\
    totalDistance (summary route) = Math_round (t_distance (totals steps0)) /\
    totalTime (summary route) = num_round (t_time (totals steps0)) /\
    stepCount (summary route) = length steps0.
Proof.
  unfold build_route. intros H.
  destruct (map_throw _ edgePath) as [steps0|] eqn:E1; [|discriminate].
  destruct (_buildElevationProfile g path0 steps0) as [profile|] eqn:E2; [|discriminate].
  injection H as <-. exists steps0, profile. by repeat split.
Qed.

Lemma findRoute_Found fuel g startNodeId endNodeId excludedColors route :
  findRoute fuel g startNodeId endNodeId excludedColors = Some (Found route) ->
  startNodeId <> endNodeId /\
  exists st path0 edgePath,
    main_loop fuel g excludedColors endNodeId (init_search g startNodeId) = Some (Ok st) /\
    dist st !! endNodeId <> Some Inf /\
    reconstruct fuel (prev st) (prevEdge st) startNodeId (Some endNodeId) [] []
      = Some (path0, edgePath) /\
    build_route g excludedColors path0 edgePath = Found route.
Proof.
  unfold findRoute. intros H. case_bool_decide as Hne; [discriminate|].
  split; [done|].
  destruct (main_loop _ _ _ _ _) as [[st|]|] eqn:Em; [|discriminate..].
  exists st.
  destruct (reconstruct _ _ _ _ _ _ _) as [[path0 edgePath]|] eqn:Er.
  - exists path0, edgePath. split; [done|].
    destruct (dist st !! endNodeId) as [[|]|]; try discriminate;
      (split; [discriminate|]); split; (done || congruence).
  - destruct (dist st !! endNodeId) as [[|]|]; discriminate.
Qed.

Lemma make_step_Ok graphData excludedColors edgeId step :
  make_step (new_SkiGraph graphData) excludedColors edgeId = Ok step ->
  exists edge, edge ∈ gd_edges graphData /\ e_id edge = js_key edgeId /\
    s_edgeId step = e_id edge /\
    s_distance step = e_distance edge /\
    s_sourceNode step = e_source edge /\ s_targetNode step = e_target edge /\
    s_estimatedMinutes step = round1 (calculateWeight edge excludedColors).
Proof.
  unfold make_step. intros H.
  destruct (edgesById _ !! _) as [edge|] eqn:E; [|discriminate].
  injection H as <-. apply edgesById_elem in E as [E1 E2].
  exists edge. by repeat split.
Qed.

(** ** From a chain to a returned route *)

Lemma chain_head g excludedColors s st v p ep c :
  chain g excludedColors s st v p ep c -> exists p', p = s :: p'.
Proof.
  induction 1 as [|v u nb w p ep c _ _ _ _ _ _ _ _ [p' ->]]; [by exists []|].
  by exists (p' ++ [v]).
Qed.

Lemma chain_edge_ids g excludedColors s st v p ep c :
  chain g excludedColors s st v p ep c ->
  Forall (fun eid => exists edge w, edgesById g !! eid = Some edge /\
            calculateWeight edge excludedColors = Fin w) ep.
Proof.
  induction 1 as [|v u nb w p ep c _ _ _ _ Ha _ _ _ IH]; [constructor|].
  apply Forall_app. split; [done|]. constructor; [|constructor].
  destruct Ha as (l & edge & _ & _ & He & Hw & _). eauto.
Qed.

Lemma profile_step_Ok g acc step :
  is_Some (nodes g !! s_sourceNode step) -> is_Some (nodes g !! s_targetNode step) ->
  exists acc', profile_step g acc step = Ok acc'.
Proof.
  intros [n1 H1] [n2 H2]. destruct acc as [points cum].
  unfold profile_step. rewrite H1, H2.
  destruct (s_geometry step) as [geometry|]; simpl; [|eauto].
  destruct (bool_decide (2 < length geometry)); simpl; eauto.
Qed.

Lemma profile_loop_Ok g steps0 acc :
  Forall (fun step => is_Some (nodes g !! s_sourceNode step) /\
                      is_Some (nodes g !! s_targetNode step)) steps0 ->
  exists acc', for_of (profile_step g) steps0 acc = Ok acc'.
Proof.
  intros H. revert acc. induction H as [|step steps0 [H1 H2] _ IH]; intros acc.
  - by exists acc.
  - destruct (profile_step_Ok g acc step H1 H2) as [acc1 E].
    simpl. rewrite E. simpl. apply IH.
Qed.

(** The route is assembled without a throw when the edge ids on the path
    name edges between existing nodes and the start exists. *)
Lemma build_route_Ok g excludedColors s rest ep :
  is_Some (nodes g !! s) ->
  Forall (fun eid => exists edge, edgesById g !! eid = Some edge /\
            is_Some (nodes g !! e_source edge) /\
            is_Some (nodes g !! e_target edge)) ep ->
  exists route, build_route g excludedColors (Some s :: rest) (Some <$> ep) = Found route.
Proof.
  intros [n0 Hs] Hep. unfold build_route.
  assert (exists steps0, map_throw (make_step g excludedColors) (Some <$> ep) = Ok steps0 /\
            Forall (fun step => is_Some (nodes g !! s_sourceNode step) /\
                                is_Some (nodes g !! s_targetNode step)) steps0)
    as (steps0 & -> & Hsteps).
  { induction Hep as [|eid ep (edge & He & H1 & H2) _ (steps0 & IH1 & IH2)].
    - exists []. by split; [|constructor].
    - rewrite fmap_cons, map_throw_cons, IH1. unfold make_step. simpl. rewrite He. simpl.
      eexists. split; [reflexivity|]. by constructor. }
  unfold _buildElevationProfile. simpl. rewrite Hs.
  destruct (profile_loop_Ok g steps0
    ([{| p_distance := 0; p_elevation := ele n0; p_nodeId := Some s; p_isNode := true;
         p_type := None; p_difficulty := None |}], 0%Q) Hsteps) as [acc' ->].
  simpl. eauto.
Qed.

(** ** Paths in the input and what the search sees *)

Lemma cost_of_finite excludedColors edge w :
  finite_cost excludedColors edge w -> cost_of excludedColors edge = w.
Proof. unfold finite_cost, cost_of. by intros ->. Qed.

Lemma path_cost_snoc excludedColors es edge :
  (path_cost excludedColors (es ++ [edge]) ==
   path_cost excludedColors es + cost_of excludedColors edge)%Q.
Proof.
  induction es as [|e es IH]; simpl; [lra|]. rewrite IH. lra.
Qed.

Lemma edge_path_snoc graphData excludedColors a b es edge w :
  edge_path graphData excludedColors a b es ->
  edge ∈ gd_edges graphData -> e_source edge = b ->
  finite_cost excludedColors edge w ->
  edge_path graphData excludedColors a (e_target edge) (es ++ [edge]).
Proof.
  intros Hp Hin Hs Hw. induction Hp as [a|a b e w' es He Hse Hwe _ IH]; simpl.
  - econstructor; [done|done|done|constructor].
  - econstructor; [done|done|done|]. by apply IH.
Qed.

(** The nodes along a path: the step at position [i] leads from the node at
    position [i] to the node at position [i + 1], and the last node is the
    end of the path. *)
Lemma edge_path_nodes graphData excludedColors a b es :
  edge_path graphData excludedColors a b es ->
  last (a :: (e_target <$> es)) = Some b /\
  forall i edge, es !! i = Some edge ->
    (a :: (e_target <$> es)) !! i = Some (e_source edge) /\
    (a :: (e_target <$> es)) !! S i = Some (e_target edge).
Proof.
  induction 1 as [a|a b e w es He Hse Hwe _ [IH1 IH2]]; [by split|].
  split.
  - rewrite fmap_cons, last_cons_cons. exact IH1.
  - intros [|i] edge Hi; simpl in Hi.
    + injection Hi as <-. by rewrite Hse.
    + apply IH2 in Hi as [H1 H2]. by split.
Qed.

(** An arc of the search is an edge of the input, when identifiers are
    unique. *)
Lemma arc_edge graphData excludedColors s u nb w :
  unique_edge_ids graphData ->
  arc (new_SkiGraph graphData) excludedColors s u nb w ->
  exists edge, edge ∈ gd_edges graphData /\ e_source edge = u /\
    e_target edge = nb_target nb /\ e_id edge = nb_edgeId nb /\
    edgesById (new_SkiGraph graphData) !! nb_edgeId nb = Some edge /\
    finite_cost excludedColors edge w.
Proof.
  intros Hu (l & edge & Hl & Hnb & He & Hw & _).
  apply new_SkiGraph_adjacency in Hl as ->.
  apply out_neighbors_elem in Hnb as (e' & Hin & Hs & ->). cbn [nb_edgeId nb_target] in *.
  rewrite (edgesById_unique _ _ Hu Hin) in He. injection He as <-.
  exists e'. split_and!; try done. by apply edgesById_unique.
Qed.

(** An edge of the input is an arc of the search, when identifiers are
    unique and the end points exist. *)
Lemma edge_arc graphData excludedColors s edge w :
  unique_edge_ids graphData -> edges_in_nodes graphData ->
  edge ∈ gd_edges graphData -> finite_cost excludedColors edge w ->
  arc (new_SkiGraph graphData) excludedColors s (e_source edge)
      {| nb_target := e_target edge; nb_edgeId := e_id edge |} w.
Proof.
  intros Hu Hin He Hw.
  unfold edges_in_nodes in Hin. rewrite Forall_forall in Hin.
  destruct (Hin edge He) as [[n1 Hs] Ht].
  exists (out_neighbors (gd_edges graphData) (e_source edge)), edge. split_and!.
  - rewrite adjacency_new_SkiGraph, Hs. done.
  - apply out_neighbors_elem. by exists edge.
  - by apply edgesById_unique.
  - done.
  - by right.
Qed.

Lemma walk_of_edge_path graphData excludedColors s a b es c :
  unique_edge_ids graphData -> edges_in_nodes graphData ->
  edge_path graphData excludedColors a b es ->
  walk (new_SkiGraph graphData) excludedColors s a c ->
  exists c', walk (new_SkiGraph graphData) excludedColors s b c' /\
    (c' == c + path_cost excludedColors es)%Q.
Proof.
  intros Hu Hin Hp. revert c.
  induction Hp as [a|a b e w es He Hse Hwe _ IH]; intros c Hw.
  - exists c. split; [done|]. simpl. lra.
  - destruct (IH (c + w)%Q) as (c' & Hw' & Hc').
    { subst a. by apply (walk_arc _ _ _ _ _ _ _ Hw (edge_arc _ _ s _ _ Hu Hin He Hwe)). }
    exists c'. split; [done|]. simpl. rewrite (cost_of_finite _ _ _ Hwe). lra.
Qed.

(** A chain of predecessor links is a path of the input, of the cost the
    chain records. *)
Lemma chain_edge_path graphData excludedColors s st v p ep c :
  unique_edge_ids graphData ->
  chain (new_SkiGraph graphData) excludedColors s st v p ep c ->
  exists es, edge_path graphData excludedColors s v es /\
    (path_cost excludedColors es == c)%Q /\
    p = s :: (e_target <$> es) /\
    ep = e_id <$> es.
Proof.
  intros Hu. induction 1 as [|v u nb w p ep c _ _ _ Ht Ha _ _ _ (es & Hp & Hc & -> & ->)].
  - exists []. split_and!; [constructor|reflexivity|done|done].
  - apply arc_edge in Ha as (edge & Hin & Hs & Hte & Hid & _ & Hw); [|done].
    exists (es ++ [edge]). split_and!.
    + rewrite <- Ht, <- Hte. by eapply edge_path_snoc.
    + rewrite path_cost_snoc, Hc, (cost_of_finite _ _ _ Hw). reflexivity.
    + rewrite fmap_app. simpl. by rewrite <- Ht, Hte.
    + rewrite fmap_app. simpl. by rewrite Hid.
Qed.

(** ** Termination *)

(** What a call between two different nodes ends with, on a graph whose
    edges join keys of the node map and have non-negative distances: the
    main loop stops in a state that satisfies the postcondition, and the
    call returns [no_route] if the end is still at distance [Infinity], a
    route otherwise. *)
Lemma findRoute_outcome graphData startNodeId endNodeId excludedColors :
  edges_in_nodes graphData -> nonneg_distances graphData ->
  is_Some (gd_nodes graphData !! startNodeId) ->
  is_Some (gd_nodes graphData !! endNodeId) ->
  startNodeId <> endNodeId ->
  exists st, Post (new_SkiGraph graphData) excludedColors startNodeId endNodeId st /\
    ((dist st !! endNodeId = Some Inf /\
      returns (new_SkiGraph graphData) startNodeId endNodeId excludedColors
        (Error no_route)) \/
     (exists d route, dist st !! endNodeId = Some (Fin d) /\
        returns (new_SkiGraph graphData) startNodeId endNodeId excludedColors
          (Found route))).
Proof.
  intros Hin Hnn Hs Ht Hne. set (g := new_SkiGraph graphData).
  destruct (main_loop_init g excludedColors startNodeId endNodeId Hne
              (new_SkiGraph_adjacency graphData) (new_SkiGraph_byId graphData)
              (fun i edge w => new_SkiGraph_nonneg graphData excludedColors i edge w Hnn))
    as (st & Hloop & HP).
  exists st. split; [done|].
  destruct (post_dom _ _ _ _ _ HP endNodeId) as [_ Hk].
  destruct Hk as [d Hd]; [by right|].
  destruct d as [d|].
  - right. destruct (post_chain _ _ _ _ _ HP _ _ Hd) as (p & ep & Hc).
    destruct (chain_head _ _ _ _ _ _ _ _ Hc) as [p' ->].
    destruct (build_route_Ok g excludedColors startNodeId (Some <$> p') ep Hs) as [route Hr].
    { eapply Forall_impl; [by eapply chain_edge_ids|]. simpl.
      intros eid (edge & w & He & _). exists edge. split; [done|].
      apply edgesById_elem in He as [He _].
      unfold edges_in_nodes in Hin. rewrite Forall_forall in Hin. by apply Hin. }
    exists d, route. split; [done|].
    exists (S (S (length (edges g))) `max` length (startNodeId :: p')).
    unfold findRoute. rewrite bool_decide_eq_false_2 by done.
    erewrite main_loop_fuel_mono; [|exact Hloop|lia].
    cbv beta iota. rewrite Hd.
    erewrite (reconstruct_chain g excludedColors startNodeId); [|exact Hc|lia].
    rewrite !app_nil_r. by rewrite <- Hr.
  - left. split; [done|].
    exists (S (S (length (edges g)))).
    unfold findRoute. rewrite bool_decide_eq_false_2 by done.
    rewrite Hloop. cbv beta iota. by rewrite Hd.
Qed.

(** C10: on a graph whose edges join keys of the node map and have
    non-negative distances (the invariants of the data model), a call
    between two keys of the node map comes to an end: both loops stop, and
    the call returns [same_location], [no_route] or a route, without
    throwing. *)
Theorem findRoute_terminates graphData startNodeId endNodeId excludedColors :
  edges_in_nodes graphData -> nonneg_distances graphData ->
  is_Some (gd_nodes graphData !! startNodeId) ->
  is_Some (gd_nodes graphData !! endNodeId) ->
  exists o,
    returns (new_SkiGraph graphData) startNodeId endNodeId excludedColors o /\
    o <> Threw.
Proof.
  intros Hin Hnn Hs Ht.
  destruct (decide (startNodeId = endNodeId)) as [Heq|Hne].
  { exists (Error same_location). split; [|discriminate].
    exists 0. unfold findRoute. by rewrite bool_decide_eq_true_2. }
  destruct (findRoute_outcome graphData startNodeId endNodeId excludedColors
              Hin Hnn Hs Ht Hne) as (st & _ & [[_ Hr]|(d & route & _ & Hr)]).
  - exists (Error no_route). by split.
  - exists (Found route). by split.
Qed.

Lemma findRoute_terminates_witness :
  exists o, returns (new_SkiGraph fraction_data) "A" "B" ∅ o /\ o <> Threw.
Proof.
  apply (findRoute_terminates fraction_data "A" "B" ∅).
  - repeat constructor; by eexists.
  - repeat constructor. unfold Qle. simpl. lia.
  - by eexists.
  - by eexists.
Defined.

(** ** The anatomy of a returned route *)

Lemma edge_path_elem graphData excludedColors a b es :
  edge_path graphData excludedColors a b es ->
  Forall (fun edge => edge ∈ gd_edges graphData) es.
Proof. induction 1; by constructor. Qed.

Lemma edge_path_finite graphData excludedColors a b es :
  edge_path graphData excludedColors a b es ->
  Forall (fun edge => exists w, finite_cost excludedColors edge w) es.
Proof. induction 1; constructor; eauto. Qed.

Lemma make_step_unique graphData excludedColors edge step :
  unique_edge_ids graphData -> edge ∈ gd_edges graphData ->
  make_step (new_SkiGraph graphData) excludedColors (Some (e_id edge)) = Ok step ->
  s_edgeId step = e_id edge /\ s_sourceNode step = e_source edge /\
  s_targetNode step = e_target edge /\ s_distance step = e_distance edge /\
  s_estimatedMinutes step = round1 (calculateWeight edge excludedColors).
Proof.
  intros Hu Hin. unfold make_step. simpl js_key.
  rewrite (edgesById_unique _ _ Hu Hin). by intros [= <-].
Qed.

(** A returned route, on a graph with unique edge identifiers and
    non-negative distances and for an end that is a key of the node map:
    the main loop left the end at a finite distance [d]; the path lists
    the nodes of a directed path of the input from the start to the end,
    of cost [d]; the steps are made from the edges of that path, in order,
    and these are the edges the route traverses. *)
Lemma route_anatomy graphData s t excludedColors route :
  unique_edge_ids graphData -> nonneg_distances graphData ->
  is_Some (gd_nodes graphData !! t) ->
  returns (new_SkiGraph graphData) s t excludedColors (Found route) ->
  exists st d es,
    Post (new_SkiGraph graphData) excludedColors s t st /\
    dist st !! t = Some (Fin d) /\
    edge_path graphData excludedColors s t es /\
    (path_cost excludedColors es == d)%Q /\
    path route = Some <$> (s :: (e_target <$> es)) /\
    Forall2 (fun edge step =>
               make_step (new_SkiGraph graphData) excludedColors (Some (e_id edge)) = Ok step)
            es (steps route) /\
    traversed (new_SkiGraph graphData) route = es.
Proof.
  intros Hu Hnn Ht [fuel Hf]. set (g := new_SkiGraph graphData) in *.
  apply findRoute_Found in Hf as (Hne & st & path0 & edgePath & Hloop & Hd & Hrec & Hb).
  destruct (main_loop_init g excludedColors s t Hne
              (new_SkiGraph_adjacency graphData) (new_SkiGraph_byId graphData)
              (fun i edge w => new_SkiGraph_nonneg graphData excludedColors i edge w Hnn))
    as (st' & Hloop' & HP).
  assert (st' = st) as ->.
  { apply (main_loop_fuel_mono _ (fuel `max` S (S (length (edges g))))) in Hloop; [|lia].
    apply (main_loop_fuel_mono _ (fuel `max` S (S (length (edges g))))) in Hloop'; [|lia].
    congruence. }
  destruct (post_dom _ _ _ _ _ HP t) as [_ Hk].
  destruct Hk as [[d|] Hdt]; [by right| |done].
  destruct (post_chain _ _ _ _ _ HP _ _ Hdt) as (p & ep & Hc).
  pose proof (reconstruct_chain g excludedColors s st t p ep d
                (fuel `max` length p) [] [] Hc) as Hrec'.
  apply (reconstruct_fuel_mono _ (fuel `max` length p)) in Hrec; [|lia].
  rewrite Hrec' in Hrec by lia. rewrite !app_nil_r in Hrec. injection Hrec as <- <-.
  destruct (chain_edge_path _ _ _ _ _ _ _ _ Hu Hc) as (es & Hp & Hcost & -> & ->).
  apply build_route_Found in Hb as (steps0 & profile & Hsteps & _ & Hpath & Hst & _).
  apply map_throw_Forall2 in Hsteps. rewrite <- list_fmap_compose in Hsteps.
  apply Forall2_fmap_l in Hsteps.
  exists st, d, es. split_and!; try done.
  - by rewrite Hst.
  - unfold traversed. rewrite Hst.
    pose proof (edge_path_elem _ _ _ _ _ Hp) as Hel.
    subst g. clear -Hsteps Hel Hu. induction Hsteps as [|edge step es steps0 H1 _ IH]; [done|].
    apply Forall_cons in Hel as [Hin Hel].
    destruct (make_step_unique _ _ _ _ Hu Hin H1) as (Hid & _).
    cbn [omap list_omap]. rewrite Hid, (edgesById_unique _ _ Hu Hin).
    f_equal. by apply IH.
Qed.

(** ** The predecessor links, whatever the weights *)

Section Links.

Variables (g : SkiGraph) (excludedColors : gset string) (s : string).

#[local] Abbreviation arc := (arc g excludedColors s).
#[local] Abbreviation Linked := (Linked g excludedColors s).

Lemma Linked_ext st st' :
  Linked st -> dist st' = dist st -> prev st' = prev st ->
  prevEdge st' = prevEdge st -> Linked st'.
Proof.
  intros [H1 H2 H3] Hd Hp Hpe. split; rewrite ?Hd, ?Hp, ?Hpe; done.
Qed.

Lemma relax_Linked st u nb l st' :
  Linked st -> adjacency g !! u = Some l -> nb ∈ l ->
  relax g excludedColors u st nb = Ok st' -> Linked st'.
Proof.
  intros HL Hl Hnb. pose proof HL as [Hdom Hprev Hdist]. unfold relax.
  destruct (edgesById g !! nb_edgeId nb) as [edge|] eqn:He; [|discriminate].
  destruct (calculateWeight edge excludedColors) as [w|] eqn:Hw; [|by intros [= <-]].
  destruct (dist st !! u) as [[du|]|] eqn:Hdu; [|by intros [= <-]..].
  destruct (num_lt (Fin (du + w)) (dist st !! nb_target nb)) eqn:Hlt; [|by intros [= <-]].
  set (v := nb_target nb) in *.
  assert (is_Some (dist st !! v)) as Hsome.
  { apply num_lt_true in Hlt as [->|(dv & -> & _)]; eauto. }
  assert (arc u nb w) as Harc.
  { exists l, edge. split_and!; try done. by apply Hdom. }
  intros [= <-]. split; simpl.
  - intros x. rewrite <- Hdom. destruct (decide (x = v)) as [->|Hx].
    + rewrite lookup_insert_eq. split; [done|eauto].
    + by rewrite lookup_insert_ne.
  - intros x y. destruct (decide (x = v)) as [->|Hx].
    + rewrite !lookup_insert_eq. intros [= <-]. exists nb, w. split_and!; try done.
      destruct (decide (u = v)) as [->|Huv].
      * rewrite lookup_insert_eq. eauto.
      * rewrite lookup_insert_ne by done. eauto.
    + rewrite !(lookup_insert_ne _ v x) by done. intros Hxy.
      destruct (Hprev x y Hxy) as (nb' & w' & H1 & H2 & H3 & dy & Hdy).
      exists nb', w'. split_and!; try done.
      destruct (decide (y = v)) as [->|Hyv].
      * rewrite lookup_insert_eq. eauto.
      * rewrite lookup_insert_ne by done. eauto.
  - intros x d. destruct (decide (x = v)) as [->|Hx].
    + rewrite !lookup_insert_eq. intros _. right. eauto.
    + rewrite !lookup_insert_ne by done. apply Hdist.
Qed.

Lemma relax_loop_Linked pending st u l st' :
  Linked st -> adjacency g !! u = Some l -> (forall nb, nb ∈ pending -> nb ∈ l) ->
  for_of (relax g excludedColors u) pending st = Ok st' -> Linked st'.
Proof.
  revert st. induction pending as [|nb pending IH]; intros st HL Hl Hsub H.
  - by injection H as <-.
  - apply for_of_cons_Ok in H as (st1 & H1 & H).
    apply (IH st1); [|done| |done].
    + eapply relax_Linked; [exact HL|exact Hl| |exact H1]. apply Hsub, list_elem_of_here.
    + intros nb' Hnb'. apply Hsub. by apply elem_of_cons; right.
Qed.

Lemma main_loop_Linked fuel t st st' :
  Linked st -> main_loop fuel g excludedColors t st = Some (Ok st') -> Linked st'.
Proof.
  revert st. induction fuel as [|fuel IH]; intros st HL H; [discriminate|].
  simpl in H. destruct (isEmpty (pq st)); [by injection H as <-|].
  destruct (extractMin (pq st)) as [[u|] pq']; [|by injection H as <-].
  destruct (bool_decide (u = t)).
  { injection H as <-. by eapply Linked_ext. }
  destruct (bool_decide (u ∈ visited st)).
  { apply IH in H; [done|]. by eapply Linked_ext. }
  destruct (for_of _ _ _) as [st2|] eqn:Hfor; [|discriminate].
  apply IH in H; [done|].
  destruct (adjacency g !! u) as [l|] eqn:Hl; simpl in Hfor.
  - eapply relax_loop_Linked; [|exact Hl| |exact Hfor]; [by eapply Linked_ext|done].
  - injection Hfor as <-. by eapply Linked_ext.
Qed.

Lemma init_Linked : Linked (init_search g s).
Proof.
  split; simpl.
  - intros v. unfold known. destruct (decide (v = s)) as [->|Hv].
    + rewrite lookup_insert_eq. split; eauto.
    + rewrite lookup_insert_ne, lookup_fmap by done.
      rewrite fmap_is_Some. split; [by right|]. by intros [|].
  - intros v u Hv. by rewrite lookup_empty in Hv.
  - intros v d. destruct (decide (v = s)) as [->|Hv]; [by left|].
    rewrite lookup_insert_ne, lookup_fmap by done. by destruct (nodes g !! v).
Qed.

(** What the reconstruction loop returns, started at a node of finite
    distance: the nodes and edge ids of the links back to the start. *)
Lemma reconstruct_links st fuel v accp acce path0 edgePath :
  Linked st -> (exists d, dist st !! v = Some (Fin d)) ->
  reconstruct fuel (prev st) (prevEdge st) s (Some v) accp acce = Some (path0, edgePath) ->
  exists p ep, links g excludedColors s (prev st) (prevEdge st) v p ep /\
    path0 = (Some <$> p) ++ accp /\ edgePath = (Some <$> ep) ++ acce.
Proof.
  intros HL. revert v accp acce.
  induction fuel as [|fuel IH]; intros v accp acce [d Hd] H; [discriminate|].
  simpl in H. case_bool_decide as Hv.
  - assert (v <> s) as Hvs by congruence.
    destruct (linked_dist _ _ _ _ HL v d Hd) as [?|[u Hu]]; [done|].
    destruct (linked_prev _ _ _ _ HL v u Hu) as (nb & w & Hpe & Ht & Ha & du & Hdu).
    rewrite Hu, Hpe in H.
    apply IH in H as (p & ep & Hl & -> & ->); [|eauto].
    exists (p ++ [v]), (ep ++ [nb_edgeId nb]). split_and!.
    + by eapply links_step.
    + by rewrite fmap_app, <- app_assoc.
    + by rewrite fmap_app, <- app_assoc.
  - assert (v = s) as -> by congruence.
    injection H as <- <-. exists [s], []. split_and!; [constructor|done|done].
Qed.

End Links.

Lemma links_edge_path graphData excludedColors s prev0 prevEdge0 v p ep :
  unique_edge_ids graphData ->
  links (new_SkiGraph graphData) excludedColors s prev0 prevEdge0 v p ep ->
  exists es, edge_path graphData excludedColors s v es /\
    p = s :: (e_target <$> es) /\ ep = e_id <$> es.
Proof.
  intros Hu. induction 1 as [|v u nb w p ep _ _ _ Ht Ha _ (es & Hp & -> & ->)].
  - exists []. split_and!; [constructor|done|done].
  - apply arc_edge in Ha as (edge & Hin & Hs & Hte & Hid & _ & Hw); [|done].
    exists (es ++ [edge]). split_and!.
    + rewrite <- Ht, <- Hte. by eapply edge_path_snoc.
    + rewrite fmap_app. simpl. by rewrite <- Ht, Hte.
    + rewrite fmap_app. simpl. by rewrite Hid.
Qed.

(** A returned route, on a graph with unique edge identifiers and for an
    end that is a key of the node map: the path lists the nodes of a
    directed path of the input from the start to the end, and the steps
    are made from the edges of that path, in order. *)
Lemma route_path_anatomy graphData s t excludedColors route :
  unique_edge_ids graphData ->
  is_Some (gd_nodes graphData !! t) ->
  returns (new_SkiGraph graphData) s t excludedColors (Found route) ->
  exists es,
    edge_path graphData excludedColors s t es /\
    path route = Some <$> (s :: (e_target <$> es)) /\
    Forall2 (fun edge step =>
               make_step (new_SkiGraph graphData) excludedColors (Some (e_id edge)) = Ok step)
            es (steps route).
Proof.
  intros Hu Ht [fuel Hf]. set (g := new_SkiGraph graphData) in *.
  apply findRoute_Found in Hf as (Hne & st & path0 & edgePath & Hloop & Hd & Hrec & Hb).
  pose proof (main_loop_Linked g excludedColors s fuel t _ st
                (init_Linked g excludedColors s) Hloop) as HL.
  destruct (linked_dom _ _ _ _ HL t) as [_ Hk].
  destruct Hk as [[d|] Hdt]; [by right| |done].
  apply (reconstruct_links g excludedColors s st) in Hrec
    as (p & ep & Hl & -> & ->); [|done|eauto].
  rewrite !app_nil_r in Hb.
  destruct (links_edge_path _ _ _ _ _ _ _ _ Hu Hl) as (es & Hp & -> & ->).
  apply build_route_Found in Hb as (steps0 & profile & Hsteps & _ & Hpath & Hst & _).
  apply map_throw_Forall2 in Hsteps. rewrite <- list_fmap_compose in Hsteps.
  apply Forall2_fmap_l in Hsteps.
  exists es. split_and!; [done|done|by rewrite Hst].
Qed.

(** ** The returned path *)

(** C2: on a graph with unique edge identifiers, for an end that is a key
    of the node map, and whatever the distances are: the path of a
    returned route starts at the start and ends at the end, and every step
    joins two consecutive nodes of the path along an edge of the graph with
    exactly these end points, whose weight under the exclusions is
    finite. *)
Theorem findRoute_path_connected graphData startNodeId endNodeId excludedColors route :
  unique_edge_ids graphData ->
  is_Some (gd_nodes graphData !! endNodeId) ->
  returns (new_SkiGraph graphData) startNodeId endNodeId excludedColors (Found route) ->
  head (path route) = Some (Some startNodeId) /\
  last (path route) = Some (Some endNodeId) /\
  connects graphData excludedColors (path route) (steps route).
Proof.
  intros Hu Ht Hr.
  destruct (route_path_anatomy _ _ _ _ _ Hu Ht Hr) as (es & Hp & Hpath & Hsteps).
  destruct (edge_path_nodes _ _ _ _ _ Hp) as [Hlast Hnodes].
  rewrite Hpath. split_and!.
  - done.
  - by rewrite fmap_last, Hlast.
  - split.
    + rewrite length_fmap. simpl. rewrite length_fmap.
      by rewrite (Forall2_length _ _ _ Hsteps).
    + intros i step Hi.
      destruct (Forall2_lookup_r _ _ _ _ _ Hsteps Hi) as (edge & Hei & Hmk).
      destruct (Hnodes i edge Hei) as [H1 H2].
      pose proof (edge_path_elem _ _ _ _ _ Hp) as Hel.
      rewrite Forall_forall in Hel.
      assert (edge ∈ gd_edges graphData) as Hin.
      { apply Hel. by eapply list_elem_of_lookup_2. }
      destruct (make_step_unique _ _ _ _ Hu Hin Hmk) as (Hid & Hs & Htg & _).
      pose proof (edge_path_finite _ _ _ _ _ Hp) as Hfin.
      rewrite Forall_forall in Hfin.
      destruct (Hfin edge) as [w Hw]; [by eapply list_elem_of_lookup_2|].
      rewrite !list_lookup_fmap, H1, H2, Hs, Htg. split_and!; [done|done|].
      exists edge, w. by split_and!.
Qed.

Lemma diamond_unique : unique_edge_ids diamond_data.
Proof.
  unfold unique_edge_ids. simpl.
  repeat (apply NoDup_cons; split;
          [rewrite ?not_elem_of_cons; split_and?; (discriminate || apply not_elem_of_nil)|]).
  apply NoDup_nil_2.
Qed.

Lemma diamond_nonneg : nonneg_distances diamond_data.
Proof. repeat constructor; unfold Qle; simpl; lia. Qed.

Lemma diamond_in_nodes : edges_in_nodes diamond_data.
Proof. repeat constructor; by eexists. Qed.

Lemma diamond_valid : valid_graph diamond_data.
Proof. split_and!; [apply diamond_unique|apply diamond_in_nodes|apply diamond_nonneg]. Qed.

Lemma diamond_route_red_excluded :
  exists route, findRoute 4 (new_SkiGraph diamond_data) "A" "D" {["red"]} = Some (Found route) /\
    path route = [Some "A"; Some "B"; Some "D"].
Proof. eexists. split; [vm_compute; reflexivity|reflexivity]. Qed.

Lemma findRoute_path_connected_witness :
  exists route,
    returns (new_SkiGraph diamond_data) "A" "D" {["red"]} (Found route) /\
    head (path route) = Some (Some "A") /\
    last (path route) = Some (Some "D") /\
    connects diamond_data {["red"]} (path route) (steps route).
Proof.
  destruct diamond_route_red_excluded as (route & Hr & _).
  exists route. split; [by exists 4|].
  apply (findRoute_path_connected diamond_data "A" "D" {["red"]} route).
  - exact diamond_unique.
  - by eexists.
  - by exists 4.
Defined.

(** ** Optimality *)

(** C1: for every graph in the sense of the data model (unique edge
    identifiers, edges between keys of the node map, non-negative
    distances), every exclusion set and every end that is a node of the
    graph: the edges a returned route traverses form a directed path from
    the start to the end over edges of finite cost, and the sum of their
    costs is at most that of any such path.  This covers the early exit of
    the main loop, which is the only way a route is found. *)
Theorem findRoute_optimal graphData startNodeId endNodeId excludedColors route :
  valid_graph graphData ->
  is_Some (gd_nodes graphData !! endNodeId) ->
  returns (new_SkiGraph graphData) startNodeId endNodeId excludedColors (Found route) ->
  edge_path graphData excludedColors startNodeId endNodeId
    (traversed (new_SkiGraph graphData) route) /\
  forall es, edge_path graphData excludedColors startNodeId endNodeId es ->
    (path_cost excludedColors (traversed (new_SkiGraph graphData) route) <=
     path_cost excludedColors es)%Q.
Proof.
  intros (Hu & Hin & Hnn) Ht Hr.
  destruct (route_anatomy _ _ _ _ _ Hu Hnn Ht Hr)
    as (st & d & es0 & HP & Hd & Hp & Hcost & _ & _ & ->).
  split; [done|]. intros es Hes.
  destruct (walk_of_edge_path _ _ startNodeId _ _ _ 0 Hu Hin Hes) as (c & Hw & Hc).
  { constructor. }
  pose proof (post_optimal _ _ _ _ _ HP d Hd c Hw) as Hle.
  rewrite Hcost. lra.
Qed.

Lemma findRoute_optimal_witness :
  exists route,
    returns (new_SkiGraph diamond_data) "A" "D" {["red"]} (Found route) /\
    edge_path diamond_data {["red"]} "A" "D" (traversed (new_SkiGraph diamond_data) route) /\
    forall es, edge_path diamond_data {["red"]} "A" "D" es ->
      (path_cost {["red"]} (traversed (new_SkiGraph diamond_data) route) <=
       path_cost {["red"]} es)%Q.
Proof.
  destruct diamond_route_red_excluded as (route & Hr & _).
  exists route. split; [by exists 4|].
  apply (findRoute_optimal diamond_data "A" "D" {["red"]} route).
  - exact diamond_valid.
  - by eexists.
  - by exists 4.
Defined.

(** ** Excluding fewer colours *)

Lemma has_empty d : has ∅ d = false.
Proof.
  destruct d as [c|]; [|done]. simpl.
  apply bool_decide_eq_false, not_elem_of_empty.
Qed.

(** An edge that is passable under some exclusions is passable, at the
    same cost, when nothing is excluded. *)
Lemma finite_cost_empty excludedColors edge w :
  finite_cost excludedColors edge w -> finite_cost ∅ edge w.
Proof.
  unfold finite_cost, calculateWeight. rewrite has_empty, andb_false_r.
  destruct (e_type edge =? "slope"); [|done].
  by destruct (has excludedColors (e_difficulty edge)).
Qed.

Lemma edge_path_empty graphData excludedColors a b es :
  edge_path graphData excludedColors a b es ->
  edge_path graphData ∅ a b es /\
  (path_cost ∅ es == path_cost excludedColors es)%Q.
Proof.
  induction 1 as [a|a b e w es He Hse Hwe _ [IH1 IH2]].
  - split; [constructor|reflexivity].
  - split.
    + econstructor; [done|done|by eapply finite_cost_empty|done].
    + simpl. rewrite IH2, (cost_of_finite excludedColors e w Hwe).
      rewrite (cost_of_finite ∅ e w (finite_cost_empty excludedColors e w Hwe)).
      reflexivity.
Qed.

Lemma rounding_unique : unique_edge_ids rounding_data.
Proof.
  unfold unique_edge_ids. simpl.
  repeat (apply NoDup_cons; split;
          [rewrite ?not_elem_of_cons; split_and?; (discriminate || apply not_elem_of_nil)|]).
  apply NoDup_nil_2.
Qed.

(** C5 (as stated, refuted): the total time a route reports is rounded,
    every step to 0.1 minute and their sum to a minute, and is not
    monotone.  The graph below meets the invariants of the data model and
    B is one of its nodes.  From A to B with green excluded the route is
    the blue slope, reported with a total time of 0 minutes; with nothing
    excluded the route is the five green slopes, which cost less (0.25
    against 0.3 minutes) but are reported with a total time of 1 minute,
    each step being rounded up to 0.1: the total time with the empty
    exclusion set is larger than the one under the exclusions. *)
Lemma totalTime_not_monotone :
  valid_graph rounding_data /\
  is_Some (gd_nodes rounding_data !! "B") /\
  exists routeE route0,
    returns (new_SkiGraph rounding_data) "A" "B" {["green"]} (Found routeE) /\
    returns (new_SkiGraph rounding_data) "A" "B" ∅ (Found route0) /\
    totalTime (summary routeE) = Fin 0 /\
    totalTime (summary route0) = Fin 1 /\
    ~ (1 <= 0)%Q /\
    (path_cost ∅ (traversed (new_SkiGraph rounding_data) route0) <
     path_cost {["green"]} (traversed (new_SkiGraph rounding_data) routeE))%Q.
Proof.
  split.
  { split_and!; [apply rounding_unique|repeat constructor; by eexists|].
    repeat constructor; unfold Qle; simpl; lia. }
  split; [by eexists|].
  eexists _, _. split; [exists 7; vm_compute; reflexivity|].
  split; [exists 7; vm_compute; reflexivity|].
  split; [reflexivity|]. split; [reflexivity|].
  split; [|vm_compute; reflexivity].
  unfold Qle. simpl. lia.
Qed.

(** C5 (amended): what is monotone is the optimum before rounding.  For
    every graph in the sense of the data model and every end that is a
    node of the graph: if the call with the exclusion set [E] returns a
    route, the call with the empty exclusion set returns a route as well,
    and the sum of the weight-model costs of the edges of its route is at
    most that of the route found under [E]. *)
Theorem findRoute_exclusions_monotone graphData startNodeId endNodeId E routeE :
  valid_graph graphData ->
  is_Some (gd_nodes graphData !! endNodeId) ->
  returns (new_SkiGraph graphData) startNodeId endNodeId E (Found routeE) ->
  exists route0,
    returns (new_SkiGraph graphData) startNodeId endNodeId ∅ (Found route0) /\
    (path_cost ∅ (traversed (new_SkiGraph graphData) route0) <=
     path_cost E (traversed (new_SkiGraph graphData) routeE))%Q.
Proof.
  intros (Hu & Hin & Hnn) Ht HrE.
  destruct (route_anatomy _ _ _ _ _ Hu Hnn Ht HrE)
    as (_ & _ & esE & _ & _ & HpE & _ & _ & _ & ->).
  destruct (edge_path_empty _ _ _ _ _ HpE) as [Hp0 Hcost].
  assert (startNodeId <> endNodeId) as Hne.
  { destruct HrE as [fuel HrE]. by apply findRoute_Found in HrE as [? _]. }
  assert (is_Some (gd_nodes graphData !! startNodeId)) as Hs.
  { inversion Hp0 as [|a b e w es He Hse _ _]; [done|]. subst.
    unfold edges_in_nodes in Hin. rewrite Forall_forall in Hin. by apply Hin. }
  (* the path found under [E] is a walk of the search without exclusions *)
  destruct (walk_of_edge_path _ _ startNodeId _ _ _ 0 Hu Hin Hp0) as (c & Hw & Hc).
  { constructor. }
  destruct (findRoute_outcome graphData startNodeId endNodeId ∅ Hin Hnn Hs Ht Hne)
    as (st & HP & [[Hinf _]|(d & route0 & _ & Hr0)]).
  - exfalso. destruct (post_complete _ _ _ _ _ HP c Hw) as [d Hd]. congruence.
  - exists route0. split; [done|].
    destruct (route_anatomy _ _ _ _ _ Hu Hnn Ht Hr0)
      as (st0 & d0 & es0 & HP0 & Hd0 & _ & Hcost0 & _ & _ & ->).
    pose proof (post_optimal _ _ _ _ _ HP0 d0 Hd0 c Hw) as Hle.
    rewrite Hcost0, <- Hcost. lra.
Qed.

Lemma findRoute_exclusions_monotone_witness :
  exists routeE route0,
    returns (new_SkiGraph diamond_data) "A" "D" {["red"]} (Found routeE) /\
    returns (new_SkiGraph diamond_data) "A" "D" ∅ (Found route0) /\
    (path_cost ∅ (traversed (new_SkiGraph diamond_data) route0) <=
     path_cost {["red"]} (traversed (new_SkiGraph diamond_data) routeE))%Q.
Proof.
  destruct diamond_route_red_excluded as (routeE & Hr & _).
  destruct (findRoute_exclusions_monotone diamond_data "A" "D" {["red"]} routeE)
    as (route0 & H0 & Hle).
  - exact diamond_valid.
  - by eexists.
  - by exists 4.
  - exists routeE, route0. split; [by exists 4|]. by split.
Defined.

(** ** Calls that never return *)

(** Once the reconstruction has reached [undefined] it stays there, unless
    some node is called "undefined". *)
Lemma reconstruct_undefined fuel prev0 prevEdge0 s path0 edgePath :
  prev0 !! "undefined" = None ->
  reconstruct fuel prev0 prevEdge0 s None path0 edgePath = None.
Proof.
  intros Hp. revert path0 edgePath.
  induction fuel as [|fuel IH]; intros path0 edgePath; [done|].
  simpl. rewrite Hp. apply IH.
Qed.

(** The parenthesis of C10: a call whose end is no key of the node map
    need not return.  On the single slope from A to B the call from A to
    the unknown node Z runs the main loop to the end, finds no entry for Z
    in [dist] (which is not [Infinity]) and walks back from Z through
    [undefined] for ever. *)
Remark findRoute_absent_end_diverges :
  diverges (new_SkiGraph fraction_data) "A" "Z" ∅.
Proof.
  intros fuel. destruct (decide (fuel < 3)) as [Hlt|Hge].
  - destruct fuel as [|[|[|fuel]]]; [vm_compute; reflexivity..|lia].
  - assert (exists st,
      main_loop 3 (new_SkiGraph fraction_data) ∅ "Z" (init_search (new_SkiGraph fraction_data) "A")
        = Some (Ok st) /\
      dist st !! "Z" = None /\ prev st !! "Z" = None /\ prev st !! "undefined" = None)
      as (st & Hloop & Hd & Hp & Hu).
    { eexists. split; [vm_compute; reflexivity|]. by split_and!. }
    unfold findRoute. rewrite bool_decide_eq_false_2 by discriminate.
    rewrite (main_loop_fuel_mono 3 fuel _ _ _ _ _ Hloop) by lia.
    cbv beta iota. rewrite Hd.
    destruct fuel as [|fuel]; [lia|]. simpl. rewrite Hp.
    by rewrite reconstruct_undefined.
Qed.

Lemma reconstruct_cycle fuel prev0 prevEdge0 s a b path0 edgePath :
  a <> s -> b <> s -> prev0 !! a = Some b -> prev0 !! b = Some a ->
  reconstruct fuel prev0 prevEdge0 s (Some a) path0 edgePath = None.
Proof.
  intros Ha Hb Hab Hba. revert path0 edgePath.
  induction (lt_wf fuel) as [fuel _ IH]; intros path0 edgePath.
  destruct fuel as [|[|fuel]]; [done| |]; simpl.
  - rewrite bool_decide_eq_true_2 by congruence. done.
  - rewrite bool_decide_eq_true_2 by congruence. rewrite Hab. simpl.
    rewrite bool_decide_eq_true_2 by congruence. rewrite Hba. apply IH. lia.
Qed.

(** C10 (as stated, refuted): all edges of this graph join keys of the
    node map and S and C are keys of the node map, yet the call from S to C
    never returns.  The slope from B back to A has a negative distance;
    relaxing it after A was expanded makes B the predecessor of A while A
    is the predecessor of B, and the reconstruction walks round this cycle
    for ever. *)
Lemma findRoute_negative_distance_diverges :
  edges_in_nodes negative_data /\
  is_Some (gd_nodes negative_data !! "S") /\
  is_Some (gd_nodes negative_data !! "C") /\
  diverges (new_SkiGraph negative_data) "S" "C" ∅.
Proof.
  split; [repeat constructor; by eexists|].
  split; [by eexists|]. split; [by eexists|].
  intros fuel. destruct (decide (fuel < 5)) as [Hlt|Hge].
  - destruct fuel as [|[|[|[|[|fuel]]]]]; [vm_compute; reflexivity..|lia].
  - assert (exists st,
      main_loop 5 (new_SkiGraph negative_data) ∅ "C" (init_search (new_SkiGraph negative_data) "S")
        = Some (Ok st) /\
      (exists d, dist st !! "C" = Some (Fin d)) /\ prev st !! "C" = Some "B" /\
      prev st !! "B" = Some "A" /\ prev st !! "A" = Some "B")
      as (st & Hloop & [d Hd] & Hc & Hb & Ha).
    { eexists. split; [vm_compute; reflexivity|]. split_and!; [by eexists|done..]. }
    unfold findRoute. rewrite bool_decide_eq_false_2 by discriminate.
    rewrite (main_loop_fuel_mono 5 fuel _ _ _ _ _ Hloop) by lia.
    cbv beta iota. rewrite Hd.
    destruct fuel as [|fuel]; [lia|]. simpl. rewrite Hc.
    by rewrite (reconstruct_cycle fuel _ _ "S" "B" "A").
Qed.

(** ** The elevation profile *)

Lemma frac_le (g g' m : nat) :
  g <= g' -> 0 < m ->
  (inject_Z (Z.of_nat g) / inject_Z (Z.of_nat m) <=
   inject_Z (Z.of_nat g') / inject_Z (Z.of_nat m))%Q.
Proof.
  intros Hg Hm. unfold Qdiv. apply Qmult_le_compat_r.
  - rewrite <- Zle_Qle. lia.
  - apply Qinv_le_0_compat. replace 0%Q with (inject_Z 0) by reflexivity.
    rewrite <- Zle_Qle. lia.
Qed.

Lemma frac_le_1 (g m : nat) :
  g <= m -> 0 < m ->
  (inject_Z (Z.of_nat g) / inject_Z (Z.of_nat m) <= 1)%Q.
Proof.
  intros Hg Hm. apply Qle_shift_div_r.
  - replace 0%Q with (inject_Z 0) by reflexivity. rewrite <- Zlt_Qlt. lia.
  - rewrite Qmult_1_l. rewrite <- Zle_Qle. lia.
Qed.

Lemma interior_seq_sorted (cum d : Q) (m k a : nat) :
  (0 <= d)%Q -> 0 < m -> a + k <= m ->
  let f := fun g : nat =>
    (cum + d * (inject_Z (Z.of_nat g) / inject_Z (Z.of_nat m)))%Q in
  StronglySorted Qle (f <$> seq a k) /\
  Forall (fun x => (f a <= x /\ x <= cum + d)%Q) (f <$> seq a k).
Proof.
  intros Hd Hm Ha f. revert a Ha. induction k as [|k IH]; intros a Ha; simpl.
  - split; constructor.
  - assert (forall g g', g <= g' -> (f g <= f g')%Q) as Hmono.
    { intros g g' Hg. unfold f. apply Qplus_le_r.
      rewrite !(Qmult_comm d). apply Qmult_le_compat_r; [|done].
      by apply frac_le. }
    destruct (IH (S a)) as [IH1 IH2]; [lia|]. split.
    + constructor; [done|].
      eapply Forall_impl; [exact IH2|]. simpl. intros x [Hx _].
      eapply Qle_trans; [|exact Hx]. apply Hmono. lia.
    + constructor.
      * split; [apply Qle_refl|]. unfold f. apply Qplus_le_r.
        rewrite <- (Qmult_1_r d) at 2. rewrite !(Qmult_comm d).
        apply Qmult_le_compat_r; [|done]. apply frac_le_1; lia.
      * eapply Forall_impl; [exact IH2|]. simpl. intros x [Hx Hx'].
        split; [|done]. eapply Qle_trans; [|exact Hx]. apply Hmono. lia.
Qed.

(** The interior points of a step lie between the distance reached before
    the step and the distance reached after it, in increasing order. *)
Lemma interior_points_sorted cum step sourceEle targetEle geomLen :
  (0 <= s_distance step)%Q -> 2 < geomLen ->
  StronglySorted Qle (distances (interior_points cum step sourceEle targetEle geomLen)) /\
  Forall (fun x => (cum <= x /\ x <= cum + s_distance step)%Q)
         (distances (interior_points cum step sourceEle targetEle geomLen)).
Proof.
  intros Hd Hn. unfold distances, interior_points.
  rewrite <- list_fmap_compose.
  destruct (interior_seq_sorted cum (s_distance step) (geomLen - 1) (geomLen - 2) 1)
    as [H1 H2]; [done|lia|lia|].
  split; [exact H1|].
  eapply Forall_impl; [exact H2|]. simpl. intros x [Hx Hx']. split; [|done].
  eapply Qle_trans; [|exact Hx].
  rewrite <- (Qplus_0_r cum) at 1. apply Qplus_le_r.
  apply Qmult_le_0_compat; [done|].
  apply Qle_shift_div_l.
  - replace 0%Q with (inject_Z 0) by reflexivity. rewrite <- Zlt_Qlt. lia.
  - rewrite Qmult_0_l. replace 0%Q with (inject_Z 0) by reflexivity.
    rewrite <- Zle_Qle. lia.
Qed.

(** What one iteration of the profile loop appends. *)
Lemma profile_step_shape g points cum step points' cum' :
  profile_step g (points, cum) step = Ok (points', cum') ->
  exists interior pt,
    points' = points ++ interior ++ [pt] /\
    p_distance pt = cum' /\
    cum' = (cum + s_distance step)%Q /\
    ((0 <= s_distance step)%Q ->
       StronglySorted Qle (distances interior) /\
       Forall (fun x => (cum <= x /\ x <= cum')%Q) (distances interior)).
Proof.
  unfold profile_step. intros H.
  destruct (nodes g !! s_targetNode step) as [targetNode|] eqn:Et.
  - destruct (s_geometry step) as [geometry|].
    + destruct (bool_decide (2 < length geometry)) eqn:Eg.
      * destruct (nodes g !! s_sourceNode step) as [sourceNode|]; [|discriminate].
        simpl in H. injection H as <- <-.
        eexists _, _. split; [reflexivity|]. split; [reflexivity|].
        split; [reflexivity|]. intros Hd.
        apply interior_points_sorted; [done|]. by apply bool_decide_eq_true in Eg.
      * simpl in H. injection H as <- <-.
        eexists [], _. split; [reflexivity|]. split; [reflexivity|].
        split; [reflexivity|]. intros _. split; constructor.
    + simpl in H. injection H as <- <-.
      eexists [], _. split; [reflexivity|]. split; [reflexivity|].
      split; [reflexivity|]. intros _. split; constructor.
  - destruct (s_geometry step) as [geometry|]; [|discriminate].
    destruct (bool_decide (2 < length geometry)); [|discriminate].
    destruct (nodes g !! s_sourceNode step); discriminate.
Qed.

(** The profile loop, whatever the distances: one point or more per step,
    the last one at the running sum of the step distances. *)
Lemma profile_loop_shape g steps points cum points' cum' :
  for_of (profile_step g) steps (points, cum) = Ok (points', cum') ->
  (exists p, last points = Some p /\ p_distance p = cum) ->
  length points + length steps <= length points' /\
  cum' = foldl (fun acc step => (acc + s_distance step)%Q) cum steps /\
  exists p, last points' = Some p /\ p_distance p = cum'.
Proof.
  revert points cum. induction steps as [|step steps IH]; intros points cum H Hl.
  - injection H as <- <-. split; [simpl; lia|]. split; [reflexivity|done].
  - apply for_of_cons_Ok in H as ([points1 cum1] & E & H).
    apply profile_step_shape in E as (interior & pt & -> & Hpt & -> & _).
    apply IH in H as (Hlen & Hcum & Hlast).
    + split; [|split; [exact Hcum|exact Hlast]].
      rewrite !length_app in Hlen. simpl in *. lia.
    + exists pt. split; [|done]. by rewrite app_assoc, last_snoc.
Qed.

(** The profile loop on steps of non-negative distance keeps the points in
    non-decreasing order of distance. *)
Lemma profile_loop_sorted g steps points cum points' cum' :
  Forall (fun step => (0 <= s_distance step)%Q) steps ->
  for_of (profile_step g) steps (points, cum) = Ok (points', cum') ->
  StronglySorted Qle (distances points) ->
  Forall (fun x => (x <= cum)%Q) (distances points) ->
  StronglySorted Qle (distances points').
Proof.
  intros Hsteps. revert points cum.
  induction Hsteps as [|step steps Hd _ IH]; intros points cum H Hs Hb.
  - by injection H as <- <-.
  - apply for_of_cons_Ok in H as ([points1 cum1] & E & H).
    apply profile_step_shape in E as (interior & pt & -> & Hpt & -> & Hi).
    destruct (Hi Hd) as [Hi1 Hi2]. clear Hi.
    assert (cum <= cum + s_distance step)%Q as Hle.
    { rewrite <- (Qplus_0_r cum) at 1. by apply Qplus_le_r. }
    apply IH in H; [done| |].
    + unfold distances in *. rewrite !fmap_app. simpl. rewrite Hpt.
      apply StronglySorted_app_2; [|done|].
      * intros x1 x2 Hx1 Hx2. rewrite Forall_forall in Hb. specialize (Hb _ Hx1).
        apply elem_of_app in Hx2 as [Hx2|Hx2].
        -- rewrite Forall_forall in Hi2. apply Hi2 in Hx2 as [Hx2 _].
           by eapply Qle_trans.
        -- apply list_elem_of_singleton in Hx2 as ->. by eapply Qle_trans.
      * apply StronglySorted_app_2; [|done|].
        -- intros x1 x2 Hx1 Hx2. apply list_elem_of_singleton in Hx2 as ->.
           rewrite Forall_forall in Hi2. by apply Hi2.
        -- repeat constructor.
    + unfold distances in *. rewrite !fmap_app. simpl. rewrite Hpt.
      rewrite !Forall_app. split; [|split].
      * eapply Forall_impl; [exact Hb|]. simpl. intros x Hx. by eapply Qle_trans.
      * eapply Forall_impl; [exact Hi2|]. simpl. by intros x [_ Hx].
      * repeat constructor. apply Qle_refl.
Qed.

Lemma totals_distance steps0 t :
  t_distance (foldl add_step t steps0) =
  foldl (fun acc step => (acc + s_distance step)%Q) (t_distance t) steps0.
Proof.
  revert t. induction steps0 as [|step steps0 IH]; intros t; simpl; [done|].
  by rewrite IH.
Qed.

(** C6 (as stated, refuted): on a single slope of 1250.4 m the profile
    ends at distance 1250.4 while the summary reports the rounded total
    distance 1250. *)
Lemma elevationProfile_end_not_rounded :
  exists route p,
    returns (new_SkiGraph fraction_data) "A" "B" ∅ (Found route) /\
    last (elevationProfile route) = Some p /\
    totalDistance (summary route) = 1250%Q /\
    ~ (p_distance p == totalDistance (summary route))%Q.
Proof.
  eexists _, _. split; [exists 2; vm_compute; reflexivity|].
  split; [reflexivity|]. split; [reflexivity|].
  simpl. intros H. vm_compute in H. discriminate.
Qed.

(** C6 (amended): for every route returned by [findRoute] the elevation
    profile has at least [stepCount + 1] samples, and its final sample's
    distance is the total distance before rounding (the sum of the step
    distances), so that the summary's [totalDistance] is that final
    distance rounded to the nearest integer; when the distances of the
    graph are non-negative, as the data model requires, the distance values
    of the profile are non-decreasing. *)
Theorem elevationProfile_shape graphData startNodeId endNodeId excludedColors route :
  returns (new_SkiGraph graphData) startNodeId endNodeId excludedColors (Found route) ->
  stepCount (summary route) + 1 <= length (elevationProfile route) /\
  (exists p, last (elevationProfile route) = Some p /\
     p_distance p = sum_distances (steps route) /\
     totalDistance (summary route) = Math_round (p_distance p)) /\
  (nonneg_distances graphData ->
     StronglySorted Qle (distances (elevationProfile route))).
Proof.
  intros [fuel H]. apply findRoute_Found in H as (_ & st & path0 & edgePath & _ & _ & _ & H).
  apply build_route_Found in H as (steps0 & profile & Hsteps & Hprof & _ & -> & -> & Hd & _ & ->).
  unfold _buildElevationProfile in Hprof.
  destruct (nodes _ !! _) as [firstNode|]; [|discriminate].
  destruct (for_of _ steps0 _) as [[points cum]|] eqn:E; [|discriminate].
  simpl in Hprof. injection Hprof as <-.
  pose proof E as E'.
  apply profile_loop_shape in E as (Hlen & Hcum & p & Hp1 & Hp2);
    [|eexists; split; [reflexivity|reflexivity]].
  split; [simpl in Hlen; lia|]. split.
  - exists p. split; [done|].
    assert (p_distance p = sum_distances steps0) as Hp by (by rewrite Hp2, Hcum).
    split; [done|]. rewrite Hd, Hp. unfold totals. by rewrite totals_distance.
  - intros Hnn. eapply profile_loop_sorted; [|exact E'| |].
    + apply map_throw_Forall2 in Hsteps.
      clear -Hsteps Hnn. induction Hsteps as [|edgeId step ? ? Hs _ IH]; constructor; [|done].
      apply make_step_Ok in Hs as (edge & Hin & _ & _ & -> & _).
      unfold nonneg_distances in Hnn. rewrite Forall_forall in Hnn. by apply Hnn.
    + repeat constructor.
    + repeat constructor. apply Qle_refl.
Qed.

Lemma elevationProfile_shape_witness :
  exists route,
    returns (new_SkiGraph fraction_data) "A" "B" ∅ (Found route) /\
    stepCount (summary route) + 1 <= length (elevationProfile route) /\
    (exists p, last (elevationProfile route) = Some p /\
       p_distance p = sum_distances (steps route) /\
       totalDistance (summary route) = Math_round (p_distance p)) /\
    (nonneg_distances fraction_data ->
       StronglySorted Qle (distances (elevationProfile route))).
Proof.
  eexists. split; [exists 2; vm_compute; reflexivity|].
  apply (elevationProfile_shape fraction_data "A" "B" ∅).
  exists 2. vm_compute. reflexivity.
Defined.

(** ** The location index *)

Lemma push_once_guarded seen out nodeKey edge node label seen' out' :
  guarded seen out ->
  push_once seen out nodeKey edge node label = Ok (seen', out') ->
  guarded seen' out'.
Proof.
  intros [Hnd Hin]. unfold push_once.
  destruct (negb (bool_decide (nodeKey ∈ seen)) && truthy (e_name edge)) eqn:Hc.
  - destruct node as [n|]; [|discriminate]. intros [= <- <-].
    apply andb_true_iff in Hc as [Hc _].
    apply negb_true_iff, bool_decide_eq_false in Hc.
    unfold guarded, nodeIds in *. rewrite fmap_app. simpl. split.
    + apply NoDup_app. split; [done|]. split; [|apply NoDup_singleton].
      intros k Hk ->%list_elem_of_singleton. by apply Hc, Hin.
    + intros k [Hk| ->%list_elem_of_singleton]%elem_of_app; [|set_solver].
      apply elem_of_union_r. by apply Hin.
  - by intros [= <- <-].
Qed.

Lemma push_once_Ok seen out nodeKey edge n label :
  exists r, push_once seen out nodeKey edge (Some n) label = Ok r.
Proof. unfold push_once. destruct (_ && _); eauto. Qed.

Lemma visit_edge_guarded g s edge s' :
  Seen_guarded s -> visit_edge g s edge = Ok s' -> Seen_guarded s'.
Proof.
  intros (H1 & H2 & H3 & H4). unfold visit_edge.
  destruct (e_type edge =? "slope") eqn:Es.
  - apply String.eqb_eq in Es. rewrite Es. simpl.
    destruct (push_once (seenSlopeTops s) _ _ _ _ _) as [[a1 a2]|] eqn:Ea; [|discriminate].
    destruct (push_once (seenSlopeBottoms s) _ _ _ _ _) as [[b1 b2]|] eqn:Eb; [|discriminate].
    simpl. intros [= <-]. unfold Seen_guarded. simpl.
    refine (conj _ (conj _ (conj _ _)));
      first [assumption | eapply push_once_guarded; [|eassumption]; assumption].
  - simpl. destruct (e_type edge =? "lift"); [|by intros [= <-]].
    destruct (push_once (seenLiftBottoms s) _ _ _ _ _) as [[b1 b2]|] eqn:Eb; [|discriminate].
    destruct (push_once (seenLiftTops s) _ _ _ _ _) as [[a1 a2]|] eqn:Ea; [|discriminate].
    simpl. intros [= <-]. unfold Seen_guarded. simpl.
    refine (conj _ (conj _ (conj _ _)));
      first [assumption | eapply push_once_guarded; [|eassumption]; assumption].
Qed.

Lemma visit_edge_Ok g s edge :
  is_Some (nodes g !! e_source edge) -> is_Some (nodes g !! e_target edge) ->
  exists s', visit_edge g s edge = Ok s'.
Proof.
  intros [n1 H1] [n2 H2]. unfold visit_edge. rewrite H1, H2.
  destruct (e_type edge =? "slope") eqn:Es.
  - apply String.eqb_eq in Es. rewrite Es. simpl.
    destruct (push_once_Ok (seenSlopeTops s) (outSlopeTops s) (e_source edge) edge n1 TopLabel)
      as [r1 ->].
    destruct (push_once_Ok (seenSlopeBottoms s) (outSlopeBottoms s) (e_target edge) edge n2
                BottomLabel) as [r2 ->].
    simpl. eauto.
  - simpl. destruct (e_type edge =? "lift"); [|eauto].
    destruct (push_once_Ok (seenLiftBottoms s) (outLiftBottoms s) (e_source edge) edge n1
                BottomLabel) as [r1 ->].
    destruct (push_once_Ok (seenLiftTops s) (outLiftTops s) (e_target edge) edge n2 TopLabel)
      as [r2 ->].
    simpl. eauto.
Qed.

Lemma visit_edges_guarded g es s s' :
  Seen_guarded s -> for_of (visit_edge g) es s = Ok s' -> Seen_guarded s'.
Proof.
  revert s. induction es as [|edge es IH]; intros s Hs H.
  - by injection H as <-.
  - apply for_of_cons_Ok in H as (s1 & H1 & H). eauto using visit_edge_guarded.
Qed.

Lemma visit_edges_Ok g es s :
  Forall (fun edge => is_Some (nodes g !! e_source edge) /\
                      is_Some (nodes g !! e_target edge)) es ->
  exists s', for_of (visit_edge g) es s = Ok s'.
Proof.
  intros H. revert s. induction H as [|edge es [H1 H2] _ IH]; intros s; simpl; [eauto|].
  destruct (visit_edge_Ok g s edge H1 H2) as [s1 ->]. simpl. apply IH.
Qed.

(** The station entries carry pairwise different node ids: they are keys
    of the node map. *)
Lemma station_entries_NoDup g : NoDup (nodeIds (station_entries g)).
Proof.
  unfold station_entries.
  pose proof (NoDup_fst_map_to_list (nodes g)) as H.
  induction (map_to_list (nodes g)) as [|[k n] l IH]; simpl; [constructor|].
  apply NoDup_cons in H as [Hk Hl]. specialize (IH Hl).
  destruct (truthy (station n)); [|done]. simpl. constructor; [|done].
  intros Hin. apply Hk. clear -Hin.
  induction l as [|[k' n'] l IH]; simpl in *; [by apply elem_of_nil in Hin|].
  destruct (truthy (station n')); simpl in *.
  - apply elem_of_cons in Hin as [->|Hin]; [apply list_elem_of_here|].
    apply elem_of_cons; right. by apply IH.
  - apply elem_of_cons; right. by apply IH.
Qed.

Lemma insert_byName_Permutation localeCompare x l :
  insert_byName localeCompare x l ≡ₚ x :: l.
Proof.
  induction l as [|y l IH]; simpl; [done|].
  destruct (_ <=? _)%Z; [done|]. rewrite IH. apply Permutation_swap.
Qed.

(** Sorting rearranges. *)
Lemma sort_byName_Permutation localeCompare l :
  sort_byName localeCompare l ≡ₚ l.
Proof.
  induction l as [|x l IH]; simpl; [done|].
  by rewrite insert_byName_Permutation, IH.
Qed.

Lemma sort_byName_NoDup localeCompare l :
  NoDup (nodeIds l) -> NoDup (nodeIds (sort_byName localeCompare l)).
Proof.
  unfold nodeIds. by rewrite sort_byName_Permutation.
Qed.

(** C9: whenever [getSelectableLocations] returns its five lists, none of
    them holds a node id twice; and it does return them on every graph
    whose edges join keys of the node map (on other graphs reading the
    elevation of a missing node may throw).  This holds for any collation
    behind [localeCompare]. *)
Theorem getSelectableLocations_NoDup localeCompare graphData :
  (edges_in_nodes graphData ->
     exists l, getSelectableLocations localeCompare (new_SkiGraph graphData) = Ok l) /\
  (forall l, getSelectableLocations localeCompare (new_SkiGraph graphData) = Ok l ->
     NoDup (nodeIds (stations l)) /\
     NoDup (nodeIds (slopeTops l)) /\
     NoDup (nodeIds (slopeBottoms l)) /\
     NoDup (nodeIds (liftTops l)) /\
     NoDup (nodeIds (liftBottoms l))).
Proof.
  unfold getSelectableLocations. split.
  - intros H.
    edestruct (visit_edges_Ok (new_SkiGraph graphData)) as [s' ->]; [exact H|].
    simpl. eauto.
  - intros l H.
    destruct (for_of _ _ _) as [s|] eqn:E; [|discriminate].
    simpl in H. injection H as <-. simpl.
    apply visit_edges_guarded in E as ([H1 _] & [H2 _] & [H3 _] & [H4 _]).
    + repeat split; apply sort_byName_NoDup; try assumption.
      apply station_entries_NoDup.
    + unfold Seen_guarded, guarded, nodeIds. simpl.
      repeat split; try constructor; intros k Hk; by apply elem_of_nil in Hk.
Qed.

(** * Further properties *)

(** ** The priority queue as a multiset *)

Lemma swap_Permutation heap a b : swap heap a b ≡ₚ heap.
Proof.
  unfold swap. destruct (heap !! a) as [x|] eqn:Ea; [|done].
  destruct (heap !! b) as [y|] eqn:Eb; [|done].
  by apply Permutation_insert_swap.
Qed.

Lemma bubbleUp_loop_Permutation fuel heap i : bubbleUp_loop fuel heap i ≡ₚ heap.
Proof.
  revert heap i. induction fuel as [|fuel IH]; intros heap i; simpl; [done|].
  case_bool_decide; [|done].
  destruct (heap !! ((i - 1) / 2)), (heap !! i); try done.
  case_Qle Hle; [done|]. by rewrite IH, swap_Permutation.
Qed.

Lemma sinkDown_loop_Permutation fuel heap i : sinkDown_loop fuel heap i ≡ₚ heap.
Proof.
  revert heap i. induction fuel as [|fuel IH]; intros heap i; [done|].
  rewrite sinkDown_loop_S. case_bool_decide; [done|].
  by rewrite IH, swap_Permutation.
Qed.

Lemma heap_ok_nil : heap_ok [].
Proof. intros j _ x y Hx. by destruct j. Qed.

(** X1: [insert] on a queue in heap order leaves a queue in heap order
    that holds the entries it held before and the new entry, each as often
    as before. *)
Theorem insert_pq_heap heap k p :
  heap_ok heap ->
  heap_ok (insert_pq heap k p) /\
  insert_pq heap k p ≡ₚ {| key := k; priority := p |} :: heap.
Proof.
  intros Hok. split; [by apply insert_pq_ok|].
  unfold insert_pq, _bubbleUp. rewrite bubbleUp_loop_Permutation.
  by rewrite Permutation_app_comm.
Qed.

Lemma insert_pq_heap_witness :
  heap_ok (insert_pq (insert_pq [] "b" 3) "a" 1) /\
  heap_ok (insert_pq (insert_pq (insert_pq [] "b" 3) "a" 1) "c" 2) /\
  insert_pq (insert_pq (insert_pq [] "b" 3) "a" 1) "c" 2 ≡ₚ
    {| key := "c"; priority := 2 |} :: insert_pq (insert_pq [] "b" 3) "a" 1.
Proof.
  assert (heap_ok (insert_pq (insert_pq [] "b" 3) "a" 1)) as H.
  { apply insert_pq_ok, insert_pq_ok, heap_ok_nil. }
  split; [exact H|]. exact (insert_pq_heap _ "c" 2 H).
Defined.

(** X2: [extractMin] on a queue in heap order.  It returns [null] only
    on the empty queue.  Otherwise it returns the key of an entry whose
    priority is the least in the queue, and leaves the other entries, each
    as often as before, in heap order. *)
Theorem extractMin_least heap :
  heap_ok heap ->
  match extractMin heap with
  | (None, rest) => heap = [] /\ rest = []
  | (Some u, rest) =>
      exists min, key min = u /\
        heap ≡ₚ min :: rest /\
        (forall x, x ∈ heap -> (priority min <= priority x)%Q) /\
        heap_ok rest
  end.
Proof.
  intros Hok. destruct heap as [|m rest0]; [done|].
  destruct (extractMin_Some (m :: rest0) _ _ (extractMin_cons m rest0))
    as (min & _ & _ & _ & _ & Hmin).
  destruct (Hmin Hok) as [Hok' _]. clear Hmin min.
  rewrite extractMin_cons.
  assert (m :: rest0 = removelast (m :: rest0) ++ [List.last (m :: rest0) m]) as Heq.
  { by apply app_removelast_last. }
  set (lst := List.last (m :: rest0) m) in *.
  set (front := removelast (m :: rest0)) in *.
  clearbody lst front.
  exists m. split; [done|]. split; [|split; [|done]].
  - rewrite Heq. destruct front as [|m' front']; simpl.
    + simpl in Heq. injection Heq as Hm _. by rewrite Hm.
    + injection Heq as <- Hr.
      unfold _sinkDown. rewrite sinkDown_loop_Permutation. simpl.
      constructor. by rewrite Permutation_app_comm.
  - intros x [j Hj]%list_elem_of_lookup. by eapply (heap_ok_root _ j Hok).
Qed.

Lemma extractMin_least_witness :
  heap_ok (insert_pq (insert_pq [] "b" 3) "a" 1) /\
  exists min, key min = "a" /\
    insert_pq (insert_pq [] "b" 3) "a" 1 ≡ₚ min :: [{| key := "b"; priority := 3 |}] /\
    (forall x, x ∈ insert_pq (insert_pq [] "b" 3) "a" 1 -> (priority min <= priority x)%Q) /\
    heap_ok [{| key := "b"; priority := 3 |}].
Proof.
  assert (heap_ok (insert_pq (insert_pq [] "b" 3) "a" 1)) as H.
  { apply insert_pq_ok, insert_pq_ok, heap_ok_nil. }
  split; [exact H|]. exact (extractMin_least _ H).
Defined.

(** ** The edge index *)

Lemma edgesById_foldl_snoc (m : gmap string Edge) es edge :
  foldl (fun m edge => <[e_id edge := edge]> m) m (es ++ [edge]) =
  <[e_id edge := edge]> (foldl (fun m edge => <[e_id edge := edge]> m) m es).
Proof. by rewrite foldl_app. Qed.

(** X3: the constructor files every edge under its id, a later edge
    replacing an earlier one with the same id: [edgesById[i]] is the last
    edge of the input whose id is [i], and [undefined] when there is
    none. *)
Theorem edgesById_last graphData i :
  edgesById (new_SkiGraph graphData) !! i =
  last (filter (fun edge => e_id edge = i) (gd_edges graphData)).
Proof.
  unfold new_SkiGraph. cbn [edgesById].
  induction (gd_edges graphData) as [|edge es IH] using rev_ind; [done|].
  rewrite edgesById_foldl_snoc, filter_app.
  destruct (decide (e_id edge = i)) as [Heq|Hne].
  - rewrite filter_cons_True by done. rewrite filter_nil, last_snoc.
    by rewrite Heq, lookup_insert_eq.
  - rewrite filter_cons_False by done. rewrite filter_nil, app_nil_r.
    by rewrite lookup_insert_ne.
Qed.

(** ** The weight model, beyond slopes *)

Lemma excluded_slope_Inf edge excludedColors :
  e_type edge = "slope" /\
  (exists c, e_difficulty edge = Some c /\ c ∈ excludedColors) ->
  calculateWeight edge excludedColors = Inf.
Proof.
  intros [Hs (c & Hd & Hc)]. unfold calculateWeight, has.
  rewrite Hs, Hd. simpl. by rewrite bool_decide_eq_true_2.
Qed.

(** X4: an edge is impassable exactly when it is a slope whose
    difficulty is in the set of excluded colours; a lift, and an edge of
    any other type, always has a finite weight. *)
Theorem calculateWeight_Inf_iff edge excludedColors :
  calculateWeight edge excludedColors = Inf <->
  e_type edge = "slope" /\
  exists c, e_difficulty edge = Some c /\ c ∈ excludedColors.
Proof.
  unfold calculateWeight, has.
  destruct (e_type edge =? "slope") eqn:Es.
  - apply String.eqb_eq in Es. destruct (e_difficulty edge) as [c|]; simpl.
    + case_bool_decide as Hc; simpl; split; try done.
      * eauto.
      * intros [_ (c' & [= <-] & Hc')]. by destruct Hc.
    + split; [done|]. by intros [_ (c & ? & _)].
  - apply String.eqb_neq in Es. simpl.
    destruct (e_type edge =? "lift"); split; try done; by intros [? _].
Qed.

(** X5: the weight of a lift is its distance divided by the speed of its
    lift type (drag lift 100, chair lift 150, gondola 200, cable car 250,
    magic carpet 50 metres per minute; 150 for any other or a missing lift
    type) plus three minutes of queueing; the weight of an edge that is
    neither a slope nor a lift is its distance divided by 150.  Neither
    depends on the excluded colours. *)
Theorem calculateWeight_lift edge excludedColors :
  e_type edge <> "slope" ->
  (e_type edge = "lift" ->
     (e_liftType edge = Some "drag_lift" ->
        calculateWeight edge excludedColors = Fin (e_distance edge / 100 + 3)) /\
     (e_liftType edge = Some "chair_lift" ->
        calculateWeight edge excludedColors = Fin (e_distance edge / 150 + 3)) /\
     (e_liftType edge = Some "gondola" ->
        calculateWeight edge excludedColors = Fin (e_distance edge / 200 + 3)) /\
     (e_liftType edge = Some "cable_car" ->
        calculateWeight edge excludedColors = Fin (e_distance edge / 250 + 3)) /\
     (e_liftType edge = Some "magic_carpet" ->
        calculateWeight edge excludedColors = Fin (e_distance edge / 50 + 3)) /\
     (e_liftType edge ∉ [Some "drag_lift"; Some "chair_lift"; Some "gondola";
                          Some "cable_car"; Some "magic_carpet"] ->
        calculateWeight edge excludedColors = Fin (e_distance edge / 150 + 3))) /\
  (e_type edge <> "lift" ->
     calculateWeight edge excludedColors = Fin (e_distance edge / 150)).
Proof.
  intros Hs. unfold calculateWeight.
  apply String.eqb_neq in Hs. rewrite Hs. simpl. split.
  - intros ->. simpl. split_and!; try (intros ->; reflexivity).
    intros Hd. destruct (e_liftType edge) as [d|]; [|reflexivity].
    simpl. unfold lift_speeds.
    repeat match goal with
    | |- context [String.eqb d ?s] =>
        destruct (String.eqb_spec d s) as [->|_];
        [exfalso; apply Hd; rewrite !elem_of_cons; tauto|]
    end.
    reflexivity.
  - intros Hl. apply String.eqb_neq in Hl. by rewrite Hl.
Qed.

Lemma calculateWeight_lift_witness :
  calculateWeight gondola_lift {["red"]} = Fin (1000 / 200 + 3).
Proof.
  apply (calculateWeight_lift gondola_lift {["red"]}); [discriminate|reflexivity|reflexivity].
Defined.

(** X6: travel times are not negative.  The finite weight of an edge
    whose distance is not negative is not negative, and that of a lift is
    at least the three minutes of queueing. *)
Theorem calculateWeight_bounds edge excludedColors w :
  (0 <= e_distance edge)%Q ->
  calculateWeight edge excludedColors = Fin w ->
  (0 <= w)%Q /\ (e_type edge = "lift" -> 3 <= w)%Q.
Proof.
  intros Hd Hw. split; [by eapply calculateWeight_nonneg|].
  intros Hl. unfold calculateWeight in Hw. rewrite Hl in Hw. simpl in Hw.
  injection Hw as <-.
  assert (0 < default 150 (lift_speeds (js_key (e_liftType edge))))%Q as Hv.
  { destruct (lift_speeds _) as [v|] eqn:E; simpl; [by eapply lift_speeds_pos|reflexivity]. }
  pose proof (Qdiv_nonneg _ _ Hd Hv). lra.
Qed.

Lemma calculateWeight_bounds_witness :
  (0 <= 1000 / 200 + 3)%Q /\ (e_type gondola_lift = "lift" -> 3 <= 1000 / 200 + 3)%Q.
Proof.
  apply (calculateWeight_bounds gondola_lift {["red"]} (1000 / 200 + 3)).
  - unfold Qle. simpl. lia.
  - reflexivity.
Defined.

(** ** findRoute at the edges of its domain *)

Lemma relax_loop_Ok g excludedColors u l st :
  (forall nb, nb ∈ l -> is_Some (edgesById g !! nb_edgeId nb)) ->
  exists st', for_of (relax g excludedColors u) l st = Ok st'.
Proof.
  revert st. induction l as [|nb l IH]; intros st H; simpl; [eauto|].
  destruct (relax_Ok g excludedColors st u nb) as [st1 ->].
  { apply H, list_elem_of_here. }
  simpl. apply IH. intros nb' Hnb'. apply H. by apply elem_of_cons; right.
Qed.

(** The main loop on a constructed graph raises no exception: every
    adjacency entry names an edge of [edgesById]. *)
Lemma main_loop_no_throw graphData fuel excludedColors t st :
  main_loop fuel (new_SkiGraph graphData) excludedColors t st <> Some Throw.
Proof.
  revert st. induction fuel as [|fuel IH]; intros st; [done|].
  rewrite main_loop_S. destruct (isEmpty (pq st)); [done|].
  destruct (extractMin (pq st)) as [[u|] pq']; [|done].
  destruct (bool_decide (u = t)); [done|].
  destruct (bool_decide (u ∈ visited st)); [apply IH|].
  destruct (adjacency (new_SkiGraph graphData) !! u) as [l|] eqn:Hl; simpl.
  - destruct (relax_loop_Ok (new_SkiGraph graphData) excludedColors u l
                (with_visited (with_pq st pq') u)) as [st' ->].
    { intros nb Hnb. by eapply new_SkiGraph_byId. }
    apply IH.
  - apply IH.
Qed.

(** X7: a start that is no key of the node map has no adjacency list, so
    the search ends after one iteration and the call for an end that is a
    key of the node map returns [no_route], whatever the edges are. *)
Theorem findRoute_unknown_start graphData startNodeId endNodeId excludedColors :
  gd_nodes graphData !! startNodeId = None ->
  is_Some (gd_nodes graphData !! endNodeId) ->
  returns (new_SkiGraph graphData) startNodeId endNodeId excludedColors (Error no_route).
Proof.
  intros Hs [n Ht]. exists 2. unfold findRoute.
  assert (startNodeId <> endNodeId) as Hne by congruence.
  rewrite bool_decide_eq_false_2 by done.
  set (g := new_SkiGraph graphData).
  rewrite main_loop_S.
  change (pq (init_search g startNodeId)) with [{| key := startNodeId; priority := 0 |}].
  change (isEmpty [{| key := startNodeId; priority := 0 |}]) with false.
  change (extractMin [{| key := startNodeId; priority := 0 |}])
    with (Some startNodeId, @nil HeapEntry).
  cbv beta iota. rewrite bool_decide_eq_false_2 by done.
  rewrite bool_decide_eq_false_2 by apply not_elem_of_empty.
  assert (adjacency g !! startNodeId = None) as ->.
  { unfold g. by rewrite adjacency_new_SkiGraph, Hs. }
  simpl. rewrite lookup_insert_ne by done.
  change (nodes g) with (gd_nodes graphData). by rewrite lookup_fmap, Ht.
Qed.

Lemma findRoute_unknown_start_witness :
  returns (new_SkiGraph unknown_source_data) "Z" "B" ∅ (Error no_route).
Proof.
  apply (findRoute_unknown_start unknown_source_data "Z" "B" ∅); [reflexivity|by eexists].
Defined.

(** No predecessor is recorded for a node without a [dist] entry. *)
Lemma Linked_prev_known g excludedColors s st v :
  Linked g excludedColors s st -> ~ known g s v -> prev st !! v = None.
Proof.
  intros HL Hk. destruct (prev st !! v) as [u|] eqn:Hp; [|done].
  destruct (linked_prev _ _ _ _ HL v u Hp) as (nb & w & _ & Ht & Ha & _).
  destruct Ha as (l & edge & _ & _ & _ & _ & Hkn). rewrite Ht in Hkn. by destruct Hk.
Qed.

(** X8: a call whose end is no key of the node map never returns: the
    end has no [dist] entry, [undefined === Infinity] is false, and the
    walk back from the end reaches [undefined] and stays there.  (The
    name "undefined" must not be the start or a key of the node map, for
    [prev[undefined]] reads the entry of that name.) *)
Theorem findRoute_unknown_end graphData startNodeId endNodeId excludedColors :
  gd_nodes graphData !! endNodeId = None ->
  startNodeId <> endNodeId ->
  gd_nodes graphData !! "undefined" = None ->
  startNodeId <> "undefined" ->
  diverges (new_SkiGraph graphData) startNodeId endNodeId excludedColors.
Proof.
  intros Ht Hne Hu Hsu fuel. unfold findRoute.
  rewrite bool_decide_eq_false_2 by done.
  set (g := new_SkiGraph graphData).
  destruct (main_loop fuel g excludedColors endNodeId (init_search g startNodeId))
    as [[st|]|] eqn:Hloop; [|by apply main_loop_no_throw in Hloop|done].
  pose proof (main_loop_Linked g excludedColors startNodeId fuel endNodeId _ st
                (init_Linked g excludedColors startNodeId) Hloop) as HL.
  assert (~ known g startNodeId endNodeId) as Hkt.
  { intros [->|[n Hn]]; [done|]. change (nodes g) with (gd_nodes graphData) in Hn. congruence. }
  assert (~ known g startNodeId "undefined") as Hku.
  { intros [?|[n Hn]]; [done|]. change (nodes g) with (gd_nodes graphData) in Hn. congruence. }
  assert (dist st !! endNodeId = None) as ->.
  { apply eq_None_not_Some. by rewrite (linked_dom _ _ _ _ HL). }
  destruct fuel as [|fuel]; [done|]. simpl.
  rewrite bool_decide_eq_true_2 by congruence.
  rewrite (Linked_prev_known _ _ _ _ _ HL Hkt).
  rewrite reconstruct_undefined; [done|]. by apply (Linked_prev_known _ _ _ _ _ HL Hku).
Qed.

Lemma findRoute_unknown_end_witness :
  diverges (new_SkiGraph fraction_data) "A" "Z" {["red"]}.
Proof.
  apply (findRoute_unknown_end fraction_data "A" "Z" {["red"]});
    [reflexivity|discriminate|reflexivity|discriminate].
Defined.

(** ** The walk back along the predecessor links *)

(** What the reconstruction loop returns does not depend on the lists it
    is started with, which it only extends at the front. *)
Lemma reconstruct_acc fuel prev0 prevEdge0 s current path0 edgePath :
  reconstruct fuel prev0 prevEdge0 s current path0 edgePath =
  (fun r => (r.1 ++ path0, r.2 ++ edgePath)) <$>
    reconstruct fuel prev0 prevEdge0 s current [] [].
Proof.
  revert current path0 edgePath.
  induction fuel as [|fuel IH]; intros current path0 edgePath; [done|].
  simpl. case_bool_decide; [|done].
  rewrite (IH _ (current :: path0)), (IH _ [current]).
  destruct (reconstruct fuel _ _ _ _ [] []) as [[l le]|]; [|done].
  simpl. by rewrite <- !app_assoc.
Qed.

Lemma reconstruct_step fuel prev0 prevEdge0 s current l le :
  reconstruct (S fuel) prev0 prevEdge0 s current [] [] = Some (l, le) ->
  (current = Some s /\ l = [Some s]) \/
  (current <> Some s /\ exists l' le',
     reconstruct fuel prev0 prevEdge0 s (prev0 !! js_key current) [] [] = Some (l', le') /\
     l = l' ++ [current]).
Proof.
  simpl. case_bool_decide as Hc.
  - rewrite reconstruct_acc.
    destruct (reconstruct fuel _ _ _ _ [] []) as [[l' le']|]; [|done].
    simpl. intros [= <- <-]. right. split; [done|]. eauto.
  - intros [= <- <-]. left. split; [|done].
    destruct (decide (current = Some s)); [done|]. by destruct Hc.
Qed.

(** The walk from a node it passes through is the rest of the walk. *)
Lemma reconstruct_through fuel prev0 prevEdge0 s current l le x :
  reconstruct fuel prev0 prevEdge0 s current [] [] = Some (l, le) -> x ∈ l ->
  exists fuel' l1 le1, fuel' <= fuel /\
    reconstruct fuel' prev0 prevEdge0 s x [] [] = Some (l1, le1) /\
    length l1 <= length l.
Proof.
  revert current l le. induction fuel as [|fuel IH]; intros current l le H Hx; [done|].
  pose proof H as H'.
  apply reconstruct_step in H' as [[-> ->]|(Hc & l' & le' & Hrec & ->)].
  - apply list_elem_of_singleton in Hx as ->. exists (S fuel), [Some s], le. done.
  - apply elem_of_app in Hx as [Hx|Hx%list_elem_of_singleton].
    + destruct (IH _ _ _ Hrec Hx) as (fuel' & l1 & le1 & Hf & H1 & Hlen).
      exists fuel', l1, le1. split; [lia|]. split; [done|].
      rewrite length_app. simpl. lia.
    + subst x. exists (S fuel), (l' ++ [current]), le. done.
Qed.

Lemma reconstruct_NoDup fuel prev0 prevEdge0 s current l le :
  reconstruct fuel prev0 prevEdge0 s current [] [] = Some (l, le) -> NoDup l.
Proof.
  revert current l le. induction fuel as [|fuel IH]; intros current l le H; [done|].
  pose proof H as H'.
  apply reconstruct_step in H' as [[-> ->]|(Hc & l' & le' & Hrec & ->)].
  - apply NoDup_singleton.
  - apply NoDup_app. split; [by eapply IH|]. split; [|apply NoDup_singleton].
    intros x Hx ->%list_elem_of_singleton.
    destruct (reconstruct_through _ _ _ _ _ _ _ _ Hrec Hx)
      as (fuel' & l1 & le1 & Hf & H1 & Hlen).
    apply (reconstruct_fuel_mono _ (S fuel)) in H1; [|lia].
    rewrite H in H1. injection H1 as <- _.
    rewrite length_app in Hlen. simpl in Hlen. lia.
Qed.

(** X9: the path of a returned route never holds a node twice, on any
    graph and whatever the weights are: the walk back from the end stops at
    the first occurrence of the start, and a node met twice on the way
    would be met for ever. *)
Theorem findRoute_path_NoDup g startNodeId endNodeId excludedColors route :
  returns g startNodeId endNodeId excludedColors (Found route) ->
  NoDup (path route).
Proof.
  intros [fuel H].
  apply findRoute_Found in H as (_ & st & path0 & edgePath & _ & _ & Hrec & Hb).
  apply build_route_Found in Hb as (_ & _ & _ & _ & -> & _).
  by eapply reconstruct_NoDup.
Qed.

Lemma findRoute_path_NoDup_witness :
  exists route,
    returns (new_SkiGraph diamond_data) "A" "D" ∅ (Found route) /\
    NoDup (path route).
Proof.
  eexists. split; [exists 7; vm_compute; reflexivity|].
  apply (findRoute_path_NoDup (new_SkiGraph diamond_data) "A" "D" ∅).
  exists 7. vm_compute. reflexivity.
Defined.

(** ** What a returned route is made of, on any graph *)

Lemma links_edge_ids g excludedColors s prev0 prevEdge0 v p ep :
  links g excludedColors s prev0 prevEdge0 v p ep ->
  Forall (fun eid => exists edge w,
            edgesById g !! eid = Some edge /\
            calculateWeight edge excludedColors = Fin w) ep.
Proof.
  induction 1 as [|v u nb w p ep _ _ _ _ Ha _ IH]; [constructor|].
  apply Forall_app. split; [done|]. constructor; [|constructor].
  destruct Ha as (l & edge & _ & _ & He & Hw & _). eauto.
Qed.

(** The edge ids a returned route was made from, for an end that is a
    key of the node map: each names an edge of finite weight. *)
Lemma findRoute_edge_ids g s t excludedColors route :
  is_Some (nodes g !! t) ->
  returns g s t excludedColors (Found route) ->
  exists ep,
    Forall (fun eid => exists edge w,
              edgesById g !! eid = Some edge /\
              calculateWeight edge excludedColors = Fin w) ep /\
    Forall2 (fun eid step => make_step g excludedColors (Some eid) = Ok step)
            ep (steps route) /\
    totalTime (summary route) = num_round (t_time (totals (steps route))).
Proof.
  intros Ht [fuel Hf].
  apply findRoute_Found in Hf as (Hne & st & path0 & edgePath & Hloop & Hd & Hrec & Hb).
  pose proof (main_loop_Linked g excludedColors s fuel t _ st
                (init_Linked g excludedColors s) Hloop) as HL.
  destruct (linked_dom _ _ _ _ HL t) as [_ Hk].
  destruct Hk as [[d|] Hdt]; [by right| |done].
  apply (reconstruct_links g excludedColors s st) in Hrec
    as (p & ep & Hl & -> & ->); [|done|eauto].
  rewrite !app_nil_r in Hb.
  apply build_route_Found in Hb as (steps0 & profile & Hsteps & _ & _ & Hst & _ & _ & Htime & _).
  apply map_throw_Forall2, Forall2_fmap_l in Hsteps.
  exists ep. rewrite Hst. split_and!; [by eapply links_edge_ids|done|done].
Qed.

Lemma totals_time_finite steps0 t a :
  t_time t = Fin a ->
  Forall (fun step => exists m, s_estimatedMinutes step = Fin m) steps0 ->
  exists T, t_time (foldl add_step t steps0) = Fin T.
Proof.
  intros Ha H. revert t a Ha.
  induction H as [|step steps0 [m Hm] _ IH]; intros t a Ha; simpl; [eauto|].
  apply (IH _ (a + m)%Q). simpl. by rewrite Ha, Hm.
Qed.

(** X10: a returned route avoids the excluded colours, on any graph and
    for an end that is a key of the node map: no step is a slope whose
    difficulty is excluded, the estimated minutes of every step are
    finite, and so is the total time of the summary. *)
Theorem findRoute_avoids_excluded g startNodeId endNodeId excludedColors route :
  is_Some (nodes g !! endNodeId) ->
  returns g startNodeId endNodeId excludedColors (Found route) ->
  Forall (fun step =>
            (s_type step = "slope" ->
               forall c, s_difficulty step = Some c -> c ∉ excludedColors) /\
            exists m, s_estimatedMinutes step = Fin m) (steps route) /\
  exists T, totalTime (summary route) = Fin T.
Proof.
  intros Ht Hr.
  destruct (findRoute_edge_ids _ _ _ _ _ Ht Hr) as (ep & Hep & Hsteps & Htime).
  assert (Forall (fun step =>
            (s_type step = "slope" ->
               forall c, s_difficulty step = Some c -> c ∉ excludedColors) /\
            exists m, s_estimatedMinutes step = Fin m) (steps route)) as HF.
  { clear Htime. induction Hsteps as [|eid step ep steps0 H1 _ IH]; [constructor|].
    apply Forall_cons in Hep as [(edge & w & He & Hw) Hep].
    constructor; [|by apply IH].
    unfold make_step in H1. simpl in H1. rewrite He in H1. injection H1 as <-. simpl.
    rewrite Hw. split; [|simpl; eauto].
    intros Hs c Hc Hin.
    assert (e_difficulty edge = Some c) as Hd.
    { unfold or_null in Hc. by destruct (truthy (e_difficulty edge)). }
    assert (calculateWeight edge excludedColors = Inf) as Hinf.
    { apply excluded_slope_Inf; eauto. }
    congruence. }
  split; [done|].
  destruct (totals_time_finite (steps route) {| t_distance := 0; t_time := Fin 0; t_up := 0; t_down := 0 |} 0)
    as [T HT]; [done| |].
  { eapply Forall_impl; [exact HF|]. by intros step [_ H]. }
  exists (Math_round T). rewrite Htime. unfold totals. by rewrite HT.
Qed.

Lemma findRoute_avoids_excluded_witness :
  exists route,
    returns (new_SkiGraph diamond_data) "A" "D" {["red"]} (Found route) /\
    Forall (fun step =>
              (s_type step = "slope" ->
                 forall c, s_difficulty step = Some c -> c ∉ ({["red"]} : gset string)) /\
              exists m, s_estimatedMinutes step = Fin m) (steps route) /\
    exists T, totalTime (summary route) = Fin T.
Proof.
  eexists. split; [exists 7; vm_compute; reflexivity|].
  apply (findRoute_avoids_excluded (new_SkiGraph diamond_data) "A" "D" {["red"]}).
  - by eexists.
  - exists 7. vm_compute. reflexivity.
Defined.

(** ** Routes and paths *)

(** After the main loop, on a graph with unique edge identifiers whose
    edges join keys of the node map: the end is at a finite distance
    exactly when the input has a path of finite weight to it. *)
Lemma Post_reach graphData s t excludedColors st :
  unique_edge_ids graphData -> edges_in_nodes graphData ->
  Post (new_SkiGraph graphData) excludedColors s t st ->
  (exists es, edge_path graphData excludedColors s t es) <->
  exists d, dist st !! t = Some (Fin d).
Proof.
  intros Hu Hin HP. split.
  - intros [es Hp].
    destruct (walk_of_edge_path _ _ s _ _ _ 0 Hu Hin Hp) as (c & Hw & _).
    { constructor. }
    by apply (post_complete _ _ _ _ _ HP c).
  - intros [d Hd]. destruct (post_chain _ _ _ _ _ HP _ _ Hd) as (p & ep & Hc).
    destruct (chain_edge_path _ _ _ _ _ _ _ _ Hu Hc) as (es & Hp & _). eauto.
Qed.

(** X11: on a graph in the sense of the data model, a call between two
    different keys of the node map returns [no_route] exactly when the
    input has no directed path from the start to the end over edges of
    finite weight, and returns a route exactly when it has one. *)
Theorem findRoute_no_route_iff graphData startNodeId endNodeId excludedColors :
  valid_graph graphData ->
  is_Some (gd_nodes graphData !! startNodeId) ->
  is_Some (gd_nodes graphData !! endNodeId) ->
  startNodeId <> endNodeId ->
  (returns (new_SkiGraph graphData) startNodeId endNodeId excludedColors (Error no_route) <->
     ~ exists es, edge_path graphData excludedColors startNodeId endNodeId es) /\
  ((exists route,
      returns (new_SkiGraph graphData) startNodeId endNodeId excludedColors (Found route)) <->
     exists es, edge_path graphData excludedColors startNodeId endNodeId es).
Proof.
  intros (Hu & Hin & Hnn) Hs Ht Hne.
  destruct (findRoute_outcome graphData startNodeId endNodeId excludedColors Hin Hnn Hs Ht Hne)
    as (st & HP & Hcases).
  rewrite (Post_reach _ _ _ _ _ Hu Hin HP).
  destruct Hcases as [[Hinf Hr]|(d & route & Hd & Hr)].
  - split.
    + split; [|done]. intros _ [d Hd]. congruence.
    + split; [|intros [d Hd]; congruence].
      intros [route Hr']. by pose proof (returns_unique _ _ _ _ _ _ Hr Hr').
  - split.
    + split; [|intros Hn; destruct Hn; eauto].
      intros Hr'. by pose proof (returns_unique _ _ _ _ _ _ Hr Hr').
    + split; eauto.
Qed.

Lemma findRoute_no_route_iff_witness :
  (returns (new_SkiGraph diamond_data) "D" "A" ∅ (Error no_route) <->
     ~ exists es, edge_path diamond_data ∅ "D" "A" es) /\
  ((exists route, returns (new_SkiGraph diamond_data) "D" "A" ∅ (Found route)) <->
     exists es, edge_path diamond_data ∅ "D" "A" es).
Proof.
  apply (findRoute_no_route_iff diamond_data "D" "A" ∅);
    [exact diamond_valid|by eexists|by eexists|discriminate].
Defined.

(** ** Excluding fewer colours, in general *)

Lemma has_subset (E E' : gset string) d : E ⊆ E' -> has E' d = false -> has E d = false.
Proof.
  intros Hsub. destruct d as [c|]; [|done]. simpl.
  rewrite !bool_decide_eq_false. intros Hn Hc. by apply Hn, Hsub.
Qed.

(** An edge that is passable under some exclusions is passable, at the
    same cost, under fewer. *)
Lemma finite_cost_subset (E E' : gset string) edge w :
  E ⊆ E' -> finite_cost E' edge w -> finite_cost E edge w.
Proof.
  intros Hsub. unfold finite_cost, calculateWeight.
  destruct (e_type edge =? "slope"); [|done]. simpl.
  destruct (has E' (e_difficulty edge)) eqn:Hh; [done|].
  by rewrite (has_subset E E' _ Hsub Hh).
Qed.

Lemma edge_path_subset graphData (E E' : gset string) a b es :
  E ⊆ E' -> edge_path graphData E' a b es ->
  edge_path graphData E a b es /\ (path_cost E es == path_cost E' es)%Q.
Proof.
  intros Hsub. induction 1 as [a|a b e w es He Hse Hwe _ [IH1 IH2]].
  - split; [constructor|reflexivity].
  - split.
    + econstructor; [done|done|by eapply finite_cost_subset|done].
    + simpl. rewrite IH2, (cost_of_finite E' e w Hwe).
      rewrite (cost_of_finite E e w (finite_cost_subset E E' e w Hsub Hwe)).
      reflexivity.
Qed.

(** A path of finite weight in the input makes the call return a route,
    and the route is at most as long as the path. *)
Lemma route_of_path graphData startNodeId endNodeId excludedColors es :
  valid_graph graphData ->
  is_Some (gd_nodes graphData !! endNodeId) ->
  startNodeId <> endNodeId ->
  edge_path graphData excludedColors startNodeId endNodeId es ->
  exists route,
    returns (new_SkiGraph graphData) startNodeId endNodeId excludedColors (Found route) /\
    (path_cost excludedColors (traversed (new_SkiGraph graphData) route) <=
     path_cost excludedColors es)%Q.
Proof.
  intros (Hu & Hin & Hnn) Ht Hne Hp.
  assert (is_Some (gd_nodes graphData !! startNodeId)) as Hs.
  { inversion Hp as [|a b e w es0 He Hse _ _]; [done|]. subst.
    unfold edges_in_nodes in Hin. rewrite Forall_forall in Hin. by apply Hin. }
  destruct (walk_of_edge_path _ _ startNodeId _ _ _ 0 Hu Hin Hp) as (c & Hw & Hc).
  { constructor. }
  destruct (findRoute_outcome graphData startNodeId endNodeId excludedColors Hin Hnn Hs Ht Hne)
    as (st & HP & [[Hinf _]|(d & route & _ & Hr)]).
  - exfalso. destruct (post_complete _ _ _ _ _ HP c Hw) as [d Hd]. congruence.
  - exists route. split; [done|].
    destruct (route_anatomy _ _ _ _ _ Hu Hnn Ht Hr)
      as (st0 & d0 & es0 & HP0 & Hd0 & _ & Hcost0 & _ & _ & ->).
    pose proof (post_optimal _ _ _ _ _ HP0 d0 Hd0 c Hw) as Hle.
    rewrite Hcost0. lra.
Qed.

(** X12: excluding fewer colours never loses a route and never lengthens
    the optimum.  On a graph in the sense of the data model and for an end
    that is a key of the node map: if the call with the exclusions [E']
    returns a route and [E] is a subset of [E'], the call with the
    exclusions [E] returns a route as well, and the sum of the weights of
    its edges is at most that of the route found under [E']. *)
Theorem findRoute_exclusions_subset graphData startNodeId endNodeId (E E' : gset string) route' :
  valid_graph graphData ->
  is_Some (gd_nodes graphData !! endNodeId) ->
  E ⊆ E' ->
  returns (new_SkiGraph graphData) startNodeId endNodeId E' (Found route') ->
  exists route,
    returns (new_SkiGraph graphData) startNodeId endNodeId E (Found route) /\
    (path_cost E (traversed (new_SkiGraph graphData) route) <=
     path_cost E' (traversed (new_SkiGraph graphData) route'))%Q.
Proof.
  intros Hv Ht Hsub Hr'. pose proof Hv as (Hu & _ & Hnn).
  assert (startNodeId <> endNodeId) as Hne.
  { destruct Hr' as [fuel Hr']. by apply findRoute_Found in Hr' as [? _]. }
  destruct (route_anatomy _ _ _ _ _ Hu Hnn Ht Hr')
    as (_ & _ & es' & _ & _ & Hp' & _ & _ & _ & ->).
  destruct (edge_path_subset _ _ _ _ _ _ Hsub Hp') as [Hp Hcost].
  destruct (route_of_path _ _ _ _ _ Hv Ht Hne Hp) as (route & Hr & Hle).
  exists route. split; [done|]. by rewrite <- Hcost.
Qed.

Lemma findRoute_exclusions_subset_witness :
  exists route' route,
    returns (new_SkiGraph diamond_data) "A" "D" {["red"; "black"]} (Found route') /\
    returns (new_SkiGraph diamond_data) "A" "D" {["black"]} (Found route) /\
    (path_cost {["black"]} (traversed (new_SkiGraph diamond_data) route) <=
     path_cost {["red"; "black"]} (traversed (new_SkiGraph diamond_data) route'))%Q.
Proof.
  assert (exists route',
    findRoute 7 (new_SkiGraph diamond_data) "A" "D" {["red"; "black"]} = Some (Found route'))
    as [route' Hr'].
  { eexists. vm_compute. reflexivity. }
  destruct (findRoute_exclusions_subset diamond_data "A" "D" {["black"]} {["red"; "black"]} route')
    as (route & Hr & Hle).
  - exact diamond_valid.
  - by eexists.
  - apply union_subseteq_r.
  - by exists 7.
  - exists route', route. split; [by exists 7|]. by split.
Defined.

(** ** The summary *)

Lemma Math_round_close x : (Qabs (Math_round x - x) <= 1 # 2)%Q.
Proof.
  unfold Math_round. apply Qabs_Qle_condition.
  pose proof (Qfloor_le (x + (1 # 2))) as H1.
  pose proof (Qlt_floor (x + (1 # 2))) as H2.
  rewrite inject_Z_plus in H2. change (inject_Z 1) with 1%Q in H2.
  split; lra.
Qed.

Lemma round1_close w :
  exists r, round1 (Fin w) = Fin r /\ (Qabs (r - w) <= 1 # 20)%Q.
Proof.
  eexists. split; [reflexivity|].
  pose proof (Math_round_close (w * 10)) as H.
  apply Qabs_Qle_condition in H. apply Qabs_Qle_condition.
  set (m := Math_round (w * 10)) in *. clearbody m.
  unfold Qdiv. change (/ 10)%Q with (1 # 10)%Q. split; lra.
Qed.

(** The edges a route traverses are those its steps were made from. *)
Lemma traversed_steps graphData excludedColors es steps0 :
  unique_edge_ids graphData ->
  Forall (fun edge => edge ∈ gd_edges graphData) es ->
  Forall2 (fun edge step =>
             make_step (new_SkiGraph graphData) excludedColors (Some (e_id edge)) = Ok step)
          es steps0 ->
  omap (fun step => edgesById (new_SkiGraph graphData) !! s_edgeId step) steps0 = es.
Proof.
  intros Hu Hel Hsteps.
  induction Hsteps as [|edge step es steps0 H1 _ IH]; [done|].
  apply Forall_cons in Hel as [Hin Hel].
  destruct (make_step_unique _ _ _ _ Hu Hin H1) as (Hid & _).
  cbn [omap list_omap]. rewrite Hid, (edgesById_unique _ _ Hu Hin).
  f_equal. by apply IH.
Qed.

Lemma totals_time_close graphData excludedColors es steps0 :
  unique_edge_ids graphData ->
  Forall (fun edge => edge ∈ gd_edges graphData /\
                      exists w, finite_cost excludedColors edge w) es ->
  Forall2 (fun edge step =>
             make_step (new_SkiGraph graphData) excludedColors (Some (e_id edge)) = Ok step)
          es steps0 ->
  forall t a c k, t_time t = Fin a -> (Qabs (a - c) <= k)%Q ->
  exists T, t_time (foldl add_step t steps0) = Fin T /\
    (Qabs (T - (c + path_cost excludedColors es)) <=
     k + (1 # 20) * inject_Z (Z.of_nat (length steps0)))%Q.
Proof.
  intros Hu Hel Hsteps.
  induction Hsteps as [|edge step es steps0 H1 _ IH]; intros t a c k Ha Hk.
  - exists a. split; [done|]. unfold path_cost. cbn [foldr length].
    change (inject_Z (Z.of_nat 0)) with 0%Q.
    apply Qabs_Qle_condition in Hk. apply Qabs_Qle_condition. split; lra.
  - apply Forall_cons in Hel as [[Hin [w Hw]] Hel].
    destruct (make_step_unique _ _ _ _ Hu Hin H1) as (_ & _ & _ & _ & Hm).
    rewrite Hw in Hm. destruct (round1_close w) as (r & Hr & Hrw). rewrite Hr in Hm.
    destruct (IH Hel (add_step t step) (a + r)%Q (c + w)%Q (k + (1 # 20))%Q)
      as (T & HT & Hb).
    { simpl. by rewrite Ha, Hm. }
    { apply Qabs_Qle_condition in Hk, Hrw. apply Qabs_Qle_condition. split; lra. }
    exists T. split; [done|].
    cbn [length foldr path_cost]. rewrite Nat2Z.inj_succ, <- Z.add_1_r, inject_Z_plus.
    change (inject_Z 1) with 1%Q.
    unfold path_cost in Hb |- *. cbn [foldr].
    rewrite (cost_of_finite _ _ _ Hw).
    apply Qabs_Qle_condition in Hb. apply Qabs_Qle_condition. split; lra.
Qed.

(** X13: what the rounding costs.  On a graph with unique edge
    identifiers and for an end that is a key of the node map, the total
    time a returned route reports differs from the sum of the weights of
    its edges by at most half a minute plus a twentieth of a minute for
    every step: each step is rounded to a tenth of a minute and the sum of
    the rounded steps to a minute. *)
Theorem totalTime_close graphData startNodeId endNodeId excludedColors route :
  unique_edge_ids graphData ->
  is_Some (gd_nodes graphData !! endNodeId) ->
  returns (new_SkiGraph graphData) startNodeId endNodeId excludedColors (Found route) ->
  exists T, totalTime (summary route) = Fin T /\
    (Qabs (T - path_cost excludedColors (traversed (new_SkiGraph graphData) route)) <=
     (1 # 2) + (1 # 20) * inject_Z (Z.of_nat (stepCount (summary route))))%Q.
Proof.
  intros Hu Ht Hr.
  destruct (route_path_anatomy _ _ _ _ _ Hu Ht Hr) as (es & Hp & _ & Hsteps).
  destruct Hr as [fuel Hf].
  apply findRoute_Found in Hf as (_ & _ & path0 & edgePath & _ & _ & _ & Hb).
  apply build_route_Found in Hb as (steps0 & _ & _ & _ & _ & Hst & _ & _ & Htime & Hcount).
  rewrite Hst in Hsteps.
  assert (Forall (fun edge => edge ∈ gd_edges graphData /\
                              exists w, finite_cost excludedColors edge w) es) as Hel.
  { apply Forall_and. split; [by eapply edge_path_elem|by eapply edge_path_finite]. }
  destruct (totals_time_close _ _ _ _ Hu Hel Hsteps
              {| t_distance := 0; t_time := Fin 0; t_up := 0; t_down := 0 |} 0 0 0)
    as (T' & HT' & Hb); [done|apply Qabs_Qle_condition; split; lra|].
  exists (Math_round T'). split.
  { rewrite Htime. unfold totals. by rewrite HT'. }
  unfold traversed. rewrite Hst, Hcount.
  rewrite (traversed_steps _ _ _ _ Hu (edge_path_elem _ _ _ _ _ Hp) Hsteps).
  pose proof (Math_round_close T') as Hm.
  apply Qabs_Qle_condition in Hb, Hm. apply Qabs_Qle_condition. split; lra.
Qed.

Lemma totalTime_close_witness :
  exists route,
    returns (new_SkiGraph rounding_data) "A" "B" ∅ (Found route) /\
    exists T, totalTime (summary route) = Fin T /\
      (Qabs (T - path_cost ∅ (traversed (new_SkiGraph rounding_data) route)) <=
       (1 # 2) + (1 # 20) * inject_Z (Z.of_nat (stepCount (summary route))))%Q.
Proof.
  eexists. split; [exists 7; vm_compute; reflexivity|].
  apply (totalTime_close rounding_data "A" "B" ∅).
  - exact rounding_unique.
  - by eexists.
  - exists 7. vm_compute. reflexivity.
Defined.

Lemma Math_round_comp x y : (x == y)%Q -> Math_round x = Math_round y.
Proof.
  intros H. unfold Math_round. f_equal. apply Qfloor_comp. by rewrite H.
Qed.

(** The two running totals of elevation are the climb and the descent of
    the steps added so far. *)
Lemma totals_climb steps0 t :
  (t_up (foldl add_step t steps0) == t_up t + climb steps0)%Q /\
  (t_down (foldl add_step t steps0) == t_down t + descent steps0)%Q.
Proof.
  revert t. induction steps0 as [|step steps0 IH]; intros t.
  - simpl. split; lra.
  - cbn [foldl climb descent foldr]. destruct (IH (add_step t step)) as [H1 H2].
    fold (climb steps0) (descent steps0). rewrite H1, H2. simpl.
    destruct (Qlt_le_dec 0 (s_elevationDelta step)) as [Hpos|Hneg].
    + apply Qltb_lt in Hpos. rewrite Hpos. split; lra.
    + pose proof Hneg as Hb. apply Qltb_ge in Hb. rewrite Hb.
      unfold Math_abs. rewrite (Qabs_neg _ Hneg). split; lra.
Qed.

Lemma climb_descent steps0 :
  (0 <= climb steps0)%Q /\ (0 <= descent steps0)%Q /\
  (climb steps0 - descent steps0 ==
   foldr (fun step acc => s_elevationDelta step + acc) 0 steps0)%Q.
Proof.
  induction steps0 as [|step steps0 (H1 & H2 & H3)].
  - simpl. split_and!; lra.
  - cbn [climb descent foldr]. fold (climb steps0) (descent steps0).
    rewrite <- H3.
    destruct (Qlt_le_dec 0 (s_elevationDelta step)) as [Hpos|Hneg]; split_and!; lra.
Qed.

Lemma build_route_up_down g excludedColors path0 edgePath route :
  build_route g excludedColors path0 edgePath = Found route ->
  length (steps route) = length edgePath /\
  totalUp (summary route) = Math_round (t_up (totals (steps route))) /\
  totalDown (summary route) = Math_round (t_down (totals (steps route))).
Proof.
  unfold build_route.
  destruct (map_throw _ edgePath) as [steps0|] eqn:Hs; [|done].
  destruct (_buildElevationProfile g path0 steps0); [|done].
  intros [= <-]. simpl. split; [|done].
  apply map_throw_Forall2 in Hs. symmetry. by eapply Forall2_length.
Qed.

Lemma reconstruct_length fuel prev0 prevEdge0 s current path0 edgePath p e :
  reconstruct fuel prev0 prevEdge0 s current path0 edgePath = Some (p, e) ->
  length p + length edgePath = S (length e + length path0).
Proof.
  revert current path0 edgePath.
  induction fuel as [|fuel IH]; intros current path0 edgePath H; [done|].
  simpl in H. case_bool_decide.
  - apply IH in H. simpl in H. lia.
  - injection H as <- <-. simpl. lia.
Qed.

(** X14: the summary of a returned route, on any graph.  Its step count
    is the number of steps, one less than the number of nodes of the path.
    Its total climb is the rounding of the climb of the steps, the sum of
    their positive elevation changes, and its total descent the rounding
    of their descent, the sum of all other elevation changes counted as
    positive amounts.  Neither sum is negative, and the climb less the
    descent is the sum of the elevation changes of the steps. *)
Theorem summary_totals g startNodeId endNodeId excludedColors route :
  returns g startNodeId endNodeId excludedColors (Found route) ->
  stepCount (summary route) = length (steps route) /\
  length (path route) = S (length (steps route)) /\
  totalUp (summary route) = Math_round (climb (steps route)) /\
  totalDown (summary route) = Math_round (descent (steps route)) /\
  (0 <= climb (steps route))%Q /\
  (0 <= descent (steps route))%Q /\
  (climb (steps route) - descent (steps route) ==
   foldr (fun step acc => s_elevationDelta step + acc) 0 (steps route))%Q.
Proof.
  intros [fuel H].
  apply findRoute_Found in H as (_ & st & path0 & edgePath & _ & _ & Hrec & Hb).
  apply reconstruct_length in Hrec. simpl in Hrec.
  pose proof (build_route_up_down _ _ _ _ _ Hb) as (Hlen & Hup & Hdown).
  apply build_route_Found in Hb as (steps0 & _ & _ & _ & Hpath & Hst & _ & _ & _ & Hcount).
  split; [by rewrite Hcount, Hst|]. split; [rewrite Hpath; lia|].
  destruct (totals_climb (steps route)
              {| t_distance := 0; t_time := Fin 0; t_up := 0; t_down := 0 |})
    as [H1 H2].
  cbn [t_up t_down] in H1, H2. fold (totals (steps route)) in H1, H2.
  split.
  { rewrite Hup. apply Math_round_comp. rewrite H1. lra. }
  split.
  { rewrite Hdown. apply Math_round_comp. rewrite H2. lra. }
  apply climb_descent.
Qed.

Lemma summary_totals_witness :
  exists route,
    returns (new_SkiGraph diamond_data) "A" "D" ∅ (Found route) /\
    stepCount (summary route) = length (steps route) /\
    length (path route) = S (length (steps route)) /\
    totalUp (summary route) = Math_round (climb (steps route)) /\
    totalDown (summary route) = Math_round (descent (steps route)) /\
    (0 <= climb (steps route))%Q /\
    (0 <= descent (steps route))%Q /\
    (climb (steps route) - descent (steps route) ==
     foldr (fun step acc => s_elevationDelta step + acc) 0 (steps route))%Q.
Proof.
  eexists. split; [exists 7; vm_compute; reflexivity|].
  apply (summary_totals (new_SkiGraph diamond_data) "A" "D" ∅).
  exists 7. vm_compute. reflexivity.
Defined.

(** ** Exceptions *)

Lemma arc_nodes graphData excludedColors s u nb w :
  unique_edge_ids graphData ->
  arc (new_SkiGraph graphData) excludedColors s u nb w ->
  is_Some (gd_nodes graphData !! u) /\
  exists edge, edgesById (new_SkiGraph graphData) !! nb_edgeId nb = Some edge /\
    e_source edge = u /\ e_target edge = nb_target nb.
Proof.
  intros Hu Ha. pose proof Ha as (l & _ & Hl & _).
  rewrite adjacency_new_SkiGraph in Hl.
  split; [by destruct (gd_nodes graphData !! u)|].
  apply arc_edge in Ha as (edge & _ & Hs & Ht & _ & He & _); [|done]. eauto.
Qed.

(** The links back from a node other than the start, on a constructed
    graph with unique edge identifiers: the start is a key of the node
    map, and every edge on the way joins two keys of the node map. *)
Lemma links_nodes graphData excludedColors s prev0 prevEdge0 v p ep :
  unique_edge_ids graphData ->
  links (new_SkiGraph graphData) excludedColors s prev0 prevEdge0 v p ep ->
  (exists rest, p = s :: rest) /\
  (v <> s -> is_Some (gd_nodes graphData !! s)) /\
  Forall (fun eid => exists edge,
            edgesById (new_SkiGraph graphData) !! eid = Some edge /\
            is_Some (nodes (new_SkiGraph graphData) !! e_source edge) /\
            is_Some (nodes (new_SkiGraph graphData) !! e_target edge)) ep.
Proof.
  intros Hu. induction 1 as [|v u nb w p ep Hv _ _ Ht Ha _ ([rest ->] & IHs & IHe)].
  - split; [by exists []|]. split; [done|constructor].
  - pose proof Ha as (_ & _ & _ & _ & _ & _ & Hk).
    destruct (arc_nodes _ _ _ _ _ _ Hu Ha) as (Hnu & edge & He & Hes & Het).
    split; [by exists (rest ++ [v])|]. split.
    + intros _. destruct (decide (u = s)) as [<-|Hne]; [done|by apply IHs].
    + apply Forall_app. split; [done|]. constructor; [|constructor].
      exists edge. split; [done|]. rewrite Hes, Het, Ht. split; [done|].
      destruct Hk as [Hk|Hk]; [by rewrite Ht in Hk|by rewrite Ht in Hk].
Qed.

(** X15: on a graph with unique edge identifiers a call for an end that
    is a key of the node map raises no exception, whatever the end points
    and distances of the edges are: if it returns, it returns
    [same_location], [no_route] or a route. *)
Theorem findRoute_never_throws graphData startNodeId endNodeId excludedColors :
  unique_edge_ids graphData ->
  is_Some (gd_nodes graphData !! endNodeId) ->
  ~ returns (new_SkiGraph graphData) startNodeId endNodeId excludedColors Threw.
Proof.
  intros Hu Ht [fuel H]. unfold findRoute in H.
  case_bool_decide as Hne; [done|].
  set (g := new_SkiGraph graphData) in *.
  destruct (main_loop fuel g excludedColors endNodeId (init_search g startNodeId))
    as [[st|]|] eqn:Hloop; [|by apply main_loop_no_throw in Hloop|done].
  pose proof (main_loop_Linked g excludedColors startNodeId fuel endNodeId _ st
                (init_Linked g excludedColors startNodeId) Hloop) as HL.
  destruct (linked_dom _ _ _ _ HL endNodeId) as [_ Hk].
  destruct Hk as [[d|] Hdt]; [by right| |by rewrite Hdt in H].
  rewrite Hdt in H.
  destruct (reconstruct fuel _ _ _ _ _ _) as [[path0 edgePath]|] eqn:Hrec; [|done].
  apply (reconstruct_links g excludedColors startNodeId st) in Hrec
    as (p & ep & Hl & -> & ->); [|done|eauto].
  rewrite !app_nil_r in H.
  destruct (links_nodes _ _ _ _ _ _ _ _ Hu Hl) as ([rest ->] & Hs & Hep).
  destruct (build_route_Ok g excludedColors startNodeId (Some <$> rest) ep) as [route Hr];
    [apply Hs; congruence|done|].
  rewrite fmap_cons in H. congruence.
Qed.

Lemma findRoute_never_throws_witness :
  ~ returns (new_SkiGraph negative_data) "S" "C" ∅ Threw.
Proof.
  apply (findRoute_never_throws negative_data "S" "C" ∅); [|by eexists].
  unfold unique_edge_ids. simpl.
  repeat (apply NoDup_cons; split;
          [rewrite ?not_elem_of_cons; split_and?; (discriminate || apply not_elem_of_nil)|]).
  apply NoDup_nil_2.
Defined.

(** The assumption on the identifiers is needed: when two edges share an
    id the later one is found under it, and a step made from it may name
    nodes that do not exist. *)
Remark findRoute_duplicate_id_throws :
  is_Some (gd_nodes duplicate_id_data !! "B") /\
  returns (new_SkiGraph duplicate_id_data) "A" "B" ∅ Threw.
Proof. split; [by eexists|]. exists 3. vm_compute. reflexivity. Qed.

(** ** The main loop always comes to an end *)

Lemma relax_pq g excludedColors u st nb st' :
  relax g excludedColors u st nb = Ok st' ->
  visited st' = visited st /\ length (pq st') <= S (length (pq st)).
Proof.
  unfold relax. destruct (edgesById g !! nb_edgeId nb) as [edge|]; [|discriminate].
  destruct (calculateWeight edge excludedColors); [|intros [= <-]; split; [done|lia]].
  destruct (dist st !! u) as [[du|]|]; [|intros [= <-]; split; [done|lia]..].
  destruct (num_lt _ _); intros [= <-]; simpl; [|split; [done|lia]].
  split; [done|]. by rewrite length_insert_pq.
Qed.

Lemma relax_loop_pq g excludedColors u l st st' :
  for_of (relax g excludedColors u) l st = Ok st' ->
  visited st' = visited st /\ length (pq st') <= length (pq st) + length l.
Proof.
  revert st. induction l as [|nb l IH]; intros st H.
  - injection H as <-. split; [done|simpl; lia].
  - apply for_of_cons_Ok in H as (st1 & H1 & H).
    apply relax_pq in H1 as [Hv1 Hl1]. apply IH in H as [Hv Hl].
    split; [congruence|simpl; lia].
Qed.

(** Every iteration takes an entry off the queue, and the entries added
    while a node is expanded are paid for by its outgoing edges, which are
    never looked at again. *)
Lemma main_loop_potential graphData excludedColors t fuel st :
  potential (new_SkiGraph graphData) st < fuel ->
  exists st', main_loop fuel (new_SkiGraph graphData) excludedColors t st = Some (Ok st').
Proof.
  set (g := new_SkiGraph graphData).
  revert st. induction fuel as [|fuel IH]; intros st Hfuel; [lia|].
  rewrite main_loop_S. destruct (isEmpty (pq st)); [eauto|].
  destruct (extractMin (pq st)) as [[u|] pq'] eqn:Hex; [|eauto].
  apply extractMin_Some in Hex as (min & _ & _ & Hlen & _).
  destruct (bool_decide (u = t)); [eauto|].
  case_bool_decide as Huv.
  { apply IH. unfold potential in *. cbn [pq visited with_pq with_visited]. lia. }
  pose proof (potential_visit (visited st) u (edges g) Huv) as Hpot.
  destruct (adjacency g !! u) as [l|] eqn:Hl; cbn [default from_option id].
  - destruct (relax_loop_Ok g excludedColors u l (with_visited (with_pq st pq') u))
      as [st2 Hfor].
    { intros nb Hnb. by eapply new_SkiGraph_byId. }
    rewrite Hfor. apply IH.
    apply relax_loop_pq in Hfor as [Hv2 Hlen2].
    unfold potential in *. rewrite Hv2. cbn [pq visited with_pq with_visited] in *.
    rewrite (new_SkiGraph_adjacency graphData u l Hl) in Hlen2. fold g in Hlen2. lia.
  - apply IH. unfold potential in *. cbn [pq visited with_pq with_visited]. lia.
Qed.

(** X16: the main loop of [findRoute] comes to an end on every
    constructed graph, whatever the distances, the end points of the edges
    and the two node ids are: it makes at most two iterations more than
    the graph has edges and raises no exception.  A call that does not
    return is therefore caught in the walk back along the predecessor
    links. *)
Theorem main_loop_terminates graphData startNodeId endNodeId excludedColors :
  exists st,
    main_loop (S (S (length (gd_edges graphData)))) (new_SkiGraph graphData) excludedColors
      endNodeId (init_search (new_SkiGraph graphData) startNodeId) = Some (Ok st).
Proof.
  apply main_loop_potential.
  pose proof (potential_init (new_SkiGraph graphData) startNodeId) as H.
  change (edges (new_SkiGraph graphData)) with (gd_edges graphData) in H. lia.
Qed.

(** ** The samples of the elevation profile *)

Lemma Math_round_mono x y : (x <= y)%Q -> (Math_round x <= Math_round y)%Q.
Proof.
  intros H. unfold Math_round. rewrite <- Zle_Qle. apply Qfloor_resp_le. lra.
Qed.

Lemma interp_between (se te frac : Q) :
  (0 <= frac)%Q -> (frac <= 1)%Q ->
  ((se <= te -> se <= se + (te - se) * frac <= te) /\
   (te <= se -> te <= se + (te - se) * frac <= se))%Q.
Proof.
  intros H0 H1. split; intros H.
  - assert (0 <= (te - se) * frac)%Q by (apply Qmult_le_0_compat; lra).
    assert (0 <= (te - se) * (1 - frac))%Q by (apply Qmult_le_0_compat; lra).
    split; lra.
  - assert (0 <= (se - te) * frac)%Q by (apply Qmult_le_0_compat; lra).
    assert (0 <= (se - te) * (1 - frac))%Q by (apply Qmult_le_0_compat; lra).
    split; lra.
Qed.

Lemma interior_points_inside g cum step sourceNode targetNode geomLen :
  nodes g !! s_sourceNode step = Some sourceNode ->
  nodes g !! s_targetNode step = Some targetNode ->
  2 < geomLen ->
  length (interior_points cum step (ele sourceNode) (ele targetNode) geomLen) = geomLen - 2 /\
  Forall (fun p => p_isNode p = false /\ inside_step g step p)
         (interior_points cum step (ele sourceNode) (ele targetNode) geomLen).
Proof.
  intros Hs Ht Hn. unfold interior_points. split; [by rewrite length_map, length_seq|].
  apply Forall_forall. intros p Hp. apply list_elem_of_fmap in Hp as (i & -> & Hi).
  apply elem_of_seq in Hi. split; [done|].
  split; [done|]. split; [done|]. split; [done|].
  exists sourceNode, targetNode. split; [done|]. split; [done|]. simpl.
  destruct (interp_between (ele sourceNode) (ele targetNode)
              (inject_Z (Z.of_nat i) / inject_Z (Z.of_nat (geomLen - 1)))) as [H1 H2].
  - apply Qle_shift_div_l.
    + replace 0%Q with (inject_Z 0) by reflexivity. rewrite <- Zlt_Qlt. lia.
    + rewrite Qmult_0_l. replace 0%Q with (inject_Z 0) by reflexivity.
      rewrite <- Zle_Qle. lia.
  - apply frac_le_1; lia.
  - split; intros H; [destruct (H1 H)|destruct (H2 H)]; split; by apply Math_round_mono.
Qed.

(** What one iteration of the profile loop appends, in full. *)
Lemma profile_step_points g points cum step points' cum' :
  profile_step g (points, cum) step = Ok (points', cum') ->
  exists interior targetNode,
    nodes g !! s_targetNode step = Some targetNode /\
    points' = points ++ interior ++
      [{| p_distance := cum'; p_elevation := ele targetNode;
          p_nodeId := Some (s_targetNode step); p_isNode := true;
          p_type := Some (s_type step); p_difficulty := s_difficulty step |}] /\
    length interior = interior_count step /\
    Forall (fun p => p_isNode p = false /\ inside_step g step p) interior.
Proof.
  unfold profile_step, interior_count. intros H.
  destruct (nodes g !! s_targetNode step) as [targetNode|] eqn:Et.
  - destruct (s_geometry step) as [geometry|].
    + destruct (bool_decide (2 < length geometry)) eqn:Eg.
      * destruct (nodes g !! s_sourceNode step) as [sourceNode|] eqn:Es; [|discriminate].
        simpl in H. injection H as <- <-.
        apply bool_decide_eq_true in Eg.
        destruct (interior_points_inside g cum step sourceNode targetNode (length geometry))
          as [H1 H2]; [done..|].
        eexists _, targetNode. split; [done|]. split; [reflexivity|]. by split.
      * simpl in H. injection H as <- <-.
        exists [], targetNode. split; [done|]. split; [reflexivity|]. by split.
    + simpl in H. injection H as <- <-.
      exists [], targetNode. split; [done|]. split; [reflexivity|]. by split.
  - destruct (s_geometry step) as [geometry|]; [|discriminate].
    destruct (bool_decide (2 < length geometry)); [|discriminate].
    destruct (nodes g !! s_sourceNode step); discriminate.
Qed.

Lemma node_samples_app l1 l2 : node_samples (l1 ++ l2) = node_samples l1 ++ node_samples l2.
Proof. apply filter_app. Qed.

Lemma node_samples_interior (P : ProfilePoint -> Prop) l :
  Forall (fun p => p_isNode p = false /\ P p) l -> node_samples l = [].
Proof.
  induction 1 as [|p l [Hp _] _ IH]; [done|].
  unfold node_samples. rewrite filter_cons_False by congruence. exact IH.
Qed.

(** The profile loop, in full: the number of points, the points taken at
    nodes, and the points in between. *)
Lemma profile_loop_points g steps0 points cum points' cum' :
  for_of (profile_step g) steps0 (points, cum) = Ok (points', cum') ->
  length points' = length points + length steps0 + sum_list (interior_count <$> steps0) /\
  p_nodeId <$> node_samples points' =
    (p_nodeId <$> node_samples points) ++ (Some ∘ s_targetNode <$> steps0) /\
  (forall P : ProfilePoint -> Prop,
     Forall P points ->
     (forall p step targetNode,
        step ∈ steps0 -> nodes g !! s_targetNode step = Some targetNode ->
        p_isNode p = true -> p_nodeId p = Some (s_targetNode step) ->
        p_elevation p = ele targetNode -> P p) ->
     (forall p step, step ∈ steps0 -> p_isNode p = false -> inside_step g step p -> P p) ->
     Forall P points').
Proof.
  revert points cum. induction steps0 as [|step steps0 IH]; intros points cum H.
  - injection H as <- <-. simpl. split; [lia|]. split; [by rewrite app_nil_r|]. auto.
  - apply for_of_cons_Ok in H as ([points1 cum1] & E & H).
    apply profile_step_points in E as (interior & targetNode & Ht & -> & Hlen & Hin).
    apply IH in H as (H1 & H2 & H3). split; [|split].
    + rewrite H1, !length_app, Hlen, fmap_cons.
      change (sum_list (interior_count step :: (interior_count <$> steps0)))
        with (interior_count step + sum_list (interior_count <$> steps0)).
      cbn [length]. lia.
    + rewrite H2, !node_samples_app, (node_samples_interior _ _ Hin).
      simpl. rewrite fmap_app. unfold node_samples at 2.
      rewrite filter_cons_True by done. rewrite filter_nil. simpl.
      by rewrite <- app_assoc.
    + intros P HP Hnode Hint. apply H3.
      * apply Forall_app. split; [done|]. apply Forall_app. split.
        -- eapply Forall_impl; [exact Hin|]. simpl. intros p [Hp1 Hp2].
           apply (Hint p step); [apply list_elem_of_here|done|done].
        -- constructor; [|constructor].
           apply (Hnode _ step targetNode); [apply list_elem_of_here|done..].
      * intros p step' tn Hs. apply Hnode. by apply elem_of_cons; right.
      * intros p step' Hs. apply Hint. by apply elem_of_cons; right.
Qed.

Lemma buildElevationProfile_loop g path0 steps0 profile :
  _buildElevationProfile g path0 steps0 = Ok profile ->
  exists firstNode cum,
    nodes g !! js_key (mjoin (head path0)) = Some firstNode /\
    for_of (profile_step g) steps0
      ([{| p_distance := 0; p_elevation := ele firstNode; p_nodeId := mjoin (head path0);
           p_isNode := true; p_type := None; p_difficulty := None |}], 0%Q)
      = Ok (profile, cum).
Proof.
  unfold _buildElevationProfile. intros H.
  destruct (nodes g !! js_key (mjoin (head path0))) as [firstNode|]; [|discriminate].
  destruct (for_of _ steps0 _) as [[points cum]|] eqn:E; [|discriminate].
  simpl in H. injection H as <-. eauto.
Qed.

Lemma findRoute_profile fuel g s t excludedColors route :
  findRoute fuel g s t excludedColors = Some (Found route) ->
  _buildElevationProfile g (path route) (steps route) = Ok (elevationProfile route).
Proof.
  intros H. apply findRoute_Found in H as (_ & st & path0 & edgePath & _ & _ & _ & H).
  apply build_route_Found in H as (steps0 & profile & _ & Hprof & -> & -> & -> & _).
  done.
Qed.

(** X17: the number of samples of the elevation profile of a returned
    route, on any graph: one for the start, one for the end of every step,
    and for a step drawn with more than two geometry points one for each
    of these points but the first and the last. *)
Theorem elevationProfile_length g startNodeId endNodeId excludedColors route :
  returns g startNodeId endNodeId excludedColors (Found route) ->
  length (elevationProfile route) =
  1 + length (steps route) + sum_list (interior_count <$> steps route).
Proof.
  intros [fuel H]. apply findRoute_profile, buildElevationProfile_loop in H
    as (firstNode & cum & _ & H).
  by apply profile_loop_points in H as (H & _).
Qed.

Lemma elevationProfile_length_witness :
  exists route,
    returns (new_SkiGraph geometry_data) "A" "B" ∅ (Found route) /\
    length (elevationProfile route) =
    1 + length (steps route) + sum_list (interior_count <$> steps route).
Proof.
  eexists. split; [exists 2; vm_compute; reflexivity|].
  apply (elevationProfile_length (new_SkiGraph geometry_data) "A" "B" ∅).
  exists 2. vm_compute. reflexivity.
Defined.

(** X18: the samples of the profile that lie between nodes, on any graph:
    each belongs to a step of the route, is tagged with the type and the
    difficulty of that step, and has an elevation between the rounded
    elevations of the two end points of the step. *)
Theorem elevationProfile_interior g startNodeId endNodeId excludedColors route :
  returns g startNodeId endNodeId excludedColors (Found route) ->
  Forall (fun p => p_isNode p = false ->
                   exists step, step ∈ steps route /\ inside_step g step p)
         (elevationProfile route).
Proof.
  intros [fuel H]. apply findRoute_profile, buildElevationProfile_loop in H
    as (firstNode & cum & _ & H).
  apply profile_loop_points in H as (_ & _ & H). apply H.
  - by constructor.
  - intros p step targetNode _ _ Hp. congruence.
  - intros p step Hs _ Hin _. eauto.
Qed.

Lemma elevationProfile_interior_witness :
  exists route,
    returns (new_SkiGraph geometry_data) "A" "B" ∅ (Found route) /\
    Forall (fun p => p_isNode p = false ->
                     exists step, step ∈ steps route /\
                       inside_step (new_SkiGraph geometry_data) step p)
           (elevationProfile route).
Proof.
  eexists. split; [exists 2; vm_compute; reflexivity|].
  apply (elevationProfile_interior (new_SkiGraph geometry_data) "A" "B" ∅).
  exists 2. vm_compute. reflexivity.
Defined.

Lemma steps_targets graphData excludedColors es steps0 :
  unique_edge_ids graphData ->
  Forall (fun edge => edge ∈ gd_edges graphData) es ->
  Forall2 (fun edge step =>
             make_step (new_SkiGraph graphData) excludedColors (Some (e_id edge)) = Ok step)
          es steps0 ->
  s_targetNode <$> steps0 = e_target <$> es.
Proof.
  intros Hu Hel Hsteps.
  induction Hsteps as [|edge step es steps0 H1 _ IH]; [done|].
  apply Forall_cons in Hel as [Hin Hel].
  destruct (make_step_unique _ _ _ _ Hu Hin H1) as (_ & _ & Ht & _).
  rewrite !fmap_cons, Ht. f_equal. by apply IH.
Qed.

Lemma profile_loop_prefix g steps0 points cum points' cum' :
  for_of (profile_step g) steps0 (points, cum) = Ok (points', cum') ->
  exists l, points' = points ++ l.
Proof.
  revert points cum. induction steps0 as [|step steps0 IH]; intros points cum H.
  - injection H as <- <-. exists []. by rewrite app_nil_r.
  - apply for_of_cons_Ok in H as ([points1 cum1] & E & H).
    apply profile_step_points in E as (interior & tn & _ & -> & _).
    apply IH in H as [l ->]. rewrite <- app_assoc. eauto.
Qed.

(** X19: the samples of the profile taken at nodes follow the path.  On a
    graph with unique edge identifiers and for an end that is a key of the
    node map, the node ids of these samples, in order, are the path of the
    route; each of them carries the elevation of its node; and the first
    sample of the profile is the one of the start, at distance 0. *)
Theorem elevationProfile_nodes graphData startNodeId endNodeId excludedColors route :
  unique_edge_ids graphData ->
  is_Some (gd_nodes graphData !! endNodeId) ->
  returns (new_SkiGraph graphData) startNodeId endNodeId excludedColors (Found route) ->
  p_nodeId <$> node_samples (elevationProfile route) = path route /\
  Forall (fun p => exists k n, p_nodeId p = Some k /\
                     gd_nodes graphData !! k = Some n /\ p_elevation p = ele n)
         (node_samples (elevationProfile route)) /\
  exists p0, head (elevationProfile route) = Some p0 /\
    p_nodeId p0 = Some startNodeId /\ p_distance p0 = 0%Q.
Proof.
  intros Hu Ht Hr.
  destruct (route_path_anatomy _ _ _ _ _ Hu Ht Hr) as (es & Hp & Hpath & Hsteps).
  destruct Hr as [fuel H]. apply findRoute_profile, buildElevationProfile_loop in H
    as (firstNode & cum & Hfirst & H).
  rewrite Hpath in Hfirst, H. simpl in Hfirst, H.
  pose proof H as H'. apply profile_loop_points in H' as (_ & Hn & HF).
  split; [|split].
  - rewrite Hn, Hpath. simpl. f_equal.
    rewrite (list_fmap_compose s_targetNode Some).
    by rewrite (steps_targets _ _ _ _ Hu (edge_path_elem _ _ _ _ _ Hp) Hsteps).
  - assert (Forall (fun p => p_isNode p = true ->
              exists k n, p_nodeId p = Some k /\
                gd_nodes graphData !! k = Some n /\ p_elevation p = ele n)
              (elevationProfile route)) as HP.
    { apply HF.
      + constructor; [|constructor]. intros _. exists startNodeId, firstNode. done.
      + intros p step targetNode _ Htn _ Hid He _.
        exists (s_targetNode step), targetNode. done.
      + intros p step _ Hp' _. congruence. }
    rewrite Forall_forall in HP. apply Forall_forall.
    intros p [Hnode Hin]%list_elem_of_filter. by apply HP.
  - apply profile_loop_prefix in H as [l ->]. eexists. split; [reflexivity|done].
Qed.

Lemma elevationProfile_nodes_witness :
  exists route,
    returns (new_SkiGraph diamond_data) "A" "D" ∅ (Found route) /\
    p_nodeId <$> node_samples (elevationProfile route) = path route /\
    Forall (fun p => exists k n, p_nodeId p = Some k /\
                       gd_nodes diamond_data !! k = Some n /\ p_elevation p = ele n)
           (node_samples (elevationProfile route)) /\
    exists p0, head (elevationProfile route) = Some p0 /\
      p_nodeId p0 = Some "A" /\ p_distance p0 = 0%Q.
Proof.
  eexists. split; [exists 7; vm_compute; reflexivity|].
  apply (elevationProfile_nodes diamond_data "A" "D" ∅).
  - exact diamond_unique.
  - by eexists.
  - exists 7. vm_compute. reflexivity.
Defined.

(** ** The content of the location index *)

Lemma entry_of_app g type nodeKey label es es' loc :
  entry_of g type nodeKey label es loc -> entry_of g type nodeKey label (es ++ es') loc.
Proof.
  intros (i & edge & n & Hi & Hl & Hfirst & Hrest).
  pose proof (lookup_lt_Some _ _ _ Hi) as Hlt.
  exists i, edge, n. split; [by rewrite lookup_app_l|]. split; [done|]. split; [|done].
  intros j e' Hj He'. rewrite lookup_app_l in He' by lia. by eapply Hfirst.
Qed.

Lemma Idx_nil g type nodeKey label : Idx g type nodeKey label [] ∅ [].
Proof.
  split; [|split; [|constructor]].
  - intros k. split; intros H; [by apply not_elem_of_empty in H|by apply elem_of_nil in H].
  - intros k. split; [intros H; by apply elem_of_nil in H|].
    intros (edge & H & _). by apply elem_of_nil in H.
Qed.

(** An edge of another type leaves a list alone. *)
Lemma Idx_skip g type nodeKey label es seen out edge :
  e_type edge <> type ->
  Idx g type nodeKey label es seen out -> Idx g type nodeKey label (es ++ [edge]) seen out.
Proof.
  intros Hne (H1 & H2 & H3). split; [done|]. split.
  - intros k. rewrite H2. split; intros (e & He & Hl).
    + exists e. split; [|done]. apply elem_of_app. by left.
    + apply elem_of_app in He as [He|He%list_elem_of_singleton]; [eauto|].
      subst e. by destruct Hl as [? _].
  - eapply Forall_impl; [exact H3|]. intros loc. apply entry_of_app.
Qed.

(** A guarded push for an edge of the type of the list. *)
Lemma Idx_push g type nodeKey label es seen out edge seen' out' :
  e_type edge = type ->
  Idx g type nodeKey label es seen out ->
  push_once seen out (nodeKey edge) edge (nodes g !! nodeKey edge) label = Ok (seen', out') ->
  Idx g type nodeKey label (es ++ [edge]) seen' out'.
Proof.
  intros Ht (H1 & H2 & H3). unfold push_once.
  destruct (bool_decide (nodeKey edge ∈ seen)) eqn:Hseen; simpl.
  - (* seen before *)
    intros [= <- <-]. apply bool_decide_eq_true in Hseen.
    split; [done|]. split.
    + intros k. rewrite H2. split; intros (e & He & Hl).
      * exists e. split; [|done]. apply elem_of_app. by left.
      * apply elem_of_app in He as [He|He%list_elem_of_singleton]; [eauto|].
        subst e. destruct Hl as (_ & _ & <-). by apply H2, H1.
    + eapply Forall_impl; [exact H3|]. intros loc. apply entry_of_app.
  - apply bool_decide_eq_false in Hseen.
    destruct (truthy (e_name edge)) eqn:Hname.
    + (* a new entry *)
      destruct (nodes g !! nodeKey edge) as [n|] eqn:Hn; [|discriminate].
      intros [= <- <-]. unfold nodeIds in *. split; [|split].
      * intros k. unfold nodeIds. rewrite fmap_app, elem_of_app, elem_of_union, elem_of_singleton, H1.
        simpl. rewrite list_elem_of_singleton. tauto.
      * intros k. unfold nodeIds. rewrite fmap_app, elem_of_app, H2. simpl.
        rewrite list_elem_of_singleton. split.
        -- intros [(e & He & Hl)| ->].
           ++ exists e. split; [|done]. apply elem_of_app. by left.
           ++ exists edge. split; [|done]. apply elem_of_app. right. apply list_elem_of_here.
        -- intros (e & He & Hl).
           apply elem_of_app in He as [He|He%list_elem_of_singleton]; [left; eauto|].
           subst e. right. by destruct Hl as (_ & _ & <-).
      * apply Forall_app. split.
        -- eapply Forall_impl; [exact H3|]. intros loc. apply entry_of_app.
        -- constructor; [|constructor].
           exists (length es), edge, n. simpl.
           split; [by rewrite lookup_app_r, Nat.sub_diag|].
           split; [done|]. split; [|done].
           intros j e' Hj He' Hl. rewrite lookup_app_l in He' by done.
           apply Hseen, H1, H2. exists e'. split; [by eapply list_elem_of_lookup_2|done].
    + (* no name *)
      intros [= <- <-]. split; [done|]. split.
      * intros k. rewrite H2. split; intros (e & He & Hl).
        -- exists e. split; [|done]. apply elem_of_app. by left.
        -- apply elem_of_app in He as [He|He%list_elem_of_singleton]; [eauto|].
           subst e. destruct Hl as (_ & Hl & _). congruence.
      * eapply Forall_impl; [exact H3|]. intros loc. apply entry_of_app.
Qed.

(** A guarded push throws exactly for a named edge whose end point is no
    key of the node map. *)
Lemma push_once_Throw g type nodeKey label es seen out edge :
  Idx g type nodeKey label es seen out ->
  push_once seen out (nodeKey edge) edge (nodes g !! nodeKey edge) label = Throw <->
  truthy (e_name edge) = true /\ nodes g !! nodeKey edge = None.
Proof.
  intros (H1 & H2 & H3). unfold push_once.
  destruct (bool_decide (nodeKey edge ∈ seen)) eqn:Hseen; simpl.
  - apply bool_decide_eq_true in Hseen. split; [done|]. intros [_ Hn].
    apply H1 in Hseen. unfold nodeIds in Hseen.
    apply list_elem_of_fmap in Hseen as (loc & Hk & Hloc).
    rewrite Forall_forall in H3. destruct (H3 loc Hloc) as (_ & _ & n & _ & _ & _ & Hnode & _).
    congruence.
  - destruct (truthy (e_name edge)); [|split; [done|by intros [? _]]].
    destruct (nodes g !! nodeKey edge); split; try done. by intros [_ ?].
Qed.

Lemma visit_edge_Idx g es s edge s' :
  Seen_Idx g es s -> visit_edge g s edge = Ok s' -> Seen_Idx g (es ++ [edge]) s'.
Proof.
  intros (H1 & H2 & H3 & H4). unfold visit_edge.
  destruct (e_type edge =? "slope") eqn:Es.
  - apply String.eqb_eq in Es. rewrite Es. simpl.
    destruct (push_once (seenSlopeTops s) _ _ _ _ _) as [[a1 a2]|] eqn:Ea; [|discriminate].
    destruct (push_once (seenSlopeBottoms s) _ _ _ _ _) as [[b1 b2]|] eqn:Eb; [|discriminate].
    simpl. intros [= <-]. unfold Seen_Idx. simpl.
    refine (conj _ (conj _ (conj _ _))).
    + by eapply (Idx_push g "slope" e_source).
    + by eapply (Idx_push g "slope" e_target).
    + apply Idx_skip; [by rewrite Es|done].
    + apply Idx_skip; [by rewrite Es|done].
  - apply String.eqb_neq in Es. simpl.
    destruct (e_type edge =? "lift") eqn:El.
    + apply String.eqb_eq in El.
      destruct (push_once (seenLiftBottoms s) _ _ _ _ _) as [[b1 b2]|] eqn:Eb; [|discriminate].
      destruct (push_once (seenLiftTops s) _ _ _ _ _) as [[a1 a2]|] eqn:Ea; [|discriminate].
      simpl. intros [= <-]. unfold Seen_Idx. simpl.
      refine (conj _ (conj _ (conj _ _))).
      * by apply Idx_skip.
      * by apply Idx_skip.
      * by eapply (Idx_push g "lift" e_target).
      * by eapply (Idx_push g "lift" e_source).
    + apply String.eqb_neq in El. intros [= <-]. unfold Seen_Idx.
      refine (conj _ (conj _ (conj _ _))); by apply Idx_skip.
Qed.

Lemma visit_edge_Throw g es s edge :
  Seen_Idx g es s -> visit_edge g s edge = Throw <-> dangling g edge.
Proof.
  intros (H1 & H2 & H3 & H4). unfold visit_edge, dangling.
  pose proof (push_once_Throw g "slope" e_source TopLabel es _ _ edge H1) as T1.
  pose proof (push_once_Throw g "slope" e_target BottomLabel es _ _ edge H2) as T2.
  pose proof (push_once_Throw g "lift" e_target TopLabel es _ _ edge H3) as T3.
  pose proof (push_once_Throw g "lift" e_source BottomLabel es _ _ edge H4) as T4.
  destruct (e_type edge =? "slope") eqn:Es.
  - apply String.eqb_eq in Es. rewrite Es. simpl.
    destruct (push_once (seenSlopeTops s) _ _ _ _ _) as [[a1 a2]|] eqn:Ea; simpl.
    + destruct (push_once (seenSlopeBottoms s) _ _ _ _ _) as [[b1 b2]|] eqn:Eb; simpl.
      * split; [done|]. intros (Hn & _ & [Hs|Ht]).
        -- discriminate (proj2 T1 (conj Hn Hs)).
        -- discriminate (proj2 T2 (conj Hn Ht)).
      * split; [|done]. intros _. destruct (proj1 T2 eq_refl) as [Hn Ht]. tauto.
    + split; [|done]. intros _. destruct (proj1 T1 eq_refl) as [Hn Ht]. tauto.
  - apply String.eqb_neq in Es. simpl.
    destruct (e_type edge =? "lift") eqn:El.
    + apply String.eqb_eq in El.
      destruct (push_once (seenLiftBottoms s) _ _ _ _ _) as [[b1 b2]|] eqn:Eb; simpl.
      * destruct (push_once (seenLiftTops s) _ _ _ _ _) as [[a1 a2]|] eqn:Ea; simpl.
        -- split; [done|]. intros (Hn & _ & [Hs|Ht]).
           ++ discriminate (proj2 T4 (conj Hn Hs)).
           ++ discriminate (proj2 T3 (conj Hn Ht)).
        -- split; [|done]. intros _. destruct (proj1 T3 eq_refl) as [Hn Ht]. tauto.
      * split; [|done]. intros _. destruct (proj1 T4 eq_refl) as [Hn Ht]. tauto.
    + apply String.eqb_neq in El. split; [done|]. intros (_ & [?|?] & _); done.
Qed.

Lemma visit_edges_Idx g es1 es2 s s' :
  Seen_Idx g es1 s -> for_of (visit_edge g) es2 s = Ok s' -> Seen_Idx g (es1 ++ es2) s'.
Proof.
  revert es1 s. induction es2 as [|edge es2 IH]; intros es1 s Hs H.
  - injection H as <-. by rewrite app_nil_r.
  - apply for_of_cons_Ok in H as (s1 & H1 & H).
    rewrite (cons_middle edge es1 es2), app_assoc. eapply IH; [|exact H].
    by eapply visit_edge_Idx.
Qed.

Lemma visit_edges_Throw g es1 es2 s :
  Seen_Idx g es1 s ->
  for_of (visit_edge g) es2 s = Throw <-> exists edge, edge ∈ es2 /\ dangling g edge.
Proof.
  revert es1 s. induction es2 as [|edge es2 IH]; intros es1 s Hs.
  - simpl. split; [done|]. intros (edge & H & _). by apply elem_of_nil in H.
  - simpl. destruct (visit_edge g s edge) as [s1|] eqn:E; simpl.
    + rewrite (IH (es1 ++ [edge]) s1) by (by eapply visit_edge_Idx).
      split; intros (e & He & Hd).
      * exists e. split; [by apply elem_of_cons; right|done].
      * apply elem_of_cons in He as [->|He]; [|eauto].
        apply (visit_edge_Throw g es1 s) in Hd; [congruence|done].
    + split; [|done]. intros _. exists edge. split; [apply list_elem_of_here|].
      by apply (visit_edge_Throw g es1 s).
Qed.

Lemma Seen_Idx_nil g :
  Seen_Idx g []
    {| seenSlopeTops := ∅; seenSlopeBottoms := ∅; seenLiftTops := ∅; seenLiftBottoms := ∅;
       outSlopeTops := []; outSlopeBottoms := []; outLiftTops := []; outLiftBottoms := [] |}.
Proof. refine (conj _ (conj _ (conj _ _))); apply Idx_nil. Qed.

(** X20: the location index fails exactly on a named edge that dangles.
    [getSelectableLocations] raises a [TypeError] if and only if some
    slope or lift that has a name has a source or a target that is no key
    of the node map; unnamed edges and edges of other types may dangle. *)
Theorem getSelectableLocations_Throw localeCompare g :
  getSelectableLocations localeCompare g = Throw <->
  exists edge, edge ∈ edges g /\ dangling g edge.
Proof.
  rewrite <- (visit_edges_Throw g [] (edges g) _ (Seen_Idx_nil g)).
  unfold getSelectableLocations.
  destruct (for_of (visit_edge g) (edges g) _); simpl; done.
Qed.

Lemma getSelectableLocations_Ok localeCompare g l :
  getSelectableLocations localeCompare g = Ok l ->
  exists s, Seen_Idx g (edges g) s /\
    stations l = sort_byName localeCompare (station_entries g) /\
    slopeTops l = sort_byName localeCompare (outSlopeTops s) /\
    slopeBottoms l = sort_byName localeCompare (outSlopeBottoms s) /\
    liftTops l = sort_byName localeCompare (outLiftTops s) /\
    liftBottoms l = sort_byName localeCompare (outLiftBottoms s).
Proof.
  unfold getSelectableLocations. intros H.
  destruct (for_of _ _ _) as [s|] eqn:E; [|discriminate].
  simpl in H. injection H as <-. exists s. split; [|done].
  by apply (visit_edges_Idx g [] (edges g)) in E; [|apply Seen_Idx_nil].
Qed.

Lemma Idx_sorted_members localeCompare g type nodeKey label es seen out k :
  Idx g type nodeKey label es seen out ->
  k ∈ nodeIds (sort_byName localeCompare out) <->
  exists edge, edge ∈ es /\ lists type nodeKey k edge.
Proof.
  intros (_ & H & _). rewrite <- H. unfold nodeIds.
  by rewrite sort_byName_Permutation.
Qed.

Lemma Idx_sorted_entries localeCompare g type nodeKey label es seen out :
  Idx g type nodeKey label es seen out ->
  Forall (entry_of g type nodeKey label es) (sort_byName localeCompare out).
Proof. intros (_ & _ & H). by rewrite sort_byName_Permutation. Qed.

(** X21: which nodes the four edge lists of the index hold.  When
    [getSelectableLocations] returns, a node is among the slope tops
    exactly when it is the source of a slope that has a name, among the
    slope bottoms when it is the target of one, among the lift bottoms
    when it is the source of a lift that has a name, and among the lift
    tops when it is the target of one. *)
Theorem getSelectableLocations_members localeCompare g l :
  getSelectableLocations localeCompare g = Ok l ->
  forall k,
    (k ∈ nodeIds (slopeTops l) <->
       exists edge, edge ∈ edges g /\ lists "slope" e_source k edge) /\
    (k ∈ nodeIds (slopeBottoms l) <->
       exists edge, edge ∈ edges g /\ lists "slope" e_target k edge) /\
    (k ∈ nodeIds (liftTops l) <->
       exists edge, edge ∈ edges g /\ lists "lift" e_target k edge) /\
    (k ∈ nodeIds (liftBottoms l) <->
       exists edge, edge ∈ edges g /\ lists "lift" e_source k edge).
Proof.
  intros H k.
  apply getSelectableLocations_Ok in H as (s & (H1 & H2 & H3 & H4) & _ & -> & -> & -> & ->).
  split_and!; by eapply Idx_sorted_members.
Qed.

Lemma getSelectableLocations_members_witness :
  exists l,
    getSelectableLocations compare_code_units (new_SkiGraph diamond_data) = Ok l /\
    forall k,
      (k ∈ nodeIds (slopeTops l) <->
         exists edge, edge ∈ edges (new_SkiGraph diamond_data) /\
           lists "slope" e_source k edge) /\
      (k ∈ nodeIds (slopeBottoms l) <->
         exists edge, edge ∈ edges (new_SkiGraph diamond_data) /\
           lists "slope" e_target k edge) /\
      (k ∈ nodeIds (liftTops l) <->
         exists edge, edge ∈ edges (new_SkiGraph diamond_data) /\
           lists "lift" e_target k edge) /\
      (k ∈ nodeIds (liftBottoms l) <->
         exists edge, edge ∈ edges (new_SkiGraph diamond_data) /\
           lists "lift" e_source k edge).
Proof.
  eexists. split; [vm_compute; reflexivity|].
  apply (getSelectableLocations_members compare_code_units (new_SkiGraph diamond_data)).
  vm_compute. reflexivity.
Defined.

(** X22: what an entry of the four edge lists says.  When
    [getSelectableLocations] returns, every entry names a key of the node
    map and carries the elevation of that node, and its name and label are
    those of the first edge, in input order, that lists the node: a later
    slope or lift at the same node leaves the entry as it is. *)
Theorem getSelectableLocations_entries localeCompare g l :
  getSelectableLocations localeCompare g = Ok l ->
  Forall (entry_of g "slope" e_source TopLabel (edges g)) (slopeTops l) /\
  Forall (entry_of g "slope" e_target BottomLabel (edges g)) (slopeBottoms l) /\
  Forall (entry_of g "lift" e_target TopLabel (edges g)) (liftTops l) /\
  Forall (entry_of g "lift" e_source BottomLabel (edges g)) (liftBottoms l).
Proof.
  intros H.
  apply getSelectableLocations_Ok in H as (s & (H1 & H2 & H3 & H4) & _ & -> & -> & -> & ->).
  split_and!; by eapply Idx_sorted_entries.
Qed.

Lemma getSelectableLocations_entries_witness :
  exists l,
    getSelectableLocations compare_code_units (new_SkiGraph diamond_data) = Ok l /\
    Forall (entry_of (new_SkiGraph diamond_data) "slope" e_source TopLabel
              (edges (new_SkiGraph diamond_data))) (slopeTops l) /\
    Forall (entry_of (new_SkiGraph diamond_data) "slope" e_target BottomLabel
              (edges (new_SkiGraph diamond_data))) (slopeBottoms l) /\
    Forall (entry_of (new_SkiGraph diamond_data) "lift" e_target TopLabel
              (edges (new_SkiGraph diamond_data))) (liftTops l) /\
    Forall (entry_of (new_SkiGraph diamond_data) "lift" e_source BottomLabel
              (edges (new_SkiGraph diamond_data))) (liftBottoms l).
Proof.
  eexists. split; [vm_compute; reflexivity|].
  apply (getSelectableLocations_entries compare_code_units (new_SkiGraph diamond_data)).
  vm_compute. reflexivity.
Defined.

Lemma station_entries_spec g loc :
  loc ∈ station_entries g <->
  exists n, nodes g !! l_nodeId loc = Some n /\ truthy (station n) = true /\
    l_name loc = js_key (station n) /\ l_ele loc = ele n /\
    l_label loc = StationLabel (js_key (station n)) (ele n).
Proof.
  unfold station_entries. rewrite list_elem_of_omap. split.
  - intros ([k n] & Hin & H). apply elem_of_map_to_list in Hin.
    destruct (truthy (station n)) eqn:Et; [|discriminate].
    injection H as <-. simpl. eauto 10.
  - intros (n & Hn & Ht & H1 & H2 & H3). exists (l_nodeId loc, n).
    split; [by apply elem_of_map_to_list|]. rewrite Ht. f_equal.
    destruct loc as [i lb nm el]. simpl in *. by subst.
Qed.

(** X23: the stations of the index.  When [getSelectableLocations]
    returns, the list of stations holds exactly one kind of entry: for
    every node of the node map with a non-empty station name, the entry
    with the id and the elevation of the node, named by the station, with
    the label rendered from the two; a node without a station name has no
    entry. *)
Theorem getSelectableLocations_stations localeCompare g l :
  getSelectableLocations localeCompare g = Ok l ->
  forall loc,
    loc ∈ stations l <->
    exists n, nodes g !! l_nodeId loc = Some n /\ truthy (station n) = true /\
      l_name loc = js_key (station n) /\ l_ele loc = ele n /\
      l_label loc = StationLabel (js_key (station n)) (ele n).
Proof.
  intros H loc. apply getSelectableLocations_Ok in H as (s & _ & -> & _).
  by rewrite sort_byName_Permutation, station_entries_spec.
Qed.

Lemma getSelectableLocations_stations_witness :
  exists l,
    getSelectableLocations compare_code_units (new_SkiGraph diamond_data) = Ok l /\
    forall loc,
      loc ∈ stations l <->
      exists n, nodes (new_SkiGraph diamond_data) !! l_nodeId loc = Some n /\
        truthy (station n) = true /\
        l_name loc = js_key (station n) /\ l_ele loc = ele n /\
        l_label loc = StationLabel (js_key (station n)) (ele n).
Proof.
  eexists. split; [vm_compute; reflexivity|].
  apply (getSelectableLocations_stations compare_code_units (new_SkiGraph diamond_data)).
  vm_compute. reflexivity.
Defined.

(** *** The order of the lists *)

Section Sorted.

Variable localeCompare : string -> string -> Z.

(** What [Array.prototype.sort] asks of a comparison to sort by it: any
    two names are comparable, and the comparison is transitive. *)
Hypothesis Htotal : forall a b, (localeCompare a b <= 0 \/ localeCompare b a <= 0)%Z.
Hypothesis Htrans : forall a b c,
  (localeCompare a b <= 0 -> localeCompare b c <= 0 -> localeCompare a c <= 0)%Z.

Lemma insert_byName_sorted x l :
  sorted_byName localeCompare l -> sorted_byName localeCompare (insert_byName localeCompare x l).
Proof.
  unfold sorted_byName. induction 1 as [|y l Hs IH Hy]; simpl.
  - repeat constructor.
  - destruct (byName localeCompare x y <=? 0)%Z eqn:E.
    + apply Z.leb_le in E. constructor; [by constructor|].
      constructor; [done|]. eapply Forall_impl; [exact Hy|].
      intros z Hz. unfold byName in *. by eapply Htrans.
    + apply Z.leb_gt in E. constructor; [done|].
      rewrite insert_byName_Permutation. constructor; [|done].
      unfold byName in *. destruct (Htotal (l_name x) (l_name y)); [lia|done].
Qed.

Lemma sort_byName_sorted l : sorted_byName localeCompare (sort_byName localeCompare l).
Proof.
  induction l as [|x l IH]; simpl; [constructor|]. by apply insert_byName_sorted.
Qed.

End Sorted.

(** X24: the five lists of the index come in the order of their names.
    For a collation that compares any two names and is transitive, as
    [Array.prototype.sort] requires, every list [getSelectableLocations]
    returns is sorted by name: no entry is followed, at any distance, by
    one whose name comes strictly before its own. *)
Theorem getSelectableLocations_sorted localeCompare g l :
  (forall a b, (localeCompare a b <= 0 \/ localeCompare b a <= 0)%Z) ->
  (forall a b c,
     (localeCompare a b <= 0 -> localeCompare b c <= 0 -> localeCompare a c <= 0)%Z) ->
  getSelectableLocations localeCompare g = Ok l ->
  sorted_byName localeCompare (stations l) /\
  sorted_byName localeCompare (slopeTops l) /\
  sorted_byName localeCompare (slopeBottoms l) /\
  sorted_byName localeCompare (liftTops l) /\
  sorted_byName localeCompare (liftBottoms l).
Proof.
  intros Htotal Htrans H.
  apply getSelectableLocations_Ok in H as (s & _ & -> & -> & -> & -> & ->).
  split_and!; by apply sort_byName_sorted.
Qed.

Lemma compare_code_units_le a b :
  (compare_code_units a b <= 0)%Z <-> OrderedTypeEx.String_as_OT.lt a b \/ a = b.
Proof.
  unfold compare_code_units.
  destruct (String.compare a b) eqn:E.
  - apply OrderedTypeEx.String_as_OT.cmp_eq in E. split; [by right|lia].
  - apply OrderedTypeEx.String_as_OT.cmp_lt in E. split; [by left|lia].
  - split; [lia|]. intros [H| ->].
    + apply OrderedTypeEx.String_as_OT.cmp_lt in H.
      unfold OrderedTypeEx.String_as_OT.cmp in H. congruence.
    + assert (String.compare b b = Eq) by (by apply OrderedTypeEx.String_as_OT.cmp_eq).
      congruence.
Qed.

Lemma compare_code_units_total a b :
  (compare_code_units a b <= 0 \/ compare_code_units b a <= 0)%Z.
Proof.
  unfold compare_code_units. rewrite (String.compare_antisym a b).
  destruct (String.compare b a); simpl; lia.
Qed.

Lemma compare_code_units_trans a b c :
  (compare_code_units a b <= 0 -> compare_code_units b c <= 0 ->
   compare_code_units a c <= 0)%Z.
Proof.
  rewrite !compare_code_units_le. intros [H1| ->] [H2| ->]; eauto.
  left. by eapply OrderedTypeEx.String_as_OT.lt_trans.
Qed.

Lemma getSelectableLocations_sorted_witness :
  exists l,
    getSelectableLocations compare_code_units (new_SkiGraph diamond_data) = Ok l /\
    sorted_byName compare_code_units (stations l) /\
    sorted_byName compare_code_units (slopeTops l) /\
    sorted_byName compare_code_units (slopeBottoms l) /\
    sorted_byName compare_code_units (liftTops l) /\
    sorted_byName compare_code_units (liftBottoms l).
Proof.
  eexists. split; [vm_compute; reflexivity|].
  apply (getSelectableLocations_sorted compare_code_units (new_SkiGraph diamond_data)).
  - exact compare_code_units_total.
  - exact compare_code_units_trans.
  - vm_compute. reflexivity.
Defined.

(** ** The page *)

Lemma getExcludedColors_spec ui c :
  c ∈ getExcludedColors ui <->
  (c = "green" /\ filterGreen ui = false) \/ (c = "blue" /\ filterBlue ui = false) \/
  (c = "red" /\ filterRed ui = false) \/ (c = "black" /\ filterBlack ui = false).
Proof.
  unfold getExcludedColors.
  destruct (filterGreen ui), (filterBlue ui), (filterRed ui), (filterBlack ui); simpl;
    rewrite ?elem_of_union, ?elem_of_singleton, ?elem_of_empty; intuition congruence.
Qed.

Lemma getExcludedColors_more_checked ui ui' :
  more_checked ui ui' -> getExcludedColors ui' ⊆ getExcludedColors ui.
Proof.
  intros (H1 & H2 & H3 & H4) c. rewrite !getExcludedColors_spec.
  destruct (filterGreen ui), (filterBlue ui), (filterRed ui), (filterBlack ui);
    intuition congruence.
Qed.

(** X25: ticking more filter boxes never loses a route.  The excluded
    colours are those of the four boxes that are not checked; on a graph
    in the sense of the data model and for an end that is a key of the
    node map, if the search with the filters of one page returns a route,
    the search with the filters of a page on which every one of these
    boxes and possibly more are checked returns a route as well, and the
    sum of the weights of its edges is at most that of the first. *)
Theorem getExcludedColors_monotone graphData startNodeId endNodeId ui ui' route :
  valid_graph graphData ->
  is_Some (gd_nodes graphData !! endNodeId) ->
  more_checked ui ui' ->
  returns (new_SkiGraph graphData) startNodeId endNodeId (getExcludedColors ui) (Found route) ->
  exists route',
    returns (new_SkiGraph graphData) startNodeId endNodeId (getExcludedColors ui')
      (Found route') /\
    (path_cost (getExcludedColors ui') (traversed (new_SkiGraph graphData) route') <=
     path_cost (getExcludedColors ui) (traversed (new_SkiGraph graphData) route))%Q.
Proof.
  intros Hv Ht Hm Hr. pose proof Hv as (Hu & _ & Hnn).
  assert (startNodeId <> endNodeId) as Hne.
  { destruct Hr as [fuel Hr]. by apply findRoute_Found in Hr as [? _]. }
  destruct (route_anatomy _ _ _ _ _ Hu Hnn Ht Hr)
    as (_ & _ & es & _ & _ & Hp & _ & _ & _ & ->).
  apply (edge_path_subset _ (getExcludedColors ui')) in Hp as [Hp Hcost];
    [|by apply getExcludedColors_more_checked].
  destruct (route_of_path _ _ _ _ _ Hv Ht Hne Hp) as (route' & Hr' & Hle).
  exists route'. split; [done|]. by rewrite <- Hcost.
Qed.

Lemma getExcludedColors_monotone_witness :
  exists route route',
    returns (new_SkiGraph diamond_data) "A" "D"
      (getExcludedColors (page "A" "D" true true false true)) (Found route) /\
    returns (new_SkiGraph diamond_data) "A" "D"
      (getExcludedColors (page "A" "D" true true true true)) (Found route') /\
    (path_cost (getExcludedColors (page "A" "D" true true true true))
       (traversed (new_SkiGraph diamond_data) route') <=
     path_cost (getExcludedColors (page "A" "D" true true false true))
       (traversed (new_SkiGraph diamond_data) route))%Q.
Proof.
  assert (exists route,
    findRoute 7 (new_SkiGraph diamond_data) "A" "D"
      (getExcludedColors (page "A" "D" true true false true)) = Some (Found route))
    as [route Hr].
  { eexists. vm_compute. reflexivity. }
  destruct (getExcludedColors_monotone diamond_data "A" "D"
              (page "A" "D" true true false true) (page "A" "D" true true true true) route)
    as (route' & Hr' & Hle).
  - exact diamond_valid.
  - by eexists.
  - by repeat split.
  - by exists 7.
  - exists route, route'. split; [by exists 7|]. by split.
Defined.

(** *** The names of the lift types *)

(** X26: the names shown for lifts agree with the speed table of the
    weight model.  [getLiftTypeName] calls a lift type "lift" exactly when
    [calculateWeight] has no speed of its own for it, and gives the lift
    types that have one names that differ from one another. *)
Theorem getLiftTypeName_speeds liftType :
  (getLiftTypeName liftType = "lift" <-> lift_speeds (js_key liftType) = None) /\
  (forall liftType',
     getLiftTypeName liftType <> "lift" ->
     getLiftTypeName liftType = getLiftTypeName liftType' -> liftType = liftType').
Proof.
  split.
  - destruct liftType as [t|]; [|done]. unfold getLiftTypeName, lift_speeds. simpl.
    repeat match goal with
    | |- context [String.eqb t ?s] => destruct (String.eqb_spec t s) as [->|?]
    end; simpl; split; done.
  - intros [t'|]; destruct liftType as [t|]; unfold getLiftTypeName; try done.
    repeat match goal with
      | |- context [String.eqb t ?s] => destruct (String.eqb_spec t s) as [->|?]
      end; try done;
      repeat match goal with
      | |- context [String.eqb t' ?s] => destruct (String.eqb_spec t' s) as [->|?]
      end; done.
Qed.

(** *** The dropdowns *)

Lemma populate_foldl (groups0 : list (string * list Location)) (acc : list SelectChild) :
  foldl (fun children group =>
           if bool_decide (length group.2 = 0) then children
           else children ++
                  [ChildOptGroup {| og_label := group.1;
                                    og_children := option_of <$> group.2 |}])
        acc groups0 =
  acc ++ ((fun group => ChildOptGroup {| og_label := group.1;
                                        og_children := option_of <$> group.2 |})
            <$> filter (fun group => group.2 <> []) groups0).
Proof.
  revert acc. induction groups0 as [|[label items] groups0 IH]; intros acc.
  - simpl. by rewrite app_nil_r.
  - cbn [foldl]. rewrite IH. cbn [fst snd]. case_bool_decide as He.
    + apply nil_length_inv in He. by rewrite filter_cons_False by (simpl; tauto).
    + rewrite filter_cons_True by (simpl; intros ->; by apply He).
      by rewrite <- app_assoc.
Qed.

Lemma populate_children groups0 select :
  sel_children (populate groups0 select) =
  ChildOption placeholder ::
    ((fun group => ChildOptGroup {| og_label := group.1;
                                   og_children := option_of <$> group.2 |})
       <$> filter (fun group => group.2 <> []) groups0).
Proof. unfold populate. cbn [sel_children]. by rewrite populate_foldl. Qed.

Lemma populate_options groups0 select :
  sel_options (populate groups0 select) =
  placeholder :: (option_of <$> (groups0 ≫= snd)).
Proof.
  unfold sel_options. rewrite populate_children, bind_cons. cbn [app]. f_equal.
  induction groups0 as [|[label items] groups0 IH]; [done|].
  rewrite bind_cons, fmap_app, <- IH. cbn [snd]. destruct items as [|item items].
  - by rewrite filter_cons_False by (simpl; tauto).
  - rewrite filter_cons_True by done. by rewrite fmap_cons, bind_cons.
Qed.

(** X27: what [populateDropdowns] puts into the two dropdowns.  Both get
    the same content and are enabled, like the two buttons: the disabled,
    selected placeholder with the empty value, so that the value of the
    dropdown is the empty string, followed by the options for the
    stations, the lift bottoms, the lift tops, the slope tops and the
    slope bottoms, in this order, each with the node id of its location as
    value; and no group of options is empty. *)
Theorem populateDropdowns_options ui locations :
  option_values (startSelect (populateDropdowns ui locations)) =
    "" :: nodeIds (stations locations ++ liftBottoms locations ++ liftTops locations ++
                   slopeTops locations ++ slopeBottoms locations) /\
  endSelect (populateDropdowns ui locations) = startSelect (populateDropdowns ui locations) /\
  sel_value (startSelect (populateDropdowns ui locations)) = "" /\
  (forall og, ChildOptGroup og ∈ sel_children (startSelect (populateDropdowns ui locations)) ->
     og_children og <> []) /\
  sel_disabled (startSelect (populateDropdowns ui locations)) = false /\
  swapBtn_disabled (populateDropdowns ui locations) = false /\
  findRouteBtn_disabled (populateDropdowns ui locations) = false.
Proof.
  cbn [populateDropdowns startSelect endSelect swapBtn_disabled findRouteBtn_disabled].
  split_and!; try done.
  - unfold option_values. rewrite populate_options. cbn [fmap list_fmap o_value placeholder].
    f_equal. unfold nodeIds. rewrite <- list_fmap_compose.
    unfold groups. rewrite !bind_cons. cbn [mbind list_bind snd]. by rewrite app_nil_r.
  - unfold sel_value. rewrite populate_options.
    rewrite filter_cons_True by done.
    reflexivity.
  - intros og Hog. rewrite populate_children in Hog.
    apply elem_of_cons in Hog as [Hog|Hog]; [discriminate|].
    apply list_elem_of_fmap in Hog as ([label items] & [= ->] & Hin).
    apply list_elem_of_filter in Hin as [Hne _]. simpl in *.
    intros Hnil. apply fmap_nil_inv in Hnil. done.
Qed.

(** *** Loading the graph *)

Lemma showError_shown ui message : error_shown (showError ui message) message.
Proof.
  unfold error_shown, showError, hideLoading, with_panels. simpl.
  split_and!; [|intros [_ H]%elem_of_difference; by apply H, elem_of_singleton|done|];
    by apply elem_of_union_l, elem_of_singleton.
Qed.

(** Every location of the index names a key of the node map. *)
Lemma locations_node_keys localeCompare g l :
  getSelectableLocations localeCompare g = Ok l ->
  Forall (fun k => is_Some (nodes g !! k))
         (nodeIds (stations l ++ liftBottoms l ++ liftTops l ++
                   slopeTops l ++ slopeBottoms l)).
Proof.
  intros H.
  apply getSelectableLocations_Ok in H as (s & (H1 & H2 & H3 & H4) & -> & -> & -> & -> & ->).
  assert (forall type nodeKey label seen out,
            Idx g type nodeKey label (edges g) seen out ->
            Forall (fun k => is_Some (nodes g !! k))
                   (nodeIds (sort_byName localeCompare out))) as Hentries.
  { intros type nodeKey label seen out HI. unfold nodeIds. apply Forall_fmap.
    eapply Forall_impl; [by eapply Idx_sorted_entries|].
    intros loc (_ & _ & n & _ & _ & _ & Hn & _). simpl. eauto. }
  unfold nodeIds. rewrite !fmap_app, !Forall_app. split_and!.
  - apply Forall_fmap, Forall_forall. intros loc Hloc. simpl.
    rewrite sort_byName_Permutation in Hloc.
    apply station_entries_spec in Hloc as (n & Hn & _). eauto.
  - by eapply Hentries.
  - by eapply Hentries.
  - by eapply Hentries.
  - by eapply Hentries.
Qed.

(** X28: what loading the graph leaves on the page.  A failed request
    leaves no graph and only the error panel visible.  Graph data that
    arrived always leaves a graph.  If some named slope or lift in it has
    an end point that is no key of the node map, only the error panel is
    visible, with the text of a failed load, and the dropdowns are left as
    they were; otherwise both dropdowns are filled and enabled, and every
    value they offer is the empty string of the placeholder or a key of the
    node map. *)
Theorem init_page localeCompare graphData ui :
  (init localeCompare None ui).1 = None /\
  error_shown (init localeCompare None ui).2
    "Failed to load ski area data. Please refresh the page." /\
  (init localeCompare (Some graphData) ui).1 = Some (new_SkiGraph graphData) /\
  ((exists edge, edge ∈ gd_edges graphData /\ dangling (new_SkiGraph graphData) edge) ->
     error_shown (init localeCompare (Some graphData) ui).2
       "Failed to load ski area data. Please refresh the page." /\
     startSelect (init localeCompare (Some graphData) ui).2 = startSelect ui /\
     endSelect (init localeCompare (Some graphData) ui).2 = endSelect ui) /\
  (~ (exists edge, edge ∈ gd_edges graphData /\ dangling (new_SkiGraph graphData) edge) ->
     Forall (fun v => v = "" \/ is_Some (gd_nodes graphData !! v))
            (option_values (startSelect (init localeCompare (Some graphData) ui).2)) /\
     Forall (fun v => v = "" \/ is_Some (gd_nodes graphData !! v))
            (option_values (endSelect (init localeCompare (Some graphData) ui).2)) /\
     sel_disabled (startSelect (init localeCompare (Some graphData) ui).2) = false /\
     sel_disabled (endSelect (init localeCompare (Some graphData) ui).2) = false /\
     findRouteBtn_disabled (init localeCompare (Some graphData) ui).2 = false).
Proof.
  split; [done|]. split; [apply showError_shown|].
  unfold init.
  assert (getSelectableLocations localeCompare (new_SkiGraph graphData) = Throw <->
          exists edge, edge ∈ gd_edges graphData /\ dangling (new_SkiGraph graphData) edge)
    as HT.
  { rewrite <- (visit_edges_Throw (new_SkiGraph graphData) [] (gd_edges graphData) _
                  (Seen_Idx_nil _)).
    unfold getSelectableLocations.
    change (edges (new_SkiGraph graphData)) with (gd_edges graphData).
    destruct (for_of _ (gd_edges graphData) _); simpl; done. }
  destruct (getSelectableLocations localeCompare (new_SkiGraph graphData))
    as [locations|] eqn:E; cbn [fst snd].
  - split; [done|]. split.
    + intros Hd. apply HT in Hd. discriminate.
    + intros _. pose proof (locations_node_keys _ _ _ E) as Hk.
      assert (Forall (fun v => v = "" \/ is_Some (gd_nodes graphData !! v))
                (option_values (populate (groups locations) (startSelect ui)))) as Hs.
      { unfold option_values. rewrite populate_options. rewrite fmap_cons.
        constructor; [by left|]. rewrite <- list_fmap_compose.
        unfold groups. rewrite !bind_cons. cbn [mbind list_bind snd]. rewrite app_nil_r.
        eapply Forall_impl; [exact Hk|]. intros k Hn. by right. }
      split_and!; try done.
  - split; [done|]. split.
    + intros _. split; [apply showError_shown|done].
    + intros Hn. destruct Hn. by apply HT.
Qed.

(** *** Asking for a route *)

(** X29: what a click on the route button leads to, with the graph of a
    data set in the sense of the data model loaded and two keys of the
    node map selected.  The handler shows the loading panel and sets the
    timer for the search between the two selected nodes under the colours
    of the unchecked boxes.  The search returns, and the timer callback
    leaves, when the two nodes are the same, only the error panel visible
    with the text for equal end points; when they differ and the data have
    no path between them over edges that are not excluded, only the error
    panel with the text for a missing route; and otherwise it hands the
    route that was found to [renderRoute], showing the error for a failed
    calculation on top of what that left should it throw. *)
Theorem handleFindRoute_shows renderRoute graphData ui startId endId :
  valid_graph graphData ->
  sel_value (startSelect ui) = startId ->
  sel_value (endSelect ui) = endId ->
  startId <> "" -> endId <> "" ->
  is_Some (gd_nodes graphData !! startId) ->
  is_Some (gd_nodes graphData !! endId) ->
  handleFindRoute (Some (new_SkiGraph graphData)) ui =
    Scheduled (showLoading ui) (new_SkiGraph graphData) startId endId
      (getExcludedColors ui) /\
  exists o,
    returns (new_SkiGraph graphData) startId endId (getExcludedColors ui) o /\
    forall ui1,
      (startId = endId ->
         error_shown (on_timeout renderRoute (new_SkiGraph graphData) o ui1)
           "Start and end are the same location. Please select different points.") /\
      (startId <> endId ->
       ~ (exists es, edge_path graphData (getExcludedColors ui) startId endId es) ->
         error_shown (on_timeout renderRoute (new_SkiGraph graphData) o ui1)
           "No route found with current slope filters. Try enabling more slope colors.") /\
      (startId <> endId ->
       (exists es, edge_path graphData (getExcludedColors ui) startId endId es) ->
         exists route, o = Found route /\
           on_timeout renderRoute (new_SkiGraph graphData) o ui1 =
             if (renderRoute ui1 route (new_SkiGraph graphData)).2
             then (renderRoute ui1 route (new_SkiGraph graphData)).1
             else showError (renderRoute ui1 route (new_SkiGraph graphData)).1
                    "Failed to calculate route. Please try different points.").
Proof.
  intros Hv Hsv Hev Hs0 He0 Hs He. split.
  { unfold handleFindRoute. rewrite Hsv, Hev.
    apply String.eqb_neq in Hs0, He0. by rewrite Hs0, He0. }
  set (g := new_SkiGraph graphData). set (E := getExcludedColors ui).
  destruct (decide (startId = endId)) as [Heq|Hne].
  { exists (Error same_location). split.
    - exists 0. unfold findRoute. by rewrite bool_decide_eq_true_2.
    - intros ui1. split_and!; [|done..]. intros _. apply showError_shown. }
  pose proof Hv as (Hu & Hin & Hnn).
  destruct (findRoute_outcome graphData startId endId E Hin Hnn Hs He Hne)
    as (st & HP & [[Hinf Hr]|(d & route & Hd & Hr)]).
  - exists (Error no_route). split; [done|]. intros ui1. split_and!; [done| |].
    + intros _ _. apply showError_shown.
    + intros _ Hp. apply (Post_reach _ _ _ _ _ Hu Hin HP) in Hp as [d Hd]. congruence.
  - exists (Found route). split; [done|]. intros ui1. split_and!; [done| |].
    + intros _ Hp. destruct Hp. apply (Post_reach _ _ _ _ _ Hu Hin HP). eauto.
    + intros _ _. exists route. split; [done|]. simpl.
      by destruct (renderRoute ui1 route g) as [ui' []].
Qed.

Lemma handleFindRoute_shows_witness :
  handleFindRoute (Some (new_SkiGraph diamond_data)) (page "D" "A" true true true true) =
    Scheduled (showLoading (page "D" "A" true true true true)) (new_SkiGraph diamond_data)
      "D" "A" (getExcludedColors (page "D" "A" true true true true)) /\
  exists o,
    returns (new_SkiGraph diamond_data) "D" "A"
      (getExcludedColors (page "D" "A" true true true true)) o /\
    forall ui1,
      ("D" = "A" ->
         error_shown (on_timeout show_results (new_SkiGraph diamond_data) o ui1)
           "Start and end are the same location. Please select different points.") /\
      ("D" <> "A" ->
       ~ (exists es, edge_path diamond_data
                       (getExcludedColors (page "D" "A" true true true true)) "D" "A" es) ->
         error_shown (on_timeout show_results (new_SkiGraph diamond_data) o ui1)
           "No route found with current slope filters. Try enabling more slope colors.") /\
      ("D" <> "A" ->
       (exists es, edge_path diamond_data
                     (getExcludedColors (page "D" "A" true true true true)) "D" "A" es) ->
         exists route, o = Found route /\
           on_timeout show_results (new_SkiGraph diamond_data) o ui1 =
             if (show_results ui1 route (new_SkiGraph diamond_data)).2
             then (show_results ui1 route (new_SkiGraph diamond_data)).1
             else showError (show_results ui1 route (new_SkiGraph diamond_data)).1
                    "Failed to calculate route. Please try different points.").
Proof.
  apply (handleFindRoute_shows show_results diamond_data
           (page "D" "A" true true true true) "D" "A").
  - exact diamond_valid.
  - reflexivity.
  - reflexivity.
  - discriminate.
  - discriminate.
  - by eexists.
  - by eexists.
Defined.
